(** * files.go: a concurrent directory walker with layered ignore rules

    The development follows the source top to bottom.  [files.go] comes in
    two variants that differ in two places only: how the closure handed to
    [walk] extends the inherited matcher slice ([append] against
    [make]/[copy]) and how [walk] starts the traversal of a directory's
    entries (a semaphore of 16 tokens with a synchronous fallback against
    one goroutine per entry).  Both are modelled, selected by a [variant].

    - Part 1: values of the program (errors, [fileInfo], matchers, slices
      over a heap of backing arrays, the shared variables of [filesAsync]).
    - Part 2: the closure [walkFn] and the recursive [walk], run on one
      goroutine (entries of a directory one after the other).
    - Part 3: the goroutine structure of [walk] as a small-step machine
      driven by a schedule, with [n++] split into its load and its store.
    - Part 4: the notions the properties are stated with.
    - Part 5: concrete trees, patterns, rule files and schedules; measures
      on the activations of the machine and the listing a traversal is
      compared with.
    - Part 6: the properties.
    - Part 7: the machine on every schedule: termination, progress, the
      semaphore, the paths sent, the errors returned.
    - Part 8: the maximum on the schedules whose emits do not overlap,
      and the rule files on every schedule. *)

From Stdlib Require Import ZArith Ascii String List Bool Lia Permutation.
From stdpp Require Import base option list.
Import ListNotations.

Set Warnings "-register-all".

Local Open Scope string_scope.
Local Open Scope Z_scope.
Local Open Scope nat_scope.
Local Open Scope list_scope.

(* ===================================================================== *)
(** * Part 1: values *)
(* ===================================================================== *)

(** Go [error] values that occur in the program.  [nil] is [None] of
    [option error]; [SkipDir] is [filepath.SkipDir], [maxError] the
    sentinel declared in the source, [PathError] what [ioutil.ReadDir]
    reports for a directory it could not list. *)
Inductive error :=
| SkipDir
| maxError
| PathError (op path : string).

Definition isSkipDir (e : error) : bool :=
  match e with SkipDir => true | _ => false end.

(** [os.FileInfo] as far as the program looks at it: [Name()] and
    [Mode()].  [Mode] is the 32-bit [os.FileMode]. *)
Record fileInfo := { Name : string; Mode : Z }.

Definition ModeDir : Z := Z.shiftl 1 31.
Definition ModeSymlink : Z := Z.shiftl 1 27.

(** [func (m FileMode) IsDir() bool { return m&ModeDir != 0 }] *)
Definition IsDir (f : fileInfo) : bool :=
  negb (Z.land (Mode f) ModeDir =? 0)%Z.

(** [f.FileInfo.Mode()&os.ModeSymlink == os.ModeSymlink] *)
Definition isSymlink (f : fileInfo) : bool :=
  (Z.land (Mode f) ModeSymlink =? ModeSymlink)%Z.

(** [gitignore.IgnoreMatcher]: an interface with the single method
    [Match(path string, isDir bool) bool].  An interface value may be
    [nil]: the elements of an [ignoreMatchers] slice are
    [option IgnoreMatcher]. *)
Definition IgnoreMatcher : Type := string -> bool -> bool.

(** [func (im ignoreMatchers) Match(path string, isDir bool) bool], on the
    sequence of elements the slice denotes. *)
Fixpoint Match (im : list (option IgnoreMatcher)) (path : string) (isDir : bool)
  : bool :=
  match im with
  | [] => false
  | None :: _ => false
  | Some ig :: im' => if ig path isDir then true else Match im' path isDir
  end.

(** ** Slices and their backing arrays

    A slice header is a pointer, a length and a capacity.  The heap is the
    list of backing arrays allocated so far; a pointer is an index into
    it.  The [nil] slice has length and capacity 0. *)
Record slice := { arr : nat; len : nat; cap : nat }.

Definition nilSlice : slice := {| arr := 0; len := 0; cap := 0 |}.

Abbreviation memory := (list (list (option IgnoreMatcher))).

Definition elems (h : memory) (s : slice) : list (option IgnoreMatcher) :=
  take (len s) (default [] (h !! arr s)).

(** The capacity after [append] has had to reallocate is the choice of
    the Go runtime.  This definition follows its rule before rounding:
    the needed length if that is more than twice the old capacity,
    doubling below 256 elements, then growth by a quarter (plus 192).
    It gives the capacities 1, 2 and 4 of the first three appends to a
    [nil] slice.  The runtime then rounds up to an allocation size
    class, which is not modelled: for longer slices its capacities can
    be larger than these.  The properties below use the values 1, 2, 4
    in the run with three nested rule files, and otherwise only that
    the capacity is enough for the new length. *)
Definition growcap (old needed : nat) : nat :=
  if 2 * old <? needed then needed
  else if old <? 256 then 2 * old
  else Nat.max needed (old + (old + 768) / 4).

(** [append(s, m)]: in place when the capacity allows it, otherwise into
    a fresh array that receives a copy of the elements. *)
Definition append (s : slice) (m : option IgnoreMatcher) (h : memory)
  : slice * memory :=
  if len s <? cap s then
    ({| arr := arr s; len := S (len s); cap := cap s |},
     alter (fun a => <[len s := m]> a) (arr s) h)
  else
    let c := growcap (cap s) (S (len s)) in
    ({| arr := length h; len := S (len s); cap := c |},
     h ++ [elems h s ++ m :: replicate (c - S (len s)) None]).

(** [make(ignoreMatchers, k)] *)
Definition make (k : nat) (h : memory) : slice * memory :=
  ({| arr := length h; len := k; cap := k |}, h ++ [replicate k None]).

(** [copy(dst, src)]: the first [min(len(dst), len(src))] elements. *)
Definition copy (dst src : slice) (h : memory) : memory :=
  let k := Nat.min (len dst) (len src) in
  alter (fun a => take k (elems h src) ++ drop k a) (arr dst) h.

(** [s[i] = m], for [i < len(s)]. *)
Definition setIndex (s : slice) (i : nat) (m : option IgnoreMatcher)
  (h : memory) : memory :=
  alter (fun a => <[i := m]> a) (arr s) h.

(** ** The shared variables

    [mem] holds the backing arrays, [n] is the counter of [filesAsync]
    (an [int64]), [q] the paths sent on the channel so far, oldest first
    (a send waits while the channel holds 20 paths; the loop in [main]
    takes them off in this order, so every send completes), [sem] the
    number of tokens currently in the semaphore channel.
    Two ghost fields record what happened: [reads] the paths
    [ioutil.ReadDir] was called on, [incs] how many times [n++] was
    executed. *)
Record state := {
  mem : memory;
  n : Z;
  q : list string;
  sem : nat;
  reads : list string;
  incs : nat
}.

Definition setMem (h : memory) (st : state) : state :=
  {| mem := h; n := n st; q := q st; sem := sem st; reads := reads st;
     incs := incs st |}.
(** The write that ends an [n++]. *)
Definition storeN (z : Z) (st : state) : state :=
  {| mem := mem st; n := z; q := q st; sem := sem st; reads := reads st;
     incs := S (incs st) |}.
Definition send (p : string) (st : state) : state :=
  {| mem := mem st; n := n st; q := q st ++ [p]; sem := sem st;
     reads := reads st; incs := incs st |}.
Definition setSem (k : nat) (st : state) : state :=
  {| mem := mem st; n := n st; q := q st; sem := k; reads := reads st;
     incs := incs st |}.
Definition logRead (p : string) (st : state) : state :=
  {| mem := mem st; n := n st; q := q st; sem := sem st;
     reads := reads st ++ [p]; incs := incs st |}.

(** [int64] arithmetic wraps around. *)
Definition wrap64 (z : Z) : Z := ((z + 2 ^ 63) mod 2 ^ 64 - 2 ^ 63)%Z.

(** [int64(^uint64(0) >> 1)] *)
Definition maxInt64 : Z := Z.shiftr (Z.ones 64) 1.

(** [main]: [maxcount] starts as [int64(^uint64(0) >> 1)] and is replaced
    by the flag [-M] only when that is positive. *)
Definition maxcountOf (maxfiles : Z) : Z :=
  if (0 <? maxfiles)%Z then maxfiles else maxInt64.

(** The flags and globals the walker reads.  [ignorere] stands for
    [ignorere.MatchString], the compiled static pattern. *)
Record config := {
  ignorere : string -> bool;
  careGitignore : bool;
  maxcount : Z
}.

(** What the walker asks of its surroundings.  [NewGitIgnore p] is the
    outcome of [gitignore.NewGitIgnore(p)]: [None] when it returns an
    error.  [homeDir] is [home.Dir()]. *)
Record world := {
  NewGitIgnore : string -> option IgnoreMatcher;
  homeDir : string;
  globalGitIgnoreName : string
}.

(** The elements of a path: the pieces between its separators. *)
Fixpoint elements (acc path : string) : list string :=
  match path with
  | EmptyString => [acc]
  | String c rest =>
    if Ascii.eqb c "/" then acc :: elements "" rest
    else elements (acc ++ String c "")%string rest
  end.

(** One element more for [filepath.Clean]; [kept] are the elements
    kept so far, the last one first.  Empty elements and [.] are
    dropped; [..] takes the element before it away, stays when there is
    none to take in a path that is not rooted, and is dropped at the
    root. *)
Definition cleanStep (rooted : bool) (kept : list string) (e : string)
  : list string :=
  if (e =? "")%string || (e =? ".")%string then kept
  else if (e =? "..")%string then
    match kept with
    | top :: below => if (top =? "..")%string then e :: kept else below
    | [] => if rooted then [] else [e]
    end
  else e :: kept.

Definition isRooted (path : string) : bool :=
  match path with String c _ => Ascii.eqb c "/" | EmptyString => false end.

(** [filepath.Clean(path)], where the separator is [/]. *)
Definition Clean (path : string) : string :=
  let body :=
    String.concat "/"
      (rev (fold_left (cleanStep (isRooted path)) (elements "" path) [])) in
  if isRooted path then ("/" ++ body)%string
  else if (body =? "")%string then "." else body.

(** [filepath.Join(dir, name)]: empty elements are ignored, the others
    joined by the separator, and the result is cleaned. *)
Definition Join (dir name : string) : string :=
  if negb (dir =? "")%string then Clean (dir ++ "/" ++ name)%string
  else if negb (name =? "")%string then Clean name
  else "".

(** [filepath.Dir(path)]: the path up to its last separator, cleaned. *)
Definition Dir (path : string) : string :=
  match removelast (elements "" path) with
  | [] => Clean ""
  | front => Clean (String.concat "/" front ++ "/")%string
  end.

Definition gitignoreFile : string := ".gitignore".

(** The file tree, as the walker can see it: the [Lstat] information of
    an entry, the error of [ioutil.ReadDir] on its path if there is one,
    and the entries [ReadDir] returns. *)
Inductive node := Node (info : fileInfo) (rderr : option error) (files : list node).

Definition infoOf (nd : node) : fileInfo :=
  match nd with Node i _ _ => i end.

(* ===================================================================== *)
(** * Part 2: [walkFn] and [walk] on one goroutine *)
(* ===================================================================== *)

Inductive variant := Bounded | Unbounded.

Definition walkFunc : Type :=
  string -> fileInfo -> slice -> state -> slice * option error * state.

(** [if err != nil { ferr = err }] *)
Definition retain (err ferr : option error) : option error :=
  match err with Some e => Some e | None => ferr end.

(** The loop of [walk] over the entries of a directory, each traversal
    finished before the next one starts: what the [default] branch of the
    [select] does.  [ferr] keeps the error of the latest entry that
    returned one. *)
Definition rangeFiles
  (rec : string -> node -> slice -> state -> option error * state)
  (path : string) (ignores : slice)
  : list node -> option error -> state -> option error * state :=
  fix range (files : list node) (ferr : option error) (st : state) :=
    match files with
    | [] => (ferr, st)
    | file :: files' =>
      let '(err, st) := rec (Join path (Name (infoOf file))) file ignores st in
      range files' (retain err ferr) st
    end.

(** [func walk(path, info, parentIgnores, walkFn, sem) error] *)
Fixpoint walk (walkFn : walkFunc) (path : string) (nd : node)
  (parentIgnores : slice) (st : state) {struct nd} : option error * state :=
  match nd with
  | Node info rderr files =>
    let '(ignores, walkError, st) := walkFn path info parentIgnores st in
    match walkError with
    | Some e =>
      if IsDir info && isSkipDir e then (None, st) else (Some e, st)
    | None =>
      if isSymlink info || negb (IsDir info) then (None, st)
      else
        let st := logRead path st in
        match rderr with
        | Some err => (Some err, st)
        | None => rangeFiles (walk walkFn) path ignores files None st
        end
    end
  end.

Section Closure.

Variable cfg : config.
Variable w : world.

(** The first statement of the closure: the matcher of the directory's
    own rule file joins the inherited ones.  The bounded variant
    appends to the slice it was given; the unbounded variant fills a
    slice of its own, and leaves [newMatchers] at [nil] when the entry
    is not a directory to be read (its [else] branch is empty). *)
Definition extend (v : variant) (path : string) (fi : fileInfo)
  (matchers : slice) (h : memory) : slice * memory :=
  if careGitignore cfg && IsDir fi && negb (isSymlink fi) then
    match NewGitIgnore w (Join path gitignoreFile) with
    | Some matcher =>
      match v with
      | Bounded => append matchers (Some matcher) h
      | Unbounded =>
        let '(newMatchers, h) := make (len matchers + 1) h in
        let h := copy newMatchers matchers h in
        (newMatchers, setIndex newMatchers (len matchers) (Some matcher) h)
      end
    | None => (matchers, h)
    end
  else
    match v with
    | Bounded => (matchers, h)
    | Unbounded => (nilSlice, h)
    end.

(** The condition of the second statement. *)
Definition excluded (path : string) (fi : fileInfo) (matchers : slice)
  (h : memory) : bool :=
  ignorere cfg (Name fi)
  || careGitignore cfg && Match (elems h matchers) path (IsDir fi).

(** [n++] *)
Definition increment (st : state) : state := storeN (wrap64 (n st + 1)) st.

(** [if n > maxcount { return matchers, maxError }; q <- path].
    [filepath.ToSlash] changes nothing where the separator is [/];
    the progress message goes to standard error and is left out. *)
Definition checkSend (path : string) (st : state) : option error * state :=
  if (maxcount cfg <? n st)%Z then (Some maxError, st)
  else (None, send path st).

(** The closure [filesAsync] passes to [walk]. *)
Definition walkFn (v : variant) : walkFunc :=
  fun path fi matchers st =>
    let '(matchers, h) := extend v path fi matchers (mem st) in
    let st := setMem h st in
    if excluded path fi matchers (mem st) then
      (matchers, if IsDir fi then Some SkipDir else None, st)
    else if negb (IsDir fi) then
      let '(err, st) := checkSend path (increment st) in
      (matchers, err, st)
    else (matchers, None, st).

(** The matchers [filesAsync] starts from: the global rule file, when
    the flag is set and all three lookups succeed. *)
Definition ignMatchers (base : string) (h : memory) : slice * memory :=
  if careGitignore cfg then
    if negb (homeDir w =? "")%string then
      if negb (globalGitIgnoreName w =? "")%string then
        match NewGitIgnore w (Join (homeDir w) (globalGitIgnoreName w)) with
        | Some matcher => append nilSlice (Some matcher) h
        | None => (nilSlice, h)
        end
      else (nilSlice, h)
    else (nilSlice, h)
  else (nilSlice, h).

Definition initial : state :=
  {| mem := []; n := 0%Z; q := []; sem := 0; reads := []; incs := 0 |}.

(** [filesAsync(base)], its goroutine run to the end on its own: the
    error left in [ferr], and the paths sent on [q].  [filesAsync]
    leaves the program before that if [base] is not a directory. *)
Definition filesAsync (v : variant) (base : string) (root : node)
  : option (option error * state) :=
  if IsDir (infoOf root) then
    let '(m, h) := ignMatchers base (mem initial) in
    Some (walk (walkFn v) base root m (setMem h initial))
  else None.

End Closure.

(* ===================================================================== *)
(** * Part 3: the goroutines of [walk] *)
(* ===================================================================== *)

(** One activation of [walk] and where it stands.

    - [Call]: entered, the closure not yet run.
    - [Emit1], [Emit2], [Emit3]: inside the closure, on an entry to be
      emitted: before [n++] reads [n]; after the read, the value held in
      a register, before the write; after the write, before the
      comparison with [maxcount] and the send.
    - [Loop]: in the loop over the entries of a directory: the error
      retained so far, the traversal the loop itself is running (the
      [default] branch), the goroutines it started and that have not
      finished, and the entries still to come.
    - [Ret]: [walk] has its result. *)
Inductive thread :=
| Call (path : string) (nd : node) (ign : slice)
| Emit1 (path : string)
| Emit2 (path : string) (tmp : Z)
| Emit3 (path : string)
| Loop (path : string) (ignores : slice) (ferr : option error)
       (cur : option thread) (kids : list thread) (rest : list node)
| Ret (err : option error).

(** Which goroutine moves next: the one whose activation this is, the
    traversal it runs itself, or the [i]-th goroutine it started. *)
Inductive choice :=
| Here
| InCur (c : choice)
| InKid (i : nat) (c : choice).

(** [case sem <- struct{}{}:] of the bounded variant succeeds while fewer
    than 16 tokens are in the channel; the unbounded variant starts a
    goroutine for every entry. *)
Definition acquire (v : variant) (st : state) : option state :=
  match v with
  | Bounded => if sem st <? 16 then Some (setSem (S (sem st)) st) else None
  | Unbounded => Some st
  end.

(** [defer func() { <-sem }()] *)
Definition release (v : variant) (st : state) : state :=
  match v with
  | Bounded => setSem (pred (sem st)) st
  | Unbounded => st
  end.

Section Machine.

Variable cfg : config.
Variable w : world.
Variable v : variant.

(** The first step of an activation: the first two statements of the
    closure, and for a directory to be read the call of [ReadDir]. *)
Definition enter (path : string) (nd : node) (ign : slice) (st : state)
  : thread * state :=
  match nd with
  | Node info rderr files =>
    let '(ignores, h) := extend cfg w v path info ign (mem st) in
    let st := setMem h st in
    if excluded cfg path info ignores (mem st) then (Ret None, st)
    else if negb (IsDir info) then (Emit1 path, st)
    else if isSymlink info then (Ret None, st)
    else
      let st := logRead path st in
      match rderr with
      | Some err => (Ret (Some err), st)
      | None => (Loop path ignores None None [] files, st)
      end
  end.

(** A step of the activation itself when it is in its loop. *)
Definition iterate (path : string) (ignores : slice) (ferr : option error)
  (cur : option thread) (kids : list thread) (rest : list node) (st : state)
  : option (thread * state) :=
  match cur with
  | Some (Ret err) =>
    Some (Loop path ignores (retain err ferr) None kids rest, st)
  | Some _ => None
  | None =>
    match rest with
    | file :: rest' =>
      let t := Call (Join path (Name (infoOf file))) file ignores in
      match acquire v st with
      | Some st' => Some (Loop path ignores ferr None (kids ++ [t]) rest', st')
      | None => Some (Loop path ignores ferr (Some t) kids rest', st)
      end
    | [] =>
      match kids with
      | [] => Some (Ret ferr, st)
      | _ :: _ => None
      end
    end
  end.

(** One step of the goroutine the choice points at; [None] when that
    goroutine does not exist or cannot move. *)
Fixpoint step (c : choice) (t : thread) (st : state) {struct c}
  : option (thread * state) :=
  match c with
  | Here =>
    match t with
    | Call path nd ign => Some (enter path nd ign st)
    | Emit1 path => Some (Emit2 path (n st), st)
    | Emit2 path tmp => Some (Emit3 path, storeN (wrap64 (tmp + 1)) st)
    | Emit3 path => let '(err, st) := checkSend cfg path st in Some (Ret err, st)
    | Loop path ignores ferr cur kids rest =>
      iterate path ignores ferr cur kids rest st
    | Ret _ => None
    end
  | InCur c' =>
    match t with
    | Loop path ignores ferr (Some t0) kids rest =>
      match step c' t0 st with
      | Some (t1, st') => Some (Loop path ignores ferr (Some t1) kids rest, st')
      | None => None
      end
    | _ => None
    end
  | InKid i c' =>
    match t with
    | Loop path ignores ferr cur kids rest =>
      match kids !! i with
      | Some (Ret err) =>
        Some (Loop path ignores (retain err ferr) cur (delete i kids) rest,
              release v st)
      | Some t0 =>
        match step c' t0 st with
        | Some (t1, st') =>
          Some (Loop path ignores ferr cur (<[i := t1]> kids) rest, st')
        | None => None
        end
      | None => None
      end
    | _ => None
    end
  end.

Fixpoint run (cs : list choice) (t : thread) (st : state)
  : option (thread * state) :=
  match cs with
  | [] => Some (t, st)
  | c :: cs' =>
    match step c t st with
    | Some (t', st') => run cs' t' st'
    | None => None
    end
  end.

End Machine.

(* ===================================================================== *)
(** * Part 4: the notions the properties are stated with *)
(* ===================================================================== *)

(** What one matcher of the slice says; a [nil] entry says nothing. *)
Definition reports (path : string) (isDir : bool) (o : option IgnoreMatcher)
  : bool :=
  match o with Some ig => ig path isDir | None => false end.

(** No entry of the slice is [nil]. *)
Definition nilFree (im : list (option IgnoreMatcher)) : Prop :=
  Forall (fun o => o <> None) im.

(** What can be seen of an entry the closure set aside: nothing was
    counted or sent, and a directory comes back with [SkipDir]. *)
Definition setAside (fi : fileInfo) (err : option error) (st st' : state)
  : Prop :=
  n st' = n st /\ q st' = q st /\
  err = (if IsDir fi then Some SkipDir else None).

(** [n] is the number of increments made, as an [int64]. *)
Definition counted (st : state) : Prop := n st = wrap64 (Z.of_nat (incs st)).

(** The same flags with another value of [maxcount]. *)
Definition withMax (cfg : config) (m : Z) : config :=
  {| ignorere := ignorere cfg; careGitignore := careGitignore cfg;
     maxcount := m |}.

(** Every [ReadDir] in the tree succeeds. *)
Fixpoint healthy (nd : node) : bool :=
  match nd with
  | Node _ rderr files =>
    match rderr with
    | None => forallb healthy files
    | Some _ => false
    end
  end.

(** The number of entries of the tree, its root included. *)
Fixpoint size (nd : node) : nat :=
  match nd with
  | Node _ _ files => S (list_sum (map size files))
  end.

(** The error a traversal returns under the maximum [k], when the counter
    went from [n0] to [n1] during it: an emit overflowed exactly when the
    counter moved and ended above [k]. *)
Definition overflowed (k : nat) (n0 n1 : Z) : option error :=
  if (Z.of_nat k <? n1)%Z && (n0 <? n1)%Z then Some maxError else None.

(** Two runs side by side, one under the maximum [k] and one without a
    maximum: they differ in [q] only, where the first has the first [k]
    paths of the second. *)
Definition agree (k : nat) (sK sI : state) : Prop :=
  mem sK = mem sI /\ n sK = n sI /\ sem sK = sem sI /\
  reads sK = reads sI /\ incs sK = incs sI /\
  q sK = take k (q sI) /\ n sI = Z.of_nat (length (q sI)).

(** A slice is sound in a heap when its length is within its capacity,
    its array has that capacity, and none of its elements is [nil]. *)
Definition sound (h : memory) (s : slice) : Prop :=
  len s <= cap s /\ cap s <= length (default [] (h !! arr s)) /\ nilFree (elems h s).

(** The exclusion test as the specification has it: the disjunction of
    what the matchers of the context say. *)
Definition excludedOr (cfg : config) (path : string) (fi : fileInfo)
  (matchers : slice) (h : memory) : bool :=
  ignorere cfg (Name fi)
  || careGitignore cfg && existsb (reports path (IsDir fi)) (elems h matchers).

(** The closure with that test in the place of [Match]. *)
Definition walkFnOr (cfg : config) (w : world) (v : variant) : walkFunc :=
  fun path fi matchers st =>
    let '(matchers, h) := extend cfg w v path fi matchers (mem st) in
    let st := setMem h st in
    if excludedOr cfg path fi matchers (mem st) then
      (matchers, if IsDir fi then Some SkipDir else None, st)
    else if negb (IsDir fi) then
      let '(err, st) := checkSend cfg path (increment st) in
      (matchers, err, st)
    else (matchers, None, st).

(** Every slice that is sound before stays sound. *)
Definition keepsSound (st st' : state) : Prop :=
  forall s, sound (mem st) s -> sound (mem st') s.

(** The slices an activation, the traversal it runs and the goroutines
    it started hold. *)
Fixpoint slicesOf (t : thread) : list slice :=
  match t with
  | Call _ _ ign => [ign]
  | Loop _ ignores _ cur kids _ =>
    ignores :: match cur with Some t0 => slicesOf t0 | None => [] end
            ++ flat_map slicesOf kids
  | _ => []
  end.

(** The heap only grows: the arrays of [h] are in [h'] as they were. *)
Definition appendOnly (h h' : memory) : Prop :=
  length h <= length h' /\ forall a, a < length h -> h' !! a = h !! a.

(** A schedule for a thread, as a schedule for the loop that started it
    as its [i]-th goroutine. *)
Definition inKid (i : nat) (cs : list choice) : list choice := map (InKid i) cs.

(** The flags with the maximum at [k], and with the largest [int64]. *)
Definition capped (cfg : config) (k : nat) : config := withMax cfg (Z.of_nat k).
Definition uncapped (cfg : config) : config := withMax cfg maxInt64.

(** The two runs stay side by side over the traversal of one entry: the
    run without a maximum returns [nil], the run under [k] returns the
    overflow error if an emit of this traversal overflowed, and the
    counter grows by at most the number of entries. *)
Definition agreesOn (cfg : config) (w : world) (v : variant) (k : nat)
  (nd : node) : Prop :=
  forall path C sK sI,
    agree k sK sI -> (n sI + Z.of_nat (size nd) < 2 ^ 63)%Z ->
    exists sK' sI',
      walk (walkFn (uncapped cfg) w v) path nd C sI = (None, sI') /\
      walk (walkFn (capped cfg k) w v) path nd C sK
      = (overflowed k (n sI) (n sI'), sK') /\
      agree k sK' sI' /\
      (n sI <= n sI' <= n sI + Z.of_nat (size nd))%Z.

(** Some schedule takes the activation to the result [walk] computes. *)
Definition serialOn (cfg : config) (w : world) (v : variant) (nd : node)
  : Prop :=
  forall path C st, exists cs,
    run cfg w v cs (Call path nd C) st
    = Some (Ret (fst (walk (walkFn cfg w v) path nd C st)),
            snd (walk (walkFn cfg w v) path nd C st)).

(* ===================================================================== *)
(** * Part 5: concrete trees, patterns, rule files and schedules *)
(* ===================================================================== *)

(** [s] ends in [suf]. *)
Definition hasSuffix (suf s : string) : bool :=
  let k := String.length suf in
  let m := String.length s in
  (k <=? m) && (substring (m - k) k s =? suf)%string.

(** The pattern of a rule whose line is a star followed by [suf], such
    as [*.log]: a path matches when its last element ends in [suf]. *)
Definition glob (suf : string) : IgnoreMatcher :=
  fun path _ => hasSuffix suf path.

(** The matcher [gitignore.NewGitIgnore] returns for a rule file in the
    directory [dir] with the single rule [glob suf].  The library takes
    the path relative to [dir] before it looks at the rules, and
    answers [false] for [dir] itself: a directory is not excluded by
    its own rule file.  A path outside [dir] is still matched by its
    last element. *)
Definition ruleIn (dir suf : string) : IgnoreMatcher :=
  fun path isDir => negb (path =? dir)%string && glob suf path isDir.

(** The default of the flag [-i]:
    [^(\.git|\.hg|\.svn|_darcs|\.bzr)$]. *)
Definition defaultIgnore (name : string) : bool :=
  existsb (String.eqb name) [".git"; ".hg"; ".svn"; "_darcs"; ".bzr"].

(** Entries as [Lstat] reports them: a regular file (mode 0644), a
    directory (0755) with its entries, a directory that cannot be
    listed. *)
Definition regular (name : string) : node :=
  Node {| Name := name; Mode := 420 |} None [].

Definition directory (name : string) (files : list node) : node :=
  Node {| Name := name; Mode := ModeDir + 493 |} None files.

Definition unreadable (name : string) (e : error) : node :=
  Node {| Name := name; Mode := ModeDir + 493 |} (Some e) [].

(** A symbolic link (mode 0777); [target] is what listing its path
    would return. *)
Definition symlink (name : string) (target : list node) : node :=
  Node {| Name := name; Mode := ModeSymlink + 511 |} None target.

(** Rule files: the paths at which [NewGitIgnore] succeeds, each with the
    suffix its single rule excludes; the rules apply from the directory
    of the file. *)
Definition ruleFiles (rules : list (string * string)) : world :=
  {| NewGitIgnore := fun p =>
       match find (fun r => (fst r =? p)%string) rules with
       | Some r => Some (ruleIn (Dir (fst r)) (snd r))
       | None => None
       end;
     homeDir := "";
     globalGitIgnoreName := "" |}.

(** The flags [-g] and [-M maxfiles], the pattern left at its default. *)
Definition flags (g : bool) (maxfiles : Z) : config :=
  {| ignorere := defaultIgnore; careGitignore := g;
     maxcount := maxcountOf maxfiles |}.

(** A root with [sub/.gitignore] (holding [*.log]), [sub/x.log] and
    [sub/y.txt]. *)
Definition logTree : node :=
  directory "." [directory "sub" [regular ".gitignore"; regular "x.log";
                                    regular "y.txt"]].

Definition logWorld : world := ruleFiles [("sub/.gitignore", ".log")].

(** A directory with two entries that cannot be listed, each with an
    error of its own. *)
Definition errA : error := PathError "open" "a".

Definition errB : error := PathError "open" "b".

Definition twoUnreadable : node :=
  directory "." [unreadable "a" errA; unreadable "b" errB].

(** Both goroutines are started and fail; the one for [a] finishes first,
    then the one for [b]. *)
Definition aThenB : list choice :=
  [Here; Here; Here] ++ inKid 0 [Here] ++ inKid 1 [Here] ++ inKid 0 [Here].

(** A directory with two plain files. *)
Definition twoFiles : node := directory "." [regular "a"; regular "b"].

(** Both goroutines read [n] before either writes it back. *)
Definition bothReadFirst : list choice :=
  [Here; Here; Here] ++ inKid 0 [Here] ++ inKid 1 [Here]
  ++ inKid 0 [Here] ++ inKid 1 [Here]
  ++ inKid 0 [Here] ++ inKid 1 [Here]
  ++ inKid 0 [Here] ++ inKid 1 [Here]
  ++ inKid 0 [Here] ++ inKid 0 [Here] ++ [Here].

(** Two files and then a directory that cannot be listed. *)
Definition errZ : error := PathError "open" "z".

Definition filesThenUnreadable : node :=
  directory "." [regular "a"; regular "b"; unreadable "z" errZ].

(** A directory with five plain files. *)
Definition fiveFiles : node :=
  directory "." [regular "a"; regular "b"; regular "c"; regular "d";
                 regular "e"].

(** A tree in which every directory on the way down has a rule file, and
    two sibling directories [a] and [b] at the bottom have one each:
    [a] excludes [*.log], [b] excludes [*.txt]. *)
Definition nestedTree : node :=
  directory "."
    [regular ".gitignore";
     directory "p"
       [regular ".gitignore";
        directory "q"
          [regular ".gitignore";
           directory "a" [regular ".gitignore"; regular "x.log";
                          regular "y.txt"];
           directory "b" [regular ".gitignore"]]]].

Definition nestedWorld : world :=
  ruleFiles [(".gitignore", ".tmp"); ("p/.gitignore", ".bak");
             ("p/q/.gitignore", ".swp"); ("p/q/a/.gitignore", ".log");
             ("p/q/b/.gitignore", ".txt")].

(** Start the goroutine of the next entry, a file that is emitted, and
    run it to its end; the same for a file that is excluded. *)
Definition emitNext : list choice := Here :: inKid 0 [Here; Here; Here; Here; Here].

Definition skipNext : list choice := Here :: inKid 0 [Here; Here].

(** The goroutines of [a] and [b] both run the closure before [a] goes
    on to its entries. *)
Definition bBeforeEntriesOfA : list choice :=
  [Here] ++ emitNext ++ [Here]
  ++ inKid 0
       ([Here] ++ emitNext ++ [Here]
        ++ inKid 0
             ([Here] ++ emitNext ++ [Here; Here]
              ++ inKid 0 [Here] ++ inKid 1 [Here]
              ++ inKid 0 (emitNext ++ emitNext ++ skipNext ++ [Here])
              ++ inKid 1 (emitNext ++ [Here])
              ++ [InKid 0 Here; InKid 0 Here; Here])
        ++ [InKid 0 Here; Here])
  ++ [InKid 0 Here; Here].

(* ===================================================================== *)
(** * Part 5, continued: measures on activations and reference listings *)
(* ===================================================================== *)

(** An upper bound on the steps the traversal of an entry can take. *)
Fixpoint weight (nd : node) : nat :=
  match nd with
  | Node _ _ files => 6 + list_sum (map (fun f => S (weight f)) files)
  end.

(** An upper bound on the steps left to an activation. *)
Fixpoint fuel (t : thread) : nat :=
  match t with
  | Call _ nd _ => weight nd
  | Emit1 _ => 4
  | Emit2 _ _ => 3
  | Emit3 _ => 2
  | Loop _ _ _ cur kids rest =>
    2 + match cur with Some t0 => fuel t0 | None => 0 end
    + list_sum (map fuel kids)
    + list_sum (map (fun f => S (weight f)) rest)
  | Ret _ => 1
  end.

(** The goroutines started below an activation that have not finished. *)
Fixpoint started (t : thread) : nat :=
  match t with
  | Loop _ _ _ cur kids _ =>
    match cur with Some t0 => started t0 | None => 0 end
    + length kids + list_sum (map started kids)
  | _ => 0
  end.

(** A step of the activation the schedule points at, as a relation:
    one constructor for each case of [step] at [Here]. *)
Inductive hereStep (cfg : config) (w : world) (v : variant)
  : thread -> state -> thread -> state -> Prop :=
| HereCall path nd ign st :
    hereStep cfg w v (Call path nd ign) st
      (fst (enter cfg w v path nd ign st)) (snd (enter cfg w v path nd ign st))
| HereRead path st :
    hereStep cfg w v (Emit1 path) st (Emit2 path (n st)) st
| HereWrite path tmp st :
    hereStep cfg w v (Emit2 path tmp) st (Emit3 path) (storeN (wrap64 (tmp + 1)) st)
| HereSend path st :
    hereStep cfg w v (Emit3 path) st
      (Ret (fst (checkSend cfg path st))) (snd (checkSend cfg path st))
| HereCollect path ign ferr e kids rest st :
    hereStep cfg w v (Loop path ign ferr (Some (Ret e)) kids rest) st
      (Loop path ign (retain e ferr) None kids rest) st
| HereSpawn path ign ferr kids f rest st st1 :
    acquire v st = Some st1 ->
    hereStep cfg w v (Loop path ign ferr None kids (f :: rest)) st
      (Loop path ign ferr None
         (kids ++ [Call (Join path (Name (infoOf f))) f ign]) rest) st1
| HereInline path ign ferr kids f rest st :
    acquire v st = None ->
    hereStep cfg w v (Loop path ign ferr None kids (f :: rest)) st
      (Loop path ign ferr
         (Some (Call (Join path (Name (infoOf f))) f ign)) kids rest) st
| HereReturn path ign ferr st :
    hereStep cfg w v (Loop path ign ferr None [] []) st (Ret ferr) st.

(** The paths below an entry that are not set aside by the static
    pattern: the entries that are not directories, outside every
    directory whose name matches, that is a symbolic link or that cannot
    be listed.  In the order of the listings. *)
Fixpoint expected (ignore : string -> bool) (path : string) (nd : node)
  : list string :=
  match nd with
  | Node info rderr files =>
    if ignore (Name info) then []
    else if negb (IsDir info) then [path]
    else if isSymlink info then []
    else match rderr with
         | Some _ => []
         | None =>
           flat_map (fun f => expected ignore (Join path (Name (infoOf f))) f)
             files
         end
  end.

(** The paths an activation may still send. *)
Fixpoint owed (ignore : string -> bool) (t : thread) : list string :=
  match t with
  | Call path nd _ => expected ignore path nd
  | Emit1 path => [path]
  | Emit2 path _ => [path]
  | Emit3 path => [path]
  | Loop path _ _ cur kids rest =>
    match cur with Some t0 => owed ignore t0 | None => [] end
    ++ flat_map (owed ignore) kids
    ++ flat_map (fun f => expected ignore (Join path (Name (infoOf f))) f) rest
  | Ret _ => []
  end.

(** The values of [n] that activations have read and not yet written
    back. *)
Fixpoint tmps (t : thread) : list Z :=
  match t with
  | Emit2 _ tmp => [tmp]
  | Loop _ _ _ cur kids _ =>
    match cur with Some t0 => tmps t0 | None => [] end ++ flat_map tmps kids
  | _ => []
  end.

(** At most so many increments are still to come from an activation. *)
Fixpoint toCount (ignore : string -> bool) (t : thread) : nat :=
  match t with
  | Call path nd _ => length (expected ignore path nd)
  | Emit1 _ => 1
  | Emit2 _ _ => 1
  | Loop path _ _ cur kids rest =>
    match cur with Some t0 => toCount ignore t0 | None => 0 end
    + list_sum (map (toCount ignore) kids)
    + length (flat_map
                (fun f => expected ignore (Join path (Name (infoOf f))) f) rest)
  | _ => 0
  end.

(** A value read from [n] is between zero and the number of increments
    made. *)
Definition fresh (st : state) (z : Z) : Prop :=
  (0 <= z <= Z.of_nat (incs st))%Z.

(** The counter has lost increments at most, and with those still to
    come the increments stay within [N]. *)
Definition within (ignore : string -> bool) (N : nat) (t : thread) (st : state)
  : Prop :=
  fresh st (n st) /\ Forall (fresh st) (tmps t) /\
  incs st + toCount ignore t <= N.

(** An error as a list: the error when there is one. *)
Definition held (e : option error) : list error :=
  match e with Some x => [x] | None => [] end.

(** The errors [ReadDir] returns below an entry. *)
Fixpoint rderrs (nd : node) : list error :=
  match nd with
  | Node _ rderr files => held rderr ++ flat_map rderrs files
  end.

(** The errors an activation holds, and those [ReadDir] may still
    return below it. *)
Fixpoint pending (t : thread) : list error :=
  match t with
  | Call _ nd _ => rderrs nd
  | Loop _ _ ferr cur kids rest =>
    held ferr ++ match cur with Some t0 => pending t0 | None => [] end
    ++ flat_map pending kids ++ flat_map rderrs rest
  | Ret e => held e
  | _ => []
  end.

(** ** Emits that do not overlap *)

(** The activations that have written [n] back and have not yet compared
    it with [maxcount]. *)
Fixpoint checks (t : thread) : nat :=
  match t with
  | Emit3 _ => 1
  | Loop _ _ _ cur kids _ =>
    match cur with Some t0 => checks t0 | None => 0 end
    + list_sum (map checks kids)
  | _ => 0
  end.

(** One for an error, none for [nil]. *)
Definition isErr (e : option error) : nat :=
  match e with Some _ => 1 | None => 0 end.

(** The places of an activation that hold an error: results not yet
    collected and the [ferr] of the loops. *)
Fixpoint faults (t : thread) : nat :=
  match t with
  | Loop _ _ ferr cur kids _ =>
    isErr ferr + match cur with Some t0 => faults t0 | None => 0 end
    + list_sum (map faults kids)
  | Ret e => isErr e
  | _ => 0
  end.

(** The activations between the read of [n] by [n++] and the comparison
    that follows it. *)
Definition inEmit (t : thread) : nat := length (tmps t) + checks t.

(** The emits of a run do not overlap: at every moment at most one
    activation is between its read of [n] and its comparison. *)
Fixpoint exclusive (cfg : config) (w : world) (v : variant)
  (cs : list choice) (t : thread) (st : state) : bool :=
  (inEmit t <=? 1)
  && match cs with
     | [] => true
     | c :: cs' =>
       match step cfg w v c t st with
       | Some (t', st') => exclusive cfg w v cs' t' st'
       | None => true
       end
     end.

(** What a step does to the counter, the channel and the activations in
    an emit: nothing, the read of [n], the write, the comparison that
    overflows, or the comparison followed by the send.  [a], [c] and [f]
    are the values read, the writes not yet compared and the errors held
    before the step, [a'], [c'], [f'] after it. *)
Inductive moved (cfg : config) (st st' : state)
  : list Z -> nat -> nat -> list Z -> nat -> nat -> Prop :=
| MQuiet a a' c f f' :
    n st' = n st -> q st' = q st -> incs st' = incs st ->
    a' ≡ₚ a -> (0 < f -> 0 < f') ->
    moved cfg st st' a c f a' c f'
| MLoad a a' c f f' :
    n st' = n st -> q st' = q st -> incs st' = incs st ->
    a' ≡ₚ n st :: a -> (0 < f -> 0 < f') ->
    moved cfg st st' a c f a' c f'
| MStore tmp a a' c f f' :
    a ≡ₚ tmp :: a' ->
    n st' = wrap64 (tmp + 1) -> q st' = q st -> incs st' = S (incs st) ->
    (0 < f -> 0 < f') ->
    moved cfg st st' a c f a' (S c) f'
| MOver a a' c f f' :
    n st' = n st -> q st' = q st -> incs st' = incs st ->
    a' ≡ₚ a -> (maxcount cfg < n st)%Z -> 0 < f' ->
    moved cfg st st' a (S c) f a' c f'
| MSend p a a' c f f' :
    n st' = n st -> q st' = q st ++ [p] -> incs st' = incs st ->
    a' ≡ₚ a -> (n st <= maxcount cfg)%Z -> (0 < f -> 0 < f') ->
    moved cfg st st' a (S c) f a' c f'.

(** Under the maximum [k], with emits that do not overlap: [n] is the
    number of increments, the paths sent are as many as the increments
    compared so far, [k] at most, and an error is held once more than
    [k] increments have been compared. *)
Definition capInv (k : Z) (a : list Z) (c f : nat) (st : state) : Prop :=
  n st = Z.of_nat (incs st) /\
  Forall (fun z => z = n st) a /\
  c <= incs st /\
  Z.of_nat (length (q st)) = Z.min k (Z.of_nat (incs st - c)) /\
  ((k < Z.of_nat (incs st - c))%Z -> 0 < f).

(** The goroutine of the last entry runs first, then the others in the
    order of the listing, each emit in one piece. *)
Definition lastFirst : list choice :=
  [Here; Here; Here; Here; Here; Here]
  ++ inKid 4 [Here; Here; Here; Here] ++ inKid 0 [Here; Here; Here; Here]
  ++ inKid 1 [Here; Here; Here; Here] ++ inKid 2 [Here; Here; Here; Here]
  ++ inKid 3 [Here; Here; Here; Here]
  ++ inKid 0 [Here; Here; Here; Here; Here] ++ [Here].

(** Some schedule whose emits do not overlap takes the activation to
    the result [walk] computes. *)
Definition serialExclusiveOn (cfg : config) (w : world) (v : variant)
  (nd : node) : Prop :=
  forall path C st, exists cs,
    exclusive cfg w v cs (Call path nd C) st = true /\
    run cfg w v cs (Call path nd C) st
    = Some (Ret (fst (walk (walkFn cfg w v) path nd C st)),
            snd (walk (walkFn cfg w v) path nd C st)).

(** ** The listing under rule files *)

(** What the first statement of the closure adds to the context at an
    entry: the matcher of the rule file of a directory that is not a
    symbolic link, when [-g] is given and the file can be read. *)
Definition own (cfg : config) (w : world) (path : string) (fi : fileInfo)
  : list (option IgnoreMatcher) :=
  if careGitignore cfg && IsDir fi && negb (isSymlink fi) then
    match NewGitIgnore w (Join path gitignoreFile) with
    | Some matcher => [Some matcher]
    | None => []
    end
  else [].

(** The paths below an entry that pass the static pattern and the rule
    files: every entry is tested against the matchers [L] of the
    directories above it, followed by its own when it is a directory.
    In the order of the listings. *)
Fixpoint listing (cfg : config) (w : world) (L : list (option IgnoreMatcher))
  (path : string) (nd : node) : list string :=
  match nd with
  | Node info rderr files =>
    let L' := L ++ own cfg w path info in
    if ignorere cfg (Name info)
       || careGitignore cfg && Match L' path (IsDir info) then []
    else if negb (IsDir info) then [path]
    else if isSymlink info then []
    else match rderr with
         | Some _ => []
         | None =>
           flat_map (fun f => listing cfg w L' (Join path (Name (infoOf f))) f)
             files
         end
  end.

(** No entry of the tree adds a matcher. *)
Fixpoint unruled (cfg : config) (w : world) (path : string) (nd : node)
  : bool :=
  match nd with
  | Node info _ files =>
    match own cfg w path info with
    | [] => forallb (fun f => unruled cfg w (Join path (Name (infoOf f))) f)
              files
    | _ :: _ => false
    end
  end.

(** No entry that adds a matcher lies below another one that does. *)
Fixpoint unnested (cfg : config) (w : world) (path : string) (nd : node)
  : bool :=
  match nd with
  | Node info _ files =>
    match own cfg w path info with
    | [] => forallb (fun f => unnested cfg w (Join path (Name (infoOf f))) f)
              files
    | _ :: _ =>
      forallb (fun f => unruled cfg w (Join path (Name (infoOf f))) f) files
    end
  end.

(** The entries an activation has before it either add no matcher, or
    the slice they will extend is full, so that [append] has to take a
    new array. *)
Definition roomless (cfg : config) (w : world) (path : string) (C : slice)
  (files : list node) : bool :=
  (len C =? cap C)
  && forallb (fun f => unnested cfg w (Join path (Name (infoOf f))) f) files
  || forallb (fun f => unruled cfg w (Join path (Name (infoOf f))) f) files.

(** Every activation is such, and every goroutine started. *)
Fixpoint tame (cfg : config) (w : world) (t : thread) : bool :=
  match t with
  | Call path nd C =>
    (len C =? cap C) && unnested cfg w path nd || unruled cfg w path nd
  | Loop path C _ cur kids rest =>
    match cur with Some t0 => tame cfg w t0 | None => true end
    && forallb (tame cfg w) kids
    && roomless cfg w path C rest
  | _ => true
  end.

(** The paths an activation may still send, its contexts read in the
    heap [h]. *)
Fixpoint due (cfg : config) (w : world) (h : memory) (t : thread)
  : list string :=
  match t with
  | Call path nd C => listing cfg w (elems h C) path nd
  | Emit1 path => [path]
  | Emit2 path _ => [path]
  | Emit3 path => [path]
  | Loop path C _ cur kids rest =>
    match cur with Some t0 => due cfg w h t0 | None => [] end
    ++ flat_map (due cfg w h) kids
    ++ flat_map
         (fun f => listing cfg w (elems h C) (Join path (Name (infoOf f))) f)
         rest
  | Ret _ => []
  end.

(* ===================================================================== *)
(** * Part 6: properties *)
(* ===================================================================== *)

(** ** [ignoreMatchers.Match] *)

Section MatchFacts.

Implicit Types (im : list (option IgnoreMatcher)) (path : string) (isDir : bool).

Lemma Match_scan im path isDir :
  Match im path isDir = true <->
  exists i ig, im !! i = Some (Some ig) /\ ig path isDir = true /\
               forall j, j < i -> im !! j <> Some None.
Proof.
  induction im as [|o im IH]; simpl.
  - split; [discriminate | intros (i & ig & H & _); destruct i; discriminate].
  - destruct o as [ig|].
    + destruct (ig path isDir) eqn:E.
      * split; [intros _ | reflexivity].
        exists 0, ig. repeat split; [assumption | intros j Hj; lia].
      * rewrite IH. split.
        -- intros (i & ig' & Hi & Hm & Hb). exists (S i), ig'.
           repeat split; try assumption.
           intros [|j] Hj; simpl; [discriminate | apply Hb; lia].
        -- intros (i & ig' & Hi & Hm & Hb). destruct i as [|i]; simpl in Hi.
           ++ congruence.
           ++ exists i, ig'. repeat split; try assumption.
              intros j Hj. apply (Hb (S j)). lia.
    + split; [discriminate |].
      intros (i & ig & Hi & _ & Hb). destruct i as [|i]; [discriminate |].
      exfalso. apply (Hb 0); [lia | reflexivity].
Qed.

Lemma Match_nilFree im path isDir :
  nilFree im -> Match im path isDir = existsb (reports path isDir) im.
Proof.
  induction 1 as [|o im Ho _ IH]; simpl; [reflexivity |].
  destruct o as [ig|]; [| congruence].
  simpl. rewrite IH. destruct (ig path isDir); reflexivity.
Qed.

Lemma existsb_Permutation {A} (f : A -> bool) (l l' : list A) :
  Permutation l l' -> existsb f l = existsb f l'.
Proof.
  induction 1; simpl; try congruence.
  destruct (f x), (f y); reflexivity.
Qed.

Lemma nilFree_Permutation im im' :
  Permutation im im' -> nilFree im -> nilFree im'.
Proof. intros HP H. unfold nilFree. rewrite <- HP. exact H. Qed.

End MatchFacts.

(** The guard of [Match] against a [nil] entry: the scan stops there,
    so that on a slice with a [nil] entry, which is not a rule set, the
    answer depends on where the entry stands. *)
Lemma Match_order_with_nil :
  let always : IgnoreMatcher := fun _ _ => true in
  Permutation [None; Some always] [Some always; None] /\
  Match [None; Some always] "x.log" false = false /\
  Match [Some always; None] "x.log" false = true.
Proof. simpl. repeat split. apply perm_swap. Qed.

(** ** The closure, one entry at a time *)

Lemma wrap64_succ_neq (z : Z) : wrap64 (z + 1) <> z.
Proof.
  unfold wrap64. intros H.
  assert (H1 := Z.mod_pos_bound (z + 1 + 2 ^ 63) (2 ^ 64) ltac:(lia)).
  assert (H2 := Z.div_mod (z + 1 + 2 ^ 63) (2 ^ 64) ltac:(lia)).
  lia.
Qed.

Lemma wrap64_small (z : Z) :
  (- 2 ^ 63 <= z < 2 ^ 63)%Z -> wrap64 z = z.
Proof.
  intros H. unfold wrap64. rewrite Z.mod_small; lia.
Qed.

Lemma wrap64_le_max (z : Z) : (wrap64 z <= maxInt64)%Z.
Proof.
  unfold wrap64, maxInt64.
  assert (H1 := Z.mod_pos_bound (z + 2 ^ 63) (2 ^ 64) ltac:(lia)).
  change (Z.shiftr (Z.ones 64) 1) with (2 ^ 63 - 1)%Z. lia.
Qed.

Section ClosureFacts.

Variable cfg : config.
Variable w : world.

Lemma walkFn_context v path fi C st :
  let '(C', _, st') := walkFn cfg w v path fi C st in
  (C', mem st') = extend cfg w v path fi C (mem st).
Proof.
  unfold walkFn. destruct (extend cfg w v path fi C (mem st)) as [C' h].
  simpl. destruct (excluded cfg path fi C' h); [reflexivity |].
  destruct (negb (IsDir fi)); [| reflexivity].
  unfold checkSend, increment. simpl.
  destruct (maxcount cfg <? _)%Z; reflexivity.
Qed.

Lemma walkFn_excluded v path fi C st :
  let '(C', h) := extend cfg w v path fi C (mem st) in
  excluded cfg path fi C' h = true ->
  walkFn cfg w v path fi C st
  = (C', if IsDir fi then Some SkipDir else None, setMem h st).
Proof.
  unfold walkFn. destruct (extend cfg w v path fi C (mem st)) as [C' h].
  simpl. intros ->. reflexivity.
Qed.

Lemma walkFn_passed v path fi C st :
  let '(C', h) := extend cfg w v path fi C (mem st) in
  excluded cfg path fi C' h = false ->
  walkFn cfg w v path fi C st
  = if IsDir fi then (C', None, setMem h st)
    else let '(err, st') := checkSend cfg path (increment (setMem h st)) in
         (C', err, st').
Proof.
  unfold walkFn. destruct (extend cfg w v path fi C (mem st)) as [C' h].
  simpl. intros ->. destruct (IsDir fi); reflexivity.
Qed.

(** The exclusion test decides what becomes of the entry, and it is made
    on the context the closure returns. *)
Lemma walkFn_setAside_iff v path fi C st :
  let '(C', err, st') := walkFn cfg w v path fi C st in
  setAside fi err st st' <-> excluded cfg path fi C' (mem st') = true.
Proof.
  pose proof (walkFn_excluded v path fi C st) as He.
  pose proof (walkFn_passed v path fi C st) as Hp.
  destruct (extend cfg w v path fi C (mem st)) as [C' h].
  destruct (excluded cfg path fi C' h) eqn:E.
  - rewrite (He eq_refl). simpl. rewrite E. unfold setAside. simpl. tauto.
  - rewrite (Hp eq_refl). destruct (IsDir fi) eqn:D.
    + simpl. rewrite E. unfold setAside. rewrite D. simpl.
      split; [intros (_ & _ & ?); discriminate | discriminate].
    + unfold checkSend, increment. simpl.
      destruct (maxcount cfg <? _)%Z; simpl; rewrite E; unfold setAside; simpl;
        (split; [intros (Hn & _); exfalso; exact (wrap64_succ_neq _ Hn)
                | discriminate]).
Qed.

End ClosureFacts.

(** ** The exclusion test *)

(** C1, the scenario as the specification words it: the paths emitted
    from [sub] are exactly [sub/y.txt].  The rule file is an entry of
    [sub] like any other, no pattern excludes it, and it is emitted too. *)
Lemma scenario_emits_the_rule_file :
  exists st,
    filesAsync (flags true (-1)) logWorld Bounded "." logTree = Some (None, st) /\
    In "sub/.gitignore" (q st) /\
    ~ Permutation (q st) ["sub/y.txt"].
Proof.
  eexists. split; [vm_compute; reflexivity |]. split.
  - simpl. left. reflexivity.
  - simpl. intros HP. apply Permutation_length in HP. discriminate HP.
Qed.

(** The unbounded variant makes the same test on [newMatchers], which it
    leaves at [nil] for every entry that is not a directory: rule files
    never exclude a file there.  In the scenario [sub/x.log] is emitted. *)
Lemma unbounded_files_escape_rule_files :
  (forall cfg w path fi C st,
      IsDir fi = false ->
      fst (fst (walkFn cfg w Unbounded path fi C st)) = nilSlice) /\
  (exists st,
      filesAsync (flags true (-1)) logWorld Unbounded "." logTree
      = Some (None, st) /\
      q st = ["sub/.gitignore"; "sub/x.log"; "sub/y.txt"]).
Proof.
  split.
  - intros cfg w path fi C st D.
    pose proof (walkFn_context cfg w Unbounded path fi C st) as Hc.
    destruct (walkFn cfg w Unbounded path fi C st) as [[C' err] st'].
    unfold extend in Hc. rewrite D, andb_false_r in Hc. simpl in Hc.
    inversion Hc. reflexivity.
  - eexists. split; vm_compute; reflexivity.
Qed.

(** ** [walk] on one entry *)

Section WalkFacts.

Variable cfg : config.
Variable w : world.
Variable v : variant.

Lemma setMem_same st : setMem (mem st) st = st.
Proof. destruct st; reflexivity. Qed.

(** [walk] by the cases of its first step, in the shape of [enter]. *)
Lemma walk_cases path info rderr files C st C' h :
  extend cfg w v path info C (mem st) = (C', h) ->
  walk (walkFn cfg w v) path (Node info rderr files) C st =
  if excluded cfg path info C' h then (None, setMem h st)
  else if negb (IsDir info) then checkSend cfg path (increment (setMem h st))
  else if isSymlink info then (None, setMem h st)
  else match rderr with
       | Some e => (Some e, logRead path (setMem h st))
       | None => rangeFiles (walk (walkFn cfg w v)) path C' files None
                   (logRead path (setMem h st))
       end.
Proof.
  intros E. simpl. unfold walkFn. rewrite E. simpl.
  destruct (excluded cfg path info C' h).
  - destruct (IsDir info) eqn:D; simpl; [reflexivity |].
    rewrite orb_true_r. reflexivity.
  - destruct (IsDir info) eqn:D; simpl.
    + destruct (isSymlink info); reflexivity.
    + unfold checkSend. simpl.
      destruct (maxcount cfg <? _)%Z; simpl; [reflexivity |].
      rewrite orb_true_r. reflexivity.
Qed.

Lemma enter_cases path info rderr files C st C' h :
  extend cfg w v path info C (mem st) = (C', h) ->
  enter cfg w v path (Node info rderr files) C st =
  if excluded cfg path info C' h then (Ret None, setMem h st)
  else if negb (IsDir info) then (Emit1 path, setMem h st)
  else if isSymlink info then (Ret None, setMem h st)
  else match rderr with
       | Some e => (Ret (Some e), logRead path (setMem h st))
       | None => (Loop path C' None None [] files, logRead path (setMem h st))
       end.
Proof. intros E. unfold enter. rewrite E. reflexivity. Qed.

Lemma extend_not_read path info C h :
  careGitignore cfg && IsDir info && negb (isSymlink info) = false ->
  snd (extend cfg w v path info C h) = h.
Proof. intros E. unfold extend. rewrite E. destruct v; reflexivity. Qed.

End WalkFacts.

(** C5: an entry whose name matches the static pattern is not emitted;
    [walk] returns [nil] for it, whatever it is, without calling
    [ReadDir] and whatever lies below it, so nothing below it is visited
    or emitted.  On every schedule the activation ends with its first
    step. *)
Theorem static_match_prunes cfg w v path info rderr files C st :
  ignorere cfg (Name info) = true ->
  let '(err, st') := walk (walkFn cfg w v) path (Node info rderr files) C st in
  err = None /\ q st' = q st /\ n st' = n st /\ reads st' = reads st /\
  (forall rderr' files',
      walk (walkFn cfg w v) path (Node info rderr' files') C st = (err, st')) /\
  enter cfg w v path (Node info rderr files) C st = (Ret None, st').
Proof.
  intros Hs.
  destruct (extend cfg w v path info C (mem st)) as [C' h] eqn:E.
  assert (Hx : excluded cfg path info C' h = true)
    by (unfold excluded; rewrite Hs; reflexivity).
  rewrite (walk_cases _ _ _ _ _ _ _ _ _ _ _ E), Hx.
  repeat split.
  - intros rderr' files'. rewrite (walk_cases _ _ _ _ _ _ _ _ _ _ _ E), Hx.
    reflexivity.
  - rewrite (enter_cases _ _ _ _ _ _ _ _ _ _ _ E), Hx. reflexivity.
Qed.

Lemma static_match_prunes_witness :
  let '(err, st') :=
    walk (walkFn (flags false (-1)) (ruleFiles []) Bounded) ".git"
      (directory ".git" [regular "config"]) nilSlice (initial) in
  err = None /\ q st' = [] /\ reads st' = [].
Proof.
  pose proof (static_match_prunes (flags false (-1)) (ruleFiles []) Bounded
                ".git" {| Name := ".git"; Mode := ModeDir + 493 |} None
                [regular "config"] nilSlice initial eq_refl) as H.
  unfold directory.
  destruct (walk _ _ _ _ _) as [err st'].
  destruct H as (He & Hq & _ & Hr & _). auto.
Defined.

(** C6: for an entry that is a symbolic link [walk] returns without
    calling [ReadDir]: the log of listed paths is unchanged and the
    outcome does not depend on what listing the link would give.  On the
    machine the first step of the activation never opens a loop over
    entries.  The link is still subject to the exclusion by name. *)
Theorem symlink_never_listed cfg w v path info rderr files C st :
  isSymlink info = true ->
  reads (snd (walk (walkFn cfg w v) path (Node info rderr files) C st))
  = reads st /\
  (forall rderr' files',
      walk (walkFn cfg w v) path (Node info rderr' files') C st
      = walk (walkFn cfg w v) path (Node info rderr files) C st) /\
  (let '(t, st') := enter cfg w v path (Node info rderr files) C st in
   reads st' = reads st /\ (t = Ret None \/ t = Emit1 path)) /\
  (ignorere cfg (Name info) = true ->
   walk (walkFn cfg w v) path (Node info rderr files) C st
   = (None, setMem (snd (extend cfg w v path info C (mem st))) st)).
Proof.
  intros Hl.
  destruct (extend cfg w v path info C (mem st)) as [C' h] eqn:E.
  pose proof (walk_cases cfg w v path info) as Hw.
  rewrite (Hw _ _ _ _ _ _ E), (enter_cases _ _ _ _ _ _ _ _ _ _ _ E), Hl.
  split; [| split; [| split]].
  - destruct (excluded cfg path info C' h); [reflexivity |].
    destruct (negb (IsDir info)); [| reflexivity].
    unfold checkSend. simpl. destruct (maxcount cfg <? _)%Z; reflexivity.
  - intros rderr' files'. rewrite (Hw _ _ _ _ _ _ E), Hl. reflexivity.
  - destruct (excluded cfg path info C' h); [auto |].
    destruct (negb (IsDir info)); auto.
  - intros Hs. unfold excluded. rewrite Hs. reflexivity.
Qed.

(** A link to a directory that loops back to an ancestor, next to a
    plain file: nothing is listed through the link. *)
Lemma symlink_never_listed_witness :
  reads (snd (walk (walkFn (flags false (-1)) (ruleFiles []) Bounded) "loop"
                (symlink "loop" [regular "a.txt"; symlink "loop" []])
                nilSlice initial)) = [].
Proof.
  exact (proj1 (symlink_never_listed (flags false (-1)) (ruleFiles []) Bounded
                  "loop" {| Name := "loop"; Mode := ModeSymlink + 511 |} None
                  [regular "a.txt"; symlink "loop" []] nilSlice initial
                  eq_refl)).
Defined.



(** C10: a symbolic link takes the branch of the closure for entries that
    are not directories ([Lstat] does not report a link as a directory,
    whatever it points to): [walk] does for it what it does for a regular
    file of the same name.  When it is not excluded and the counter
    stays within [maxcount], [walk] returns [nil] and the path of the
    link is the one path added to [q]; the goroutine started for the
    link gets there in four steps. *)
Theorem symlink_emitted_like_file cfg w v path info rderr files C st reg :
  isSymlink info = true -> IsDir info = false ->
  Name reg = Name info -> IsDir reg = false ->
  walk (walkFn cfg w v) path (Node info rderr files) C st
  = walk (walkFn cfg w v) path (Node reg None []) C st /\
  (excluded cfg path info (fst (extend cfg w v path info C (mem st))) (mem st)
   = false ->
   (wrap64 (n st + 1) <= maxcount cfg)%Z ->
   walk (walkFn cfg w v) path (Node info rderr files) C st
   = (None, send path (increment st)) /\
   q (snd (walk (walkFn cfg w v) path (Node info rderr files) C st))
   = q st ++ [path] /\
   exists st',
     run cfg w v [Here; Here; Here; Here] (Call path (Node info rderr files) C)
       st = Some (Ret None, st') /\
     q st' = q st ++ [path]).
Proof.
  intros Hl Hd Hname Hreg.
  assert (E : forall fi, IsDir fi = false ->
            extend cfg w v path fi C (mem st)
            = (match v with Bounded => C | Unbounded => nilSlice end, mem st)).
  { intros fi D. unfold extend. rewrite D, andb_false_r. destruct v; reflexivity. }
  assert (W : forall fi rd fs,
             IsDir fi = false -> Name fi = Name info ->
             walk (walkFn cfg w v) path (Node fi rd fs) C st
             = if excluded cfg path info
                    (match v with Bounded => C | Unbounded => nilSlice end)
                    (mem st)
               then (None, st)
               else checkSend cfg path (increment st)).
  { intros fi rd fs D Hn.
    rewrite (walk_cases _ _ _ _ _ _ _ _ _ _ _ (E fi D)).
    unfold excluded. rewrite Hn, D, Hd, setMem_same. simpl.
    destruct (ignorere cfg (Name info) || _); [reflexivity |].
    destruct (checkSend cfg path (increment st)) as [[e|] s]; reflexivity. }
  split; [rewrite (W info rderr files Hd eq_refl), (W reg None [] Hreg Hname);
          reflexivity |].
  rewrite (E info Hd). simpl fst. intros Hx Hle.
  assert (Hc : checkSend cfg path (increment st)
               = (None, send path (increment st))).
  { unfold checkSend, increment. simpl.
    destruct (Z.ltb_spec (maxcount cfg) (wrap64 (n st + 1))); [lia | reflexivity]. }
  rewrite (W info rderr files Hd eq_refl), Hx, Hc.
  split; [reflexivity |]. split; [reflexivity |].
  exists (send path (increment st)). split; [| reflexivity].
  cbn [run step]. rewrite (enter_cases _ _ _ _ _ _ _ _ _ _ _ (E info Hd)).
  rewrite setMem_same, Hx, Hd. cbn [negb run step].
  fold (increment st). rewrite Hc. reflexivity.
Qed.

(** A link to a directory, met with the default flags: its path goes out
    on the channel although it is not a regular file. *)
Lemma symlink_emitted_like_file_witness :
  q (snd (walk (walkFn (flags false (-1)) (ruleFiles []) Bounded) "vendor"
            (symlink "vendor" [regular "lib.go"]) nilSlice initial))
  = q initial ++ ["vendor"].
Proof.
  refine (proj1 (proj2 (proj2 (symlink_emitted_like_file (flags false (-1))
                   (ruleFiles []) Bounded "vendor"
                   {| Name := "vendor"; Mode := ModeSymlink + 511 |} None
                   [regular "lib.go"] nilSlice initial
                   {| Name := "vendor"; Mode := 420 |}
                   eq_refl eq_refl eq_refl eq_refl) eq_refl _))).
  vm_compute. discriminate.
Defined.

(** ** The loop over the entries *)

Lemma node_ind' (P : node -> Prop) :
  (forall info rderr files, Forall P files -> P (Node info rderr files)) ->
  forall nd, P nd.
Proof.
  intros H. fix IH 1. intros [info rderr files]. apply H.
  induction files as [|f fs IHfs]; constructor; [apply IH | exact IHfs].
Qed.

Section RangeFacts.

Variable rec : string -> node -> slice -> state -> option error * state.
Variable path : string.
Variable ignores : slice.

Lemma rangeFiles_cons file files ferr st :
  rangeFiles rec path ignores (file :: files) ferr st
  = let '(err, st1) := rec (Join path (Name (infoOf file))) file ignores st in
    rangeFiles rec path ignores files (retain err ferr) st1.
Proof. reflexivity. Qed.




End RangeFacts.

(** A property of the shared variables that the closure and the listing
    of a directory preserve is preserved by the whole traversal. *)
Lemma walk_invariant (P : state -> Prop) (fn : walkFunc) :
  (forall path fi C st, P st -> P (snd (fn path fi C st))) ->
  (forall path st, P st -> P (logRead path st)) ->
  forall nd path C st, P st -> P (snd (walk fn path nd C st)).
Proof.
  intros Hfn Hlog. induction nd as [info rderr files IH] using node_ind'.
  intros path C st HP. simpl.
  specialize (Hfn path info C st HP).
  destruct (fn path info C st) as [[C' err] st1]. simpl in Hfn.
  destruct err as [e|].
  - destruct (IsDir info && isSkipDir e); exact Hfn.
  - destruct (isSymlink info || negb (IsDir info)); [exact Hfn |].
    destruct rderr as [e|]; [apply Hlog, Hfn |].
    assert (H1 : P (logRead path st1)) by apply Hlog, Hfn.
    generalize (logRead path st1) H1. generalize (@None error).
    clear -IH. induction IH as [|f fs Hf _ IHfs]; intros ferr st HP.
    + exact HP.
    + rewrite rangeFiles_cons.
      specialize (Hf (Join path (Name (infoOf f))) C' st HP).
      destruct (walk fn _ f C' st) as [err st2]. apply IHfs, Hf.
Qed.

(** ** Errors of the entries of one directory *)



(** ** The counter *)

(** The outcome of [bothReadFirst] with [-M 1]: [n++] ran twice and [n] is
    1, neither comparison saw a value above [maxcount], both paths went
    out and [walk] returned [nil]. *)
Lemma lost_update_run :
  run (flags false 1) (ruleFiles []) Bounded bothReadFirst
    (Call "." twoFiles nilSlice) initial
  = Some (Ret None,
          {| mem := []; n := 1; q := ["a"; "b"]; sem := 0; reads := ["."];
             incs := 2 |}).
Proof. vm_compute. reflexivity. Qed.

(** C9, the claim as the specification words it: the increments are
    synchronized, so that in every state a run can reach [n] is the
    number of increments made.  The schedule [bothReadFirst] refutes
    it. *)
Lemma increments_not_synchronized :
  ~ (forall cs t st,
        run (flags false 1) (ruleFiles []) Bounded cs
          (Call "." twoFiles nilSlice) initial = Some (t, st) ->
        n st = Z.of_nat (incs st)).
Proof.
  intros H. specialize (H _ _ _ lost_update_run). discriminate H.
Qed.

Lemma wrap64_succ_wrap (z : Z) : wrap64 (wrap64 z + 1) = wrap64 (z + 1).
Proof.
  unfold wrap64. f_equal.
  replace ((z + 2 ^ 63) mod 2 ^ 64 - 2 ^ 63 + 1 + 2 ^ 63)%Z
    with ((z + 2 ^ 63) mod 2 ^ 64 + 1)%Z by lia.
  replace (z + 1 + 2 ^ 63)%Z with ((z + 2 ^ 63) + 1)%Z by lia.
  rewrite Zplus_mod_idemp_l. reflexivity.
Qed.

Lemma walkFn_counted cfg w v path fi C st :
  counted st -> counted (snd (walkFn cfg w v path fi C st)).
Proof.
  unfold counted, walkFn. intros H.
  destruct (extend cfg w v path fi C (mem st)) as [C' h]. simpl.
  destruct (excluded cfg path fi C' h); [exact H |].
  destruct (negb (IsDir fi)); [| exact H].
  assert (E : wrap64 (n st + 1) = wrap64 (Z.of_nat (S (incs st)))).
  { rewrite H, wrap64_succ_wrap. f_equal. lia. }
  unfold checkSend, increment. simpl.
  destruct (maxcount cfg <? _)%Z; exact E.
Qed.

Lemma emit_in_one_piece cfg w v path st :
  run cfg w v [Here; Here; Here] (Emit1 path) st
  = Some (let '(e, st') := checkSend cfg path (increment st) in (Ret e, st')).
Proof.
  simpl. unfold increment.
  destruct (checkSend cfg path _) as [e st']. reflexivity.
Qed.

(** C9 (amended): nothing guards [n++]; it is a read of [n] followed by a
    write of the value read plus one, and the write uses that value
    whatever [n] has become in between.  The count is exact where emits
    do not overlap: a traversal on one goroutine keeps [n] equal to the
    number of increments made, and an emit whose read, write and
    comparison follow each other does what the closure does in one
    piece. *)
Theorem counter_exact_without_overlap :
  (forall cfg w v nd path C st,
      counted st -> counted (snd (walk (walkFn cfg w v) path nd C st))) /\
  (forall cfg w v path st,
      run cfg w v [Here; Here; Here] (Emit1 path) st
      = Some (let '(e, st') := checkSend cfg path (increment st) in
              (Ret e, st'))) /\
  (forall cfg w v path tmp st,
      step cfg w v Here (Emit2 path tmp) st
      = Some (Emit3 path, storeN (wrap64 (tmp + 1)) st)).
Proof.
  split; [| split].
  - intros cfg w v nd path C st.
    apply (walk_invariant counted (walkFn cfg w v)).
    + intros. apply walkFn_counted. assumption.
    + intros p s H. exact H.
  - intros. apply emit_in_one_piece.
  - reflexivity.
Qed.

(** ** The maximum, when emits do not overlap *)

Lemma retain_overflowed k n0 n1 n2 :
  (n0 <= n1 <= n2)%Z ->
  retain (overflowed k n1 n2) (overflowed k n0 n1) = overflowed k n0 n2.
Proof.
  intros H. unfold retain, overflowed.
  destruct (Z.ltb_spec (Z.of_nat k) n2), (Z.ltb_spec n1 n2),
    (Z.ltb_spec (Z.of_nat k) n1), (Z.ltb_spec n0 n1), (Z.ltb_spec n0 n2);
    simpl; try reflexivity; lia.
Qed.

Lemma maxInt64_eq : maxInt64 = (2 ^ 63 - 1)%Z.
Proof. reflexivity. Qed.

Section Bound.

Variable cfg : config.
Variable w : world.
Variable v : variant.
Variable k : nat.

Lemma agree_setMem h sK sI :
  agree k sK sI -> agree k (setMem h sK) (setMem h sI).
Proof. unfold agree. simpl. tauto. Qed.

Lemma agree_logRead p sK sI :
  agree k sK sI -> agree k (logRead p sK) (logRead p sI).
Proof. unfold agree. simpl. intuition congruence. Qed.

Lemma emit_agree path sK sI :
  agree k sK sI -> (n sI + 1 < 2 ^ 63)%Z ->
  exists sK' sI',
    checkSend (uncapped cfg) path (increment sI) = (None, sI') /\
    checkSend (capped cfg k) path (increment sK) = (overflowed k (n sI) (n sI'), sK') /\
    agree k sK' sI' /\ n sI' = (n sI + 1)%Z.
Proof.
  intros (Hm & Hn & Hs & Hr & Hi & Hq & Hl) Hb.
  assert (Hw : wrap64 (n sI + 1) = (n sI + 1)%Z) by (apply wrap64_small; lia).
  assert (Hmax : (maxInt64 <? n sI + 1)%Z = false)
    by (apply Z.ltb_ge; rewrite maxInt64_eq; lia).
  assert (Hmove : (n sI <? n sI + 1)%Z = true) by (apply Z.ltb_lt; lia).
  unfold checkSend, increment, overflowed. simpl. rewrite Hn, Hw, Hmax.
  destruct (Z.ltb_spec (Z.of_nat k) (n sI + 1)) as [Hk|Hk].
  - exists (storeN (n sI + 1) sK), (send path (storeN (n sI + 1) sI)).
    simpl. rewrite Hmove, (proj2 (Z.ltb_lt _ _) Hk). simpl.
    repeat (split; [reflexivity |]). split; [| reflexivity].
    unfold agree; simpl. repeat (split; [congruence |]). split.
    + rewrite take_app_le by lia. exact Hq.
    + rewrite length_app. simpl. lia.
  - exists (send path (storeN (n sI + 1) sK)),
      (send path (storeN (n sI + 1) sI)).
    simpl. rewrite Hmove, (proj2 (Z.ltb_ge _ _) Hk). simpl.
    repeat (split; [reflexivity |]). split; [| reflexivity].
    unfold agree; simpl. repeat (split; [congruence |]). split.
    + rewrite Hq, !take_ge; [reflexivity | rewrite length_app; simpl; lia | lia].
    + rewrite length_app. simpl. lia.
Qed.

Lemma range_agree path C files :
  Forall (agreesOn cfg w v k) files ->
  forall n0 sK sI,
    agree k sK sI -> (n0 <= n sI)%Z ->
    (n sI + Z.of_nat (list_sum (map size files)) < 2 ^ 63)%Z ->
    exists sK' sI',
      rangeFiles (walk (walkFn (uncapped cfg) w v)) path C files None sI = (None, sI') /\
      rangeFiles (walk (walkFn (capped cfg k) w v)) path C files
        (overflowed k n0 (n sI)) sK
      = (overflowed k n0 (n sI'), sK') /\
      agree k sK' sI' /\
      (n sI <= n sI' <= n sI + Z.of_nat (list_sum (map size files)))%Z.
Proof.
  induction 1 as [|f fs Hf _ IHfs]; intros n0 sK sI Ha H0 Hb.
  - exists sK, sI. simpl.
    split; [reflexivity |]. split; [reflexivity |]. split; [exact Ha | lia].
  - simpl in Hb. rewrite !rangeFiles_cons.
    destruct (Hf (Join path (Name (infoOf f))) C sK sI Ha ltac:(lia))
      as (sK1 & sI1 & H1 & H2 & H3 & H4).
    rewrite H1, H2. simpl retain at 1.
    rewrite (retain_overflowed k n0 (n sI) (n sI1)) by lia.
    destruct (IHfs n0 sK1 sI1 H3 ltac:(lia) ltac:(lia))
      as (sK2 & sI2 & H5 & H6 & H7 & H8).
    exists sK2, sI2. simpl.
    split; [exact H5 |]. split; [exact H6 |]. split; [exact H7 | lia].
Qed.

Lemma overflowed_same n0 : overflowed k n0 n0 = None.
Proof. unfold overflowed. rewrite Z.ltb_irrefl, andb_false_r. reflexivity. Qed.

Lemma walk_agree nd : healthy nd = true -> agreesOn cfg w v k nd.
Proof.
  induction nd as [info rderr files IH] using node_ind'.
  intros Hh path C sK sI Ha Hb.
  destruct (extend cfg w v path info C (mem sI)) as [C' h] eqn:E.
  assert (EK : extend (capped cfg k) w v path info C (mem sK) = (C', h)).
  { destruct Ha as (Hm & _). rewrite Hm. exact E. }
  assert (EI : extend (uncapped cfg) w v path info C (mem sI) = (C', h)) by exact E.
  rewrite (walk_cases _ _ _ _ _ _ _ _ _ _ _ EK),
          (walk_cases _ _ _ _ _ _ _ _ _ _ _ EI).
  change (excluded (capped cfg k) path info C' h) with (excluded cfg path info C' h).
  change (excluded (uncapped cfg) path info C' h) with (excluded cfg path info C' h).
  assert (Hstay : exists sK' sI',
             (@None error, setMem h sI) = (None, sI') /\
             (@None error, setMem h sK) = (overflowed k (n sI) (n sI'), sK') /\
             agree k sK' sI' /\
             (n sI <= n sI' <= n sI + Z.of_nat (size (Node info rderr files)))%Z).
  { exists (setMem h sK), (setMem h sI). simpl n. rewrite overflowed_same.
    split; [reflexivity |]. split; [reflexivity |].
    split; [apply agree_setMem, Ha | lia]. }
  destruct (excluded cfg path info C' h); [exact Hstay |].
  destruct (negb (IsDir info)).
  - destruct (emit_agree path (setMem h sK) (setMem h sI))
      as (sK' & sI' & H1 & H2 & H3 & H4).
    + apply agree_setMem, Ha.
    + simpl in *. lia.
    + exists sK', sI'. fold (capped cfg k) (uncapped cfg). rewrite H1, H2. simpl in *.
      split; [reflexivity |]. split; [reflexivity |]. split; [exact H3 | lia].
  - destruct (isSymlink info); [exact Hstay |].
    simpl in Hh. destruct rderr as [e|]; [discriminate Hh |].
    assert (Hall : Forall (agreesOn cfg w v k) files).
    { clear -IH Hh. induction IH as [|f fs Hf _ IHfs]; [constructor |].
      simpl in Hh. apply andb_prop in Hh as [Hf1 Hf2].
      constructor; [apply Hf, Hf1 | apply IHfs, Hf2]. }
    destruct (range_agree path C' files Hall (n sI)
                (logRead path (setMem h sK)) (logRead path (setMem h sI)))
      as (sK' & sI' & H1 & H2 & H3 & H4).
    + apply agree_logRead, agree_setMem, Ha.
    + simpl. lia.
    + simpl in *. lia.
    + simpl n in H2. rewrite overflowed_same in H2.
      exists sK', sI'. rewrite H1, H2. simpl in *.
      split; [reflexivity |]. split; [reflexivity |]. split; [exact H3 | lia].
Qed.

End Bound.

(** ** The traversal on one goroutine is a run of the machine *)

(** A change of the shared variables that the closure and the listing of
    a directory do not notice is not noticed by the traversal. *)
Lemma walk_commute (T : state -> state) (fn : walkFunc) :
  (forall path fi C st,
      fn path fi C (T st)
      = let '(C', e, st') := fn path fi C st in (C', e, T st')) ->
  (forall path st, logRead path (T st) = T (logRead path st)) ->
  forall nd path C st,
    walk fn path nd C (T st)
    = let '(e, st') := walk fn path nd C st in (e, T st').
Proof.
  intros Hfn Hlog. induction nd as [info rderr files IH] using node_ind'.
  intros path C st. simpl. rewrite Hfn.
  destruct (fn path info C st) as [[C' err] st1].
  destruct err as [e|].
  - destruct (IsDir info && isSkipDir e); reflexivity.
  - destruct (isSymlink info || negb (IsDir info)); [reflexivity |].
    rewrite Hlog. destruct rderr as [e|]; [reflexivity |].
    generalize (logRead path st1). generalize (@None error).
    clear -IH. induction IH as [|f fs Hf _ IHfs]; intros ferr st.
    + reflexivity.
    + rewrite !rangeFiles_cons, Hf.
      destruct (walk fn _ f C' st) as [err st2]. apply IHfs.
Qed.

Section Serial.

Variable cfg : config.
Variable w : world.
Variable v : variant.

Lemma run_app cs1 cs2 t st :
  run cfg w v (cs1 ++ cs2) t st
  = match run cfg w v cs1 t st with
    | Some (t', st') => run cfg w v cs2 t' st'
    | None => None
    end.
Proof.
  revert t st. induction cs1 as [|c cs IH]; intros t st; simpl.
  - reflexivity.
  - destruct (step cfg w v c t st) as [[t' st']|]; [apply IH | reflexivity].
Qed.

Lemma step_Ret c e st : step cfg w v c (Ret e) st = None.
Proof. destruct c; reflexivity. Qed.

Lemma run_inCur cs t st t' st' path ign ferr kids rest :
  run cfg w v cs t st = Some (t', st') ->
  run cfg w v (map InCur cs) (Loop path ign ferr (Some t) kids rest) st
  = Some (Loop path ign ferr (Some t') kids rest, st').
Proof.
  revert t st. induction cs as [|c cs IH]; intros t st H; simpl in *.
  - inversion H. reflexivity.
  - destruct (step cfg w v c t st) as [[t1 st1]|]; [| discriminate H].
    apply IH, H.
Qed.

Lemma run_inKid cs t st t' st' path ign ferr cur rest :
  run cfg w v cs t st = Some (t', st') ->
  run cfg w v (inKid 0 cs) (Loop path ign ferr cur [t] rest) st
  = Some (Loop path ign ferr cur [t'] rest, st').
Proof.
  revert t st. induction cs as [|c cs IH]; intros t st H; simpl in *.
  - inversion H. reflexivity.
  - destruct (step cfg w v c t st) as [[t1 st1]|] eqn:E; [| discriminate H].
    destruct t; try (apply IH, H).
    rewrite step_Ret in E. discriminate E.
Qed.

Lemma walkFn_setSem k path fi C st :
  walkFn cfg w v path fi C (setSem k st)
  = let '(C', e, st') := walkFn cfg w v path fi C st in (C', e, setSem k st').
Proof.
  unfold walkFn. simpl.
  destruct (extend cfg w v path fi C (mem st)) as [C' h]. simpl.
  destruct (excluded cfg path fi C' h); [reflexivity |].
  destruct (negb (IsDir fi)); [| reflexivity].
  unfold checkSend, increment. simpl.
  destruct (maxcount cfg <? _)%Z; reflexivity.
Qed.

Lemma walkFn_sem path fi C st :
  sem (snd (walkFn cfg w v path fi C st)) = sem st.
Proof.
  unfold walkFn.
  destruct (extend cfg w v path fi C (mem st)) as [C' h]. simpl.
  destruct (excluded cfg path fi C' h); [reflexivity |].
  destruct (negb (IsDir fi)); [| reflexivity].
  unfold checkSend, increment. simpl.
  destruct (maxcount cfg <? _)%Z; reflexivity.
Qed.

Lemma walk_sem nd path C st :
  sem (snd (walk (walkFn cfg w v) path nd C st)) = sem st.
Proof.
  apply (walk_invariant (fun s => sem s = sem st) (walkFn cfg w v)).
  - intros p fi C0 s H. rewrite walkFn_sem. exact H.
  - intros p s H. exact H.
  - reflexivity.
Qed.

Lemma setSem_same st : setSem (sem st) st = st.
Proof. destruct st; reflexivity. Qed.

End Serial.

(** A traversal started with a token taken and finished by giving it
    back leaves what the traversal leaves on its own. *)
Lemma walk_acquired cfg w v nd path C st st1 :
  acquire v st = Some st1 ->
  exists s1,
    walk (walkFn cfg w v) path nd C st1
    = (fst (walk (walkFn cfg w v) path nd C st), s1) /\
    release v s1 = snd (walk (walkFn cfg w v) path nd C st).
Proof.
  unfold acquire, release. destruct v.
  - destruct (sem st <? 16); [| discriminate]. intros H. inversion H.
    rewrite (walk_commute (setSem (S (sem st))) (walkFn cfg w Bounded)
               (walkFn_setSem cfg w Bounded _) (fun _ _ => eq_refl)).
    pose proof (walk_sem cfg w Bounded nd path C st) as Hs.
    destruct (walk (walkFn cfg w Bounded) path nd C st) as [e s].
    eexists. split; [reflexivity |]. simpl in *.
    rewrite <- Hs. destruct s; reflexivity.
  - intros H. inversion H. eexists. split; [| reflexivity].
    destruct (walk _ _ _ _ _); reflexivity.
Qed.

Section SerialRun.

Variable cfg : config.
Variable w : world.
Variable v : variant.

Lemma step_spawn path C ferr f fs st st1 :
  acquire v st = Some st1 ->
  step cfg w v Here (Loop path C ferr None [] (f :: fs)) st
  = Some (Loop path C ferr None [Call (Join path (Name (infoOf f))) f C] fs,
          st1).
Proof. intros E. simpl. rewrite E. reflexivity. Qed.

Lemma step_inline path C ferr f fs st :
  acquire v st = None ->
  step cfg w v Here (Loop path C ferr None [] (f :: fs)) st
  = Some (Loop path C ferr (Some (Call (Join path (Name (infoOf f))) f C))
            [] fs, st).
Proof. intros E. simpl. rewrite E. reflexivity. Qed.

Lemma run_cons c cs t st :
  run cfg w v (c :: cs) t st
  = match step cfg w v c t st with
    | Some (t', st') => run cfg w v cs t' st'
    | None => None
    end.
Proof. reflexivity. Qed.

Lemma loop_serial path C files :
  Forall (serialOn cfg w v) files ->
  forall ferr st, exists cs,
    run cfg w v cs (Loop path C ferr None [] files) st
    = Some (Ret (fst (rangeFiles (walk (walkFn cfg w v)) path C files ferr st)),
            snd (rangeFiles (walk (walkFn cfg w v)) path C files ferr st)).
Proof.
  induction 1 as [|f fs Hf _ IHfs]; intros ferr st.
  - exists [Here]. reflexivity.
  - rewrite rangeFiles_cons.
    destruct (acquire v st) as [st1|] eqn:Ea.
    + destruct (walk_acquired cfg w v f (Join path (Name (infoOf f))) C st st1 Ea)
        as (s1 & Hw & Hr).
      destruct (Hf (Join path (Name (infoOf f))) C st1) as [csf Hcsf].
      rewrite Hw in Hcsf. simpl in Hcsf.
      destruct (walk (walkFn cfg w v) (Join path (Name (infoOf f))) f C st)
        as [e s]. simpl in Hcsf, Hr.
      destruct (IHfs (retain e ferr) s) as [csr Hcsr].
      exists (Here :: inKid 0 csf ++ InKid 0 Here :: csr).
      rewrite run_cons, (step_spawn _ _ _ _ _ _ _ Ea), run_app.
      rewrite (run_inKid _ _ _ _ _ _ _ _ _ _ _ _ _ Hcsf).
      rewrite run_cons. simpl step. rewrite Hr. exact Hcsr.
    + destruct (Hf (Join path (Name (infoOf f))) C st) as [csf Hcsf].
      destruct (walk (walkFn cfg w v) (Join path (Name (infoOf f))) f C st)
        as [e s]. simpl in Hcsf.
      destruct (IHfs (retain e ferr) s) as [csr Hcsr].
      exists (Here :: map InCur csf ++ Here :: csr).
      rewrite run_cons, (step_inline _ _ _ _ _ _ Ea), run_app.
      rewrite (run_inCur _ _ _ _ _ _ _ _ _ _ _ _ _ Hcsf).
      rewrite run_cons. simpl step. exact Hcsr.
Qed.

Lemma step_Call path nd C st :
  step cfg w v Here (Call path nd C) st = Some (enter cfg w v path nd C st).
Proof. reflexivity. Qed.

Lemma serial_run nd : serialOn cfg w v nd.
Proof.
  induction nd as [info rderr files IH] using node_ind'.
  intros path C st.
  destruct (extend cfg w v path info C (mem st)) as [C' h] eqn:E.
  rewrite (walk_cases _ _ _ _ _ _ _ _ _ _ _ E).
  pose proof (enter_cases cfg w v path info rderr files C st C' h E) as He.
  destruct (excluded cfg path info C' h).
  { exists [Here]. rewrite run_cons, step_Call, He. reflexivity. }
  destruct (negb (IsDir info)).
  { exists (Here :: [Here; Here; Here]).
    rewrite run_cons, step_Call, He, emit_in_one_piece.
    destruct (checkSend cfg path _); reflexivity. }
  destruct (isSymlink info).
  { exists [Here]. rewrite run_cons, step_Call, He. reflexivity. }
  destruct rderr as [e|].
  { exists [Here]. rewrite run_cons, step_Call, He. reflexivity. }
  destruct (loop_serial path C' files IH None (logRead path (setMem h st)))
    as [cs Hcs].
  exists (Here :: cs). rewrite run_cons, step_Call, He. exact Hcs.
Qed.

End SerialRun.

(** ** The maximum number of files *)

(** C2, the claim as the specification words it: with the maximum at
    [k] and more than [k] files in the tree, [walk] returns [maxError]
    and at most [k] paths are sent.  With [k = 1], two files and the two
    emits overlapping as in [bothReadFirst], [walk] returns [nil] and
    both paths are sent.  And on one goroutine, when a directory met
    after the overflow cannot be listed, [walk] returns the error of the
    listing. *)
Lemma maximum_exceeded_when_emits_overlap :
  (exists cs st,
      maxcount (flags false 1) = 1%Z /\
      run (flags false 1) (ruleFiles []) Bounded cs
        (Call "." twoFiles nilSlice) initial = Some (Ret None, st) /\
      q st = ["a"; "b"]) /\
  fst (walk (walkFn (flags false 1) (ruleFiles []) Bounded) "."
         filesThenUnreadable nilSlice initial) = Some errZ.
Proof.
  split; [| vm_compute; reflexivity].
  eexists _, _. split; [reflexivity |].
  split; [exact lost_update_run | reflexivity].
Qed.

Lemma withMax_sentinel cfg maxfiles :
  (maxfiles <= 0)%Z ->
  withMax cfg (maxcountOf maxfiles) = withMax cfg maxInt64.
Proof.
  intros H. unfold maxcountOf.
  destruct (Z.ltb_spec 0 maxfiles); [lia | reflexivity].
Qed.

(** ** Extending the inherited matchers *)

Lemma growcap_ge old needed : needed <= growcap old needed.
Proof.
  unfold growcap.
  destruct (Nat.ltb_spec (2 * old) needed); [lia |].
  destruct (Nat.ltb_spec old 256); lia.
Qed.

Lemma sound_length h s : sound h s -> length (elems h s) = len s.
Proof.
  intros (H1 & H2 & _). unfold elems. rewrite length_take. lia.
Qed.

Lemma nilFree_snoc im m : nilFree im -> nilFree (im ++ [Some m]).
Proof.
  intros H. apply Forall_app. split; [exact H |].
  constructor; [discriminate | constructor].
Qed.

(** [append] adds the matcher at the end of what the slice denoted. *)
Lemma append_sound h s m :
  sound h s ->
  let '(s', h') := append s (Some m) h in
  elems h' s' = elems h s ++ [Some m] /\ sound h' s'.
Proof.
  intros Hs. pose proof (sound_length h s Hs) as Hlen.
  destruct Hs as (H1 & H2 & H3). unfold append.
  destruct (Nat.ltb_spec (len s) (cap s)) as [Hlt|Hge].
  - destruct (h !! arr s) as [a|] eqn:Ea; simpl in H2; [| lia].
    assert (E : elems (alter (fun a0 => <[len s:=Some m]> a0) (arr s) h)
                  {| arr := arr s; len := S (len s); cap := cap s |}
                = elems h s ++ [Some m]).
    { unfold elems. simpl. rewrite list_lookup_alter_eq, Ea. simpl.
      erewrite take_S_r by (apply list_lookup_insert_eq; lia).
      rewrite take_insert_ge by lia. reflexivity. }
    split; [exact E |]. unfold sound. rewrite E. simpl.
    rewrite list_lookup_alter_eq, Ea. simpl. rewrite length_insert.
    repeat split; [lia | lia | apply nilFree_snoc, H3].
  - pose proof (growcap_ge (cap s) (S (len s))) as Hg.
    assert (E : elems (h ++ [elems h s ++ Some m
                               :: replicate (growcap (cap s) (S (len s)) - S (len s)) None])
                  {| arr := length h; len := S (len s);
                     cap := growcap (cap s) (S (len s)) |}
                = elems h s ++ [Some m]).
    { unfold elems at 1. simpl. rewrite list_lookup_middle by reflexivity. simpl.
      change (elems h s ++ Some m :: ?r) with (elems h s ++ [Some m] ++ r).
      rewrite app_assoc, take_app_length'; [reflexivity |].
      rewrite length_app. simpl. lia. }
    split; [exact E |]. unfold sound. rewrite E. simpl.
    rewrite list_lookup_middle by reflexivity. simpl.
    rewrite length_app. simpl. rewrite length_replicate.
    repeat split; [lia | lia | apply nilFree_snoc, H3].
Qed.

Lemma elems_app_fresh h s x : sound h s -> elems (h ++ [x]) s = elems h s.
Proof.
  intros (H1 & H2 & _). unfold elems.
  destruct (h !! arr s) as [a|] eqn:Ea.
  - rewrite (lookup_app_l_Some _ _ _ _ Ea). reflexivity.
  - simpl in H2. assert (len s = 0) as -> by lia. rewrite !take_0. reflexivity.
Qed.

(** So do [make], [copy] and the assignment of the last element. *)
Lemma make_copy_sound h s m :
  sound h s ->
  let '(s1, h1) := make (len s + 1) h in
  let h2 := copy s1 s h1 in
  let h3 := setIndex s1 (len s) (Some m) h2 in
  elems h3 s1 = elems h s ++ [Some m] /\ sound h3 s1.
Proof.
  intros Hs. pose proof (sound_length h s Hs) as Hlen.
  unfold make, copy, setIndex. simpl.
  rewrite (elems_app_fresh h s _ Hs).
  replace (Nat.min (len s + 1) (len s)) with (len s) by lia.
  rewrite list_alter_alter_eq.
  assert (Ea : alter
                 ((fun a => <[len s:=Some m]> a)
                  ∘ (fun a => take (len s) (elems h s) ++ drop (len s) a))
                 (length h) (h ++ [replicate (len s + 1) None])
               !! length h
               = Some (elems h s ++ [Some m])).
  { rewrite list_lookup_alter_eq, list_lookup_middle by reflexivity. simpl.
    f_equal. rewrite take_ge by lia.
    rewrite drop_replicate. replace (len s + 1 - len s) with 1 by lia. simpl.
    rewrite <- Hlen at 1. rewrite <- (Nat.add_0_r (length (elems h s))).
    rewrite insert_app_r. reflexivity. }
  assert (E : elems (alter
                 ((fun a => <[len s:=Some m]> a)
                  ∘ (fun a => take (len s) (elems h s) ++ drop (len s) a))
                 (length h) (h ++ [replicate (len s + 1) None]))
                {| arr := length h; len := len s + 1; cap := len s + 1 |}
              = elems h s ++ [Some m]).
  { unfold elems at 1. simpl. rewrite Ea. simpl.
    apply take_ge. rewrite length_app. simpl. lia. }
  split; [exact E |]. unfold sound. rewrite E. simpl. rewrite Ea. simpl.
  rewrite length_app. simpl.
  repeat split; [lia | lia | apply nilFree_snoc, Hs].
Qed.

Lemma sound_nilSlice h : sound h nilSlice.
Proof.
  unfold sound, elems. simpl. rewrite take_0.
  repeat split; [lia | lia | constructor].
Qed.

(** Both variants hand on a sound slice: for a directory to be read, the
    inherited matchers followed by the matcher of its rule file, if
    there is one. *)
Lemma extend_sound cfg w v path fi C h :
  sound h C ->
  let '(C', h') := extend cfg w v path fi C h in
  sound h' C' /\
  (careGitignore cfg && IsDir fi && negb (isSymlink fi) = true ->
   elems h' C'
   = elems h C ++ match NewGitIgnore w (Join path gitignoreFile) with
                  | Some m => [Some m]
                  | None => []
                  end).
Proof.
  intros Hs. unfold extend.
  destruct (careGitignore cfg && IsDir fi && negb (isSymlink fi)).
  - destruct (NewGitIgnore w (Join path gitignoreFile)) as [m|].
    + destruct v.
      * pose proof (append_sound h C m Hs) as H.
        destruct (append C (Some m) h) as [C' h']. tauto.
      * pose proof (make_copy_sound h C m Hs) as H. unfold make in H.
        simpl in *. tauto.
    + rewrite app_nil_r. auto.
  - destruct v; (split; [| discriminate]); [exact Hs | apply sound_nilSlice].
Qed.

Lemma sound_app h s x : sound h s -> sound (h ++ [x]) s.
Proof.
  intros Hs. pose proof (elems_app_fresh h s x Hs) as E.
  destruct Hs as (H1 & H2 & H3). unfold sound. rewrite E.
  split; [exact H1 |]. split; [| exact H3].
  destruct (h !! arr s) as [a|] eqn:Ea.
  - rewrite (lookup_app_l_Some _ _ _ _ Ea). exact H2.
  - simpl in H2. lia.
Qed.

Lemma sound_overwrite h s a i m :
  sound h s -> sound (alter (fun x => <[i:=Some m]> x) a h) s.
Proof.
  intros (H1 & H2 & H3). unfold sound, elems in *.
  destruct (decide (a = arr s)) as [->|Hne].
  - rewrite list_lookup_alter_eq. destruct (h !! arr s) as [x|]; simpl in *.
    + rewrite length_insert. split; [exact H1 |]. split; [exact H2 |].
      destruct (decide (i < len s)).
      * rewrite take_insert_lt by assumption.
        apply Forall_insert; [exact H3 | discriminate].
      * rewrite take_insert_ge by lia. exact H3.
    + auto.
  - rewrite list_lookup_alter_ne by assumption. auto.
Qed.

(** An extension leaves every other slice sound: it never puts a [nil]
    into a cell. *)
Lemma extend_frame cfg w v path fi C h s :
  sound h C -> sound h s -> sound (snd (extend cfg w v path fi C h)) s.
Proof.
  intros HC Hs. unfold extend.
  destruct (careGitignore cfg && IsDir fi && negb (isSymlink fi));
    [| destruct v; exact Hs].
  destruct (NewGitIgnore w (Join path gitignoreFile)) as [m|]; [| exact Hs].
  destruct v.
  - unfold append. destruct (len C <? cap C); simpl.
    + apply sound_overwrite, Hs.
    + apply sound_app, Hs.
  - unfold make, copy, setIndex. simpl.
    assert (H1 := sound_app h s (replicate (len C + 1) None) Hs).
    destruct H1 as (H1 & H2 & H3). destruct Hs as (G1 & G2 & G3).
    unfold sound, elems in *.
    destruct (decide (arr s = length h)) as [E|E].
    + rewrite E in *. rewrite lookup_ge_None_2 in G2 by lia. simpl in G2.
      assert (len s = 0) as -> by lia. rewrite take_0.
      repeat split; [lia | lia | constructor].
    + rewrite !list_lookup_alter_ne by congruence. auto.
Qed.

(** ** [Match] on the slices of the walker *)

(** On every slice the traversal meets, [Match] is the disjunction of the
    matchers' answers: the closure behaves as the closure with that test
    in its place. *)
Section Disjunction.

Variable cfg : config.
Variable w : world.
Variable v : variant.

Lemma walkFn_disjunction path fi C st :
  sound (mem st) C ->
  walkFn cfg w v path fi C st = walkFnOr cfg w v path fi C st.
Proof.
  intros Hs. unfold walkFn, walkFnOr.
  pose proof (extend_sound cfg w v path fi C (mem st) Hs) as H.
  destruct (extend cfg w v path fi C (mem st)) as [C' h].
  destruct H as ((_ & _ & Hnf) & _). simpl.
  unfold excluded, excludedOr. rewrite (Match_nilFree _ _ _ Hnf). reflexivity.
Qed.

Lemma walkFn_sound path fi C st :
  sound (mem st) C ->
  let '(C', _, st') := walkFn cfg w v path fi C st in
  sound (mem st') C' /\ keepsSound st st'.
Proof.
  intros Hs. pose proof (walkFn_context cfg w v path fi C st) as Hc.
  pose proof (extend_sound cfg w v path fi C (mem st) Hs) as H1.
  pose proof (extend_frame cfg w v path fi C (mem st)) as H2.
  destruct (walkFn cfg w v path fi C st) as [[C' e] st'].
  rewrite <- Hc in H1, H2. simpl in *.
  split; [tauto |]. intros s. apply H2, Hs.
Qed.

Lemma walk_disjunction nd :
  forall path C st,
    sound (mem st) C ->
    walk (walkFn cfg w v) path nd C st = walk (walkFnOr cfg w v) path nd C st /\
    keepsSound st (snd (walk (walkFn cfg w v) path nd C st)).
Proof.
  induction nd as [info rderr files IH] using node_ind'.
  intros path C st Hs. simpl.
  rewrite <- (walkFn_disjunction path info C st Hs).
  pose proof (walkFn_sound path info C st Hs) as H.
  destruct (walkFn cfg w v path info C st) as [[C' e] st1].
  destruct H as [Hs1 Hk1].
  destruct e as [e|].
  - destruct (IsDir info && isSkipDir e); split; try reflexivity; exact Hk1.
  - destruct (isSymlink info || negb (IsDir info));
      [split; [reflexivity | exact Hk1] |].
    destruct rderr as [e|]; [split; [reflexivity | exact Hk1] |].
    assert (Hs2 : sound (mem (logRead path st1)) C') by exact Hs1.
    assert (Hk2 : keepsSound st (logRead path st1)) by exact Hk1.
    revert Hs2 Hk2. generalize (logRead path st1). generalize (@None error).
    clear -IH. induction IH as [|f fs Hf _ IHfs]; intros ferr st2 Hs2 Hk2.
    + split; [reflexivity | exact Hk2].
    + rewrite !rangeFiles_cons.
      destruct (Hf (Join path (Name (infoOf f))) C' st2 Hs2) as [He Hk].
      rewrite <- He.
      destruct (walk (walkFn cfg w v) _ f C' st2) as [err st3]. simpl in Hk.
      apply IHfs; [apply Hk, Hs2 |].
      intros s Hsnd. apply Hk, Hk2, Hsnd.
Qed.

End Disjunction.

(** On every schedule, the slices held by the activations stay sound. *)
Section MachineSound.

Variable cfg : config.
Variable w : world.
Variable v : variant.

Lemma keepsSound_same st st' : mem st' = mem st -> keepsSound st st'.
Proof. intros E s. rewrite E. auto. Qed.

Lemma enter_sound path nd ign st :
  sound (mem st) ign ->
  let '(t', st') := enter cfg w v path nd ign st in
  Forall (sound (mem st')) (slicesOf t') /\ keepsSound st st'.
Proof.
  intros Hs. destruct nd as [info rderr files].
  pose proof (extend_sound cfg w v path info ign (mem st) Hs) as H1.
  pose proof (extend_frame cfg w v path info ign (mem st)) as H2.
  destruct (extend cfg w v path info ign (mem st)) as [C' h] eqn:E.
  rewrite (enter_cases _ _ _ _ _ _ _ _ _ _ _ E).
  destruct H1 as [H1 _]. simpl in H2.
  assert (Hk : forall st', mem st' = h -> keepsSound st st').
  { intros st' <- s Hsnd. apply H2; assumption. }
  destruct (excluded cfg path info C' h); [split; [constructor | auto] |].
  destruct (negb (IsDir info)); [split; [constructor | auto] |].
  destruct (isSymlink info); [split; [constructor | auto] |].
  destruct rderr as [e|]; [split; [constructor | auto] |].
  split; [| auto]. simpl. constructor; [exact H1 | constructor].
Qed.

Lemma step_sound c :
  forall t st t' st',
    Forall (sound (mem st)) (slicesOf t) ->
    step cfg w v c t st = Some (t', st') ->
    Forall (sound (mem st')) (slicesOf t') /\ keepsSound st st'.
Proof.
  induction c as [|c IH|i c IH]; intros t st t' st' Hs H.
  - destruct t as [path nd ign|path|path tmp|path|path ign ferr cur kids rest|e];
      simpl in H.
    + inversion H as [E]. pose proof (enter_sound path nd ign st) as He.
      rewrite E in He. apply He. inversion Hs. assumption.
    + inversion H. subst. split; [constructor | apply keepsSound_same; reflexivity].
    + inversion H. subst. split; [constructor | apply keepsSound_same; reflexivity].
    + unfold checkSend in H. destruct (maxcount cfg <? n st)%Z; inversion H;
        subst; (split; [constructor | apply keepsSound_same; reflexivity]).
    + unfold iterate in H. simpl in Hs.
      apply Forall_cons in Hs as [Hi Hs]. apply Forall_app in Hs as [Hc Hk].
      destruct cur as [t0|].
      * destruct t0; try discriminate H. inversion H. subst.
        split; [| apply keepsSound_same; reflexivity].
        simpl. constructor; [exact Hi | exact Hk].
      * destruct rest as [|f rest].
        -- destruct kids; [| discriminate H]. inversion H. subst.
           split; [constructor | apply keepsSound_same; reflexivity].
        -- destruct (acquire v st) as [st1|] eqn:Ea.
           ++ assert (Em : mem st1 = mem st).
              { unfold acquire in Ea. destruct v.
                - destruct (sem st <? 16); inversion Ea. reflexivity.
                - inversion Ea. reflexivity. }
              inversion H. subst. split; [| apply keepsSound_same; exact Em].
              simpl. rewrite Em. constructor; [exact Hi |].
              rewrite flat_map_app. apply Forall_app. split; [exact Hk |].
              simpl. constructor; [exact Hi | constructor].
           ++ inversion H. subst. split; [| apply keepsSound_same; reflexivity].
              simpl. constructor; [exact Hi |]. constructor; [exact Hi | exact Hk].
    + discriminate H.
  - destruct t as [| | | |path ign ferr cur kids rest|]; try discriminate H.
    simpl in H. destruct cur as [t0|]; [| discriminate H].
    destruct (step cfg w v c t0 st) as [[t1 st1]|] eqn:E; [| discriminate H].
    inversion H. subst. simpl in Hs.
    apply Forall_cons in Hs as [Hi Hs]. apply Forall_app in Hs as [Hc Hk].
    destruct (IH _ _ _ _ Hc E) as [H1 H2]. split; [| exact H2].
    simpl. constructor; [apply H2, Hi |]. apply Forall_app. split; [exact H1 |].
    eapply Forall_impl; [exact Hk | exact H2].
  - destruct t as [| | | |path ign ferr cur kids rest|]; try discriminate H.
    simpl in H. simpl in Hs.
    apply Forall_cons in Hs as [Hi Hs]. apply Forall_app in Hs as [Hc Hk].
    rewrite List.Forall_flat_map in Hk.
    destruct (kids !! i) as [t0|] eqn:Ek; [| discriminate H].
    assert (Hdel : forall st2, mem st2 = mem st ->
              Forall (sound (mem st2))
                (slicesOf (Loop path ign (retain None ferr) cur (delete i kids) rest))).
    { intros st2 Em. simpl. rewrite Em. constructor; [exact Hi |].
      apply Forall_app. split; [exact Hc |].
      rewrite List.Forall_flat_map. apply Forall_delete, Hk. }
    assert (Hst : forall t1 st1,
              step cfg w v c t0 st = Some (t1, st1) ->
              Forall (sound (mem st1))
                (slicesOf (Loop path ign ferr cur (<[i:=t1]> kids) rest))
              /\ keepsSound st st1).
    { intros t1 st1 E.
      assert (H0 : Forall (sound (mem st)) (slicesOf t0)).
      { rewrite Forall_forall in Hk. apply Hk.
        apply list_elem_of_lookup. eauto. }
      destruct (IH _ _ _ _ H0 E) as [H1 H2]. split; [| exact H2].
      simpl. constructor; [apply H2, Hi |]. apply Forall_app. split.
      - eapply Forall_impl; [exact Hc | exact H2].
      - rewrite List.Forall_flat_map. apply Forall_insert; [| exact H1].
        eapply Forall_impl; [exact Hk |]. intros k Hk'.
        eapply Forall_impl; [exact Hk' | exact H2]. }
    assert (Hrel : mem (release v st) = mem st) by (destruct v; reflexivity).
    destruct t0;
      try (destruct (step cfg w v c _ st) as [[t1 st1]|] eqn:E;
           [| discriminate H]; inversion H; subst; apply Hst; reflexivity).
    inversion H. subst. split; [| apply keepsSound_same; exact Hrel].
    apply (Hdel _ Hrel).
Qed.

Lemma run_sound cs :
  forall t st t' st',
    Forall (sound (mem st)) (slicesOf t) ->
    run cfg w v cs t st = Some (t', st') ->
    Forall (sound (mem st')) (slicesOf t').
Proof.
  induction cs as [|c cs IH]; intros t st t' st' Hs H; simpl in H.
  - inversion H. subst. exact Hs.
  - destruct (step cfg w v c t st) as [[t1 st1]|] eqn:E; [| discriminate H].
    destruct (step_sound c _ _ _ _ Hs E) as [H1 _]. exact (IH _ _ _ _ H1 H).
Qed.

End MachineSound.

Lemma ignMatchers_sound cfg w base :
  let '(m, h) := ignMatchers cfg w base [] in sound h m.
Proof.
  unfold ignMatchers.
  destruct (careGitignore cfg); [| apply sound_nilSlice].
  destruct (negb (homeDir w =? "")%string); [| apply sound_nilSlice].
  destruct (negb (globalGitIgnoreName w =? "")%string); [| apply sound_nilSlice].
  destruct (NewGitIgnore w _) as [m|]; [| apply sound_nilSlice].
  pose proof (append_sound [] nilSlice m (sound_nilSlice [])) as H.
  destruct (append nilSlice (Some m) []) as [s h]. tauto.
Qed.

(** A slice without [nil] entries holds a rule set: a sequence of
    matchers. *)
Lemma nilFree_ruleSet im : nilFree im -> exists S, im = map Some S.
Proof.
  induction 1 as [|o im Ho _ (S & ->)]; [exists []; reflexivity |].
  destruct o as [ig|]; [| congruence]. exists (ig :: S). reflexivity.
Qed.

Lemma Match_ruleSet (S : list IgnoreMatcher) path isDir :
  Match (map Some S) path isDir = existsb (fun ig => ig path isDir) S.
Proof.
  induction S as [|ig S IH]; [reflexivity |].
  simpl. rewrite IH. destruct (ig path isDir); reflexivity.
Qed.

(** C7: a rule set is a sequence of matchers, held in a slice as its
    elements.  [Match] on a rule set is true exactly when one of its
    matchers reports a match; the order of the matchers does not affect
    the result; the empty set never matches.  Every slice of the walker
    holds a rule set: a sound slice does, the slices the activations
    hold are sound on every schedule from the start [filesAsync] makes,
    and the slice the closure tests is one, so that its test is the
    disjunction of the matchers' answers.  The guard of [Match] against
    a [nil] entry never fires there; what it does on other slices is the
    seventh part: the scan answers at the first entry that is [nil] or
    reports a match.  On one goroutine the traversal is the one of the
    closure that tests by disjunction. *)
Theorem Match_some_matcher_reports :
  (forall (S : list IgnoreMatcher) path isDir,
      Match (map Some S) path isDir = true <->
      exists ig, In ig S /\ ig path isDir = true) /\
  (forall (S S' : list IgnoreMatcher) path isDir,
      Permutation S S' ->
      Match (map Some S) path isDir = Match (map Some S') path isDir) /\
  (forall path isDir, Match [] path isDir = false) /\
  (forall h s, sound h s -> exists S, elems h s = map Some S) /\
  (forall cfg w v base root cs t' st',
      let '(m, h) := ignMatchers cfg w base [] in
      run cfg w v cs (Call base root m) (setMem h initial) = Some (t', st') ->
      Forall (fun s => exists S, elems (mem st') s = map Some S)
        (slicesOf t')) /\
  (forall cfg w v path fi C st,
      sound (mem st) C ->
      let '(C', h') := extend cfg w v path fi C (mem st) in
      exists S,
        elems h' C' = map Some S /\
        excluded cfg path fi C' h'
        = ignorere cfg (Name fi)
          || careGitignore cfg && existsb (fun ig => ig path (IsDir fi)) S) /\
  (forall (im : list (option IgnoreMatcher)) path isDir,
      Match im path isDir = true <->
      exists i ig, im !! i = Some (Some ig) /\ ig path isDir = true /\
                   forall j, j < i -> im !! j <> Some None) /\
  (forall cfg w v base root,
      let '(m, h) := ignMatchers cfg w base [] in
      walk (walkFn cfg w v) base root m (setMem h initial)
      = walk (walkFnOr cfg w v) base root m (setMem h initial)).
Proof.
  split; [| split; [| split; [reflexivity | split; [| split; [| split; [| split]]]]]].
  - intros S path isDir. rewrite Match_ruleSet, existsb_exists. tauto.
  - intros S S' path isDir HP. rewrite !Match_ruleSet.
    apply existsb_Permutation, HP.
  - intros h s (_ & _ & Hnf). apply nilFree_ruleSet, Hnf.
  - intros cfg w v base root cs t' st'.
    pose proof (ignMatchers_sound cfg w base) as Hs.
    destruct (ignMatchers cfg w base []) as [m h]. intros H.
    assert (Hf : Forall (sound (mem st')) (slicesOf t')).
    { apply (run_sound cfg w v cs (Call base root m) (setMem h initial));
        [| exact H].
      constructor; [exact Hs | constructor]. }
    eapply Forall_impl; [exact Hf |].
    intros s (_ & _ & Hnf). apply nilFree_ruleSet, Hnf.
  - intros cfg w v path fi C st Hs.
    pose proof (extend_sound cfg w v path fi C (mem st) Hs) as He.
    destruct (extend cfg w v path fi C (mem st)) as [C' h'].
    destruct He as [(_ & _ & Hnf) _].
    destruct (nilFree_ruleSet _ Hnf) as [S ES].
    exists S. split; [exact ES |].
    unfold excluded. rewrite ES, Match_ruleSet. reflexivity.
  - exact Match_scan.
  - intros cfg w v base root.
    pose proof (ignMatchers_sound cfg w base) as Hs.
    destruct (ignMatchers cfg w base []) as [m h].
    apply walk_disjunction. exact Hs.
Qed.

(** ** Sibling directories and the inherited slice *)

(** The unbounded variant builds the extended slice in an array of its
    own: every array that existed before is left as it was, so every
    slice handed out earlier still denotes the same matchers. *)
Lemma unbounded_extend_fresh cfg w path fi C h a :
  a < length h ->
  snd (extend cfg w Unbounded path fi C h) !! a = h !! a.
Proof.
  intros Ha. unfold extend.
  destruct (careGitignore cfg && IsDir fi && negb (isSymlink fi));
    [| reflexivity].
  destruct (NewGitIgnore w (Join path gitignoreFile)) as [m|]; [| reflexivity].
  unfold make, copy, setIndex. simpl.
  rewrite !list_lookup_alter_ne by lia. apply lookup_app_l, Ha.
Qed.

Lemma unbounded_extend_keeps_slices cfg w path fi C h s :
  arr s < length h ->
  elems (snd (extend cfg w Unbounded path fi C h)) s = elems h s.
Proof.
  intros Ha. unfold elems. rewrite unbounded_extend_fresh by exact Ha.
  reflexivity.
Qed.

Section UnboundedHeap.

Variable cfg : config.
Variable w : world.

Lemma appendOnly_refl h : appendOnly h h.
Proof. split; auto. Qed.

Lemma appendOnly_trans h1 h2 h3 :
  appendOnly h1 h2 -> appendOnly h2 h3 -> appendOnly h1 h3.
Proof.
  intros [L1 H1] [L2 H2]. split; [lia |].
  intros a Ha. rewrite H2 by lia. apply H1, Ha.
Qed.

Lemma unbounded_extend_appendOnly path fi C h :
  appendOnly h (snd (extend cfg w Unbounded path fi C h)).
Proof.
  split; [| intros a Ha; apply unbounded_extend_fresh, Ha].
  unfold extend.
  destruct (careGitignore cfg && IsDir fi && negb (isSymlink fi)); [| simpl; lia].
  destruct (NewGitIgnore w (Join path gitignoreFile)) as [m|]; [| simpl; lia].
  unfold make, copy, setIndex. simpl.
  rewrite !length_alter, length_app. simpl. lia.
Qed.

Lemma unbounded_enter_appendOnly path nd ign st :
  appendOnly (mem st) (mem (snd (enter cfg w Unbounded path nd ign st))).
Proof.
  destruct nd as [info rderr files].
  pose proof (unbounded_extend_appendOnly path info ign (mem st)) as H.
  destruct (extend cfg w Unbounded path info ign (mem st)) as [C' h] eqn:E.
  rewrite (enter_cases _ _ _ _ _ _ _ _ _ _ _ E). simpl in H.
  destruct (excluded cfg path info C' h); [exact H |].
  destruct (negb (IsDir info)); [exact H |].
  destruct (isSymlink info); [exact H |].
  destruct rderr; exact H.
Qed.

Lemma unbounded_step_appendOnly c :
  forall t st t' st',
    step cfg w Unbounded c t st = Some (t', st') ->
    appendOnly (mem st) (mem st').
Proof.
  induction c as [|c IH|i c IH]; intros t st t' st' H.
  - destruct t as [path nd ign|path|path tmp|path|path ign ferr cur kids rest|e];
      simpl in H.
    + inversion H as [E]. pose proof (unbounded_enter_appendOnly path nd ign st) as He.
      rewrite E in He. exact He.
    + inversion H. apply appendOnly_refl.
    + inversion H. apply appendOnly_refl.
    + unfold checkSend in H. destruct (maxcount cfg <? n st)%Z; inversion H;
        apply appendOnly_refl.
    + unfold iterate in H. destruct cur as [t0|].
      * destruct t0; try discriminate H. inversion H. apply appendOnly_refl.
      * destruct rest as [|f rest].
        -- destruct kids; [| discriminate H]. inversion H. apply appendOnly_refl.
        -- simpl in H. inversion H. apply appendOnly_refl.
    + discriminate H.
  - destruct t as [| | | |path ign ferr cur kids rest|]; try discriminate H.
    simpl in H. destruct cur as [t0|]; [| discriminate H].
    destruct (step cfg w Unbounded c t0 st) as [[t1 st1]|] eqn:E;
      [| discriminate H].
    inversion H. subst. exact (IH _ _ _ _ E).
  - destruct t as [| | | |path ign ferr cur kids rest|]; try discriminate H.
    simpl in H. destruct (kids !! i) as [t0|]; [| discriminate H].
    destruct t0;
      try (destruct (step cfg w Unbounded c _ st) as [[t1 st1]|] eqn:E;
           [| discriminate H]; inversion H; subst; exact (IH _ _ _ _ E)).
    inversion H. apply appendOnly_refl.
Qed.

(** In the unbounded variant, whatever the schedule, a slice denotes at
    the end of a run the matchers it denoted at its start: no traversal
    sees an extension made by another. *)
Lemma unbounded_run_keeps_slices cs :
  forall t st t' st' s,
    run cfg w Unbounded cs t st = Some (t', st') ->
    arr s < length (mem st) ->
    elems (mem st') s = elems (mem st) s.
Proof.
  assert (Hrun : forall cs t st t' st',
             run cfg w Unbounded cs t st = Some (t', st') ->
             appendOnly (mem st) (mem st')).
  { clear cs. induction cs as [|c cs IH]; intros t st t' st' H; simpl in H.
    - inversion H. apply appendOnly_refl.
    - destruct (step cfg w Unbounded c t st) as [[t1 st1]|] eqn:E;
        [| discriminate H].
      eapply appendOnly_trans;
        [exact (unbounded_step_appendOnly _ _ _ _ _ E) | exact (IH _ _ _ _ H)]. }
  intros t st t' st' s H Ha. destruct (Hrun _ _ _ _ _ H) as [_ Hl].
  unfold elems. rewrite Hl by exact Ha. reflexivity.
Qed.

End UnboundedHeap.

(** The bounded variant appends.  Where the inherited slice has room,
    two appends to it return the same slice header and write the same
    cell of the same array: the slice the first append returned now
    ends in the element of the second. *)
Lemma append_twice_aliases C mA mB h a :
  h !! arr C = Some a -> len C < cap C -> len C < length a ->
  let '(CA, h1) := append C mA h in
  let '(CB, h2) := append C mB h1 in
  CA = CB /\ elems h1 CA = elems h C ++ [mA] /\
  elems h2 CA = elems h C ++ [mB].
Proof.
  intros Hh Hcap Hlen. unfold append.
  destruct (Nat.ltb_spec (len C) (cap C)); [| lia].
  split; [reflexivity |]. unfold elems. simpl.
  rewrite list_alter_alter_eq, !list_lookup_alter_eq, Hh. simpl.
  rewrite list_insert_insert_eq.
  split; (erewrite take_S_r; [| apply list_lookup_insert_eq, Hlen]);
    rewrite take_insert_ge by lia; reflexivity.
Qed.

(** C3: two sibling traversals that received the same context never
    observe each other's extensions to it.  The bounded variant breaks
    this.  With [-g] on [nestedTree], the
    slice the directory [p/q] hands to [a] and to [b] has length 3 and
    capacity 4; both closures append in place, the matcher of [b] lands
    on the matcher of [a], and the entries of [a] are tested against the
    rule file of [b]: [p/q/a/x.log] is emitted and [p/q/a/y.txt] is not.
    On one goroutine it is the other way round. *)
Lemma sibling_extension_observed :
  (exists st,
      run (flags true (-1)) nestedWorld Bounded bBeforeEntriesOfA
        (Call "." nestedTree nilSlice) initial = Some (Ret None, st) /\
      q st = [".gitignore"; "p/.gitignore"; "p/q/.gitignore";
              "p/q/a/.gitignore"; "p/q/a/x.log"; "p/q/b/.gitignore"]) /\
  (exists st,
      walk (walkFn (flags true (-1)) nestedWorld Bounded) "." nestedTree
        nilSlice initial = (None, st) /\
      q st = [".gitignore"; "p/.gitignore"; "p/q/.gitignore";
              "p/q/a/.gitignore"; "p/q/a/y.txt"; "p/q/b/.gitignore"]).
Proof.
  split; eexists; (split; [vm_compute; reflexivity |]); vm_compute; reflexivity.
Qed.

(* ===================================================================== *)
(** * Part 7: the machine on every schedule *)
(* ===================================================================== *)

Lemma thread_ind' (P : thread -> Prop) :
  (forall path nd ign, P (Call path nd ign)) ->
  (forall path, P (Emit1 path)) ->
  (forall path tmp, P (Emit2 path tmp)) ->
  (forall path, P (Emit3 path)) ->
  (forall path ign ferr cur kids rest,
      match cur with Some t0 => P t0 | None => True end -> Forall P kids ->
      P (Loop path ign ferr cur kids rest)) ->
  (forall e, P (Ret e)) ->
  forall t, P t.
Proof.
  intros HC H1 H2 H3 HL HR. fix IH 1.
  intros [path nd ign|path|path tmp|path|path ign ferr cur kids rest|e];
    [apply HC | apply H1 | apply H2 | apply H3 | | apply HR].
  apply HL.
  - destruct cur as [t0|]; [apply IH | exact I].
  - induction kids as [|k ks IHks]; constructor; [apply IH | exact IHks].
Qed.

Lemma list_sum_insert (f : thread -> nat) kids i k k' :
  kids !! i = Some k ->
  list_sum (map f (<[i:=k']> kids)) + f k = list_sum (map f kids) + f k'.
Proof.
  revert i. induction kids as [|x xs IH]; intros [|i] H; simpl in *; try discriminate.
  - inversion H. subst. lia.
  - specialize (IH i H). lia.
Qed.

Lemma list_sum_delete (f : thread -> nat) kids i k :
  kids !! i = Some k ->
  list_sum (map f (delete i kids)) + f k = list_sum (map f kids).
Proof.
  revert i. induction kids as [|x xs IH]; intros [|i] H; simpl in *; try discriminate.
  - inversion H. subst. lia.
  - specialize (IH i H). lia.
Qed.

Lemma ret_dec (t : thread) : (exists e, t = Ret e) \/ (forall e, t <> Ret e).
Proof. destruct t; try (right; intros e0 H; discriminate H). left. eauto. Qed.

Section StepCases.

Variable cfg : config.
Variable w : world.
Variable v : variant.

Lemma step_Here_cases t st t' st' :
  step cfg w v Here t st = Some (t', st') -> hereStep cfg w v t st t' st'.
Proof.
  intros H.
  destruct t as [path nd ign|path|path tmp|path|path ign ferr cur kids rest|e];
    simpl in H.
  - inversion H as [E]. pose proof (HereCall cfg w v path nd ign st) as X.
    rewrite E in X. exact X.
  - inversion H. constructor.
  - inversion H. constructor.
  - pose proof (HereSend cfg w v path st) as X.
    destruct (checkSend cfg path st). inversion H. subst. exact X.
  - unfold iterate in H. destruct cur as [t0|].
    + destruct t0; try discriminate H. inversion H. constructor.
    + destruct rest as [|f rest].
      * destruct kids; [| discriminate H]. inversion H. constructor.
      * destruct (acquire v st) as [st1|] eqn:Ea; inversion H; subst;
          constructor; assumption.
  - discriminate H.
Qed.

Lemma step_InCur_cases c t st t' st' :
  step cfg w v (InCur c) t st = Some (t', st') ->
  exists path ign ferr t0 kids rest t1,
    t = Loop path ign ferr (Some t0) kids rest /\
    step cfg w v c t0 st = Some (t1, st') /\
    t' = Loop path ign ferr (Some t1) kids rest.
Proof.
  intros H.
  destruct t as [| | | |path ign ferr cur kids rest|]; try discriminate H.
  simpl in H. destruct cur as [t0|]; [| discriminate H].
  destruct (step cfg w v c t0 st) as [[t1 st1]|] eqn:E; [| discriminate H].
  inversion H. subst. repeat eexists. exact E.
Qed.

Lemma step_InKid_cases i c t st t' st' :
  step cfg w v (InKid i c) t st = Some (t', st') ->
  exists path ign ferr cur kids rest,
    t = Loop path ign ferr cur kids rest /\
    ((exists e, kids !! i = Some (Ret e) /\
                t' = Loop path ign (retain e ferr) cur (delete i kids) rest /\
                st' = release v st) \/
     (exists t0 t1, kids !! i = Some t0 /\
                    step cfg w v c t0 st = Some (t1, st') /\
                    t' = Loop path ign ferr cur (<[i:=t1]> kids) rest)).
Proof.
  intros H.
  destruct t as [| | | |path ign ferr cur kids rest|]; try discriminate H.
  exists path, ign, ferr, cur, kids, rest. split; [reflexivity |].
  simpl in H. destruct (kids !! i) as [t0|] eqn:Ek; [| discriminate H].
  destruct (ret_dec t0) as [[e ->]|Hne].
  - left. exists e. inversion H. subst. repeat split; reflexivity.
  - right.
    assert (H' : match step cfg w v c t0 st with
                 | Some (t1, st1) =>
                   Some (Loop path ign ferr cur (<[i:=t1]> kids) rest, st1)
                 | None => None
                 end = Some (t', st')).
    { destruct t0; try exact H. exfalso. eapply Hne. reflexivity. }
    destruct (step cfg w v c t0 st) as [[t1 st1]|] eqn:E; [| discriminate H'].
    inversion H'. subst. exists t0, t1. repeat split; [exact E].
Qed.

End StepCases.

Section Liveness.

Variable cfg : config.
Variable w : world.
Variable v : variant.

Lemma fuel_enter path nd ign st :
  fuel (fst (enter cfg w v path nd ign st)) < weight nd.
Proof.
  destruct nd as [info rderr files].
  destruct (extend cfg w v path info ign (mem st)) as [C' h] eqn:E.
  rewrite (enter_cases _ _ _ _ _ _ _ _ _ _ _ E).
  destruct (excluded cfg path info C' h); [simpl; lia |].
  destruct (negb (IsDir info)); [simpl; lia |].
  destruct (isSymlink info); [simpl; lia |].
  destruct rderr; simpl; lia.
Qed.

Lemma step_fuel c :
  forall t st t' st',
    step cfg w v c t st = Some (t', st') -> fuel t' < fuel t.
Proof.
  induction c as [|c IH|i c IH]; intros t st t' st' H.
  - apply step_Here_cases in H. destruct H; simpl;
      rewrite ?map_app, ?list_sum_app; simpl; try lia.
    apply fuel_enter.
  - apply step_InCur_cases in H
      as (path & ign & ferr & t0 & kids & rest & t1 & -> & E & ->).
    specialize (IH _ _ _ _ E). simpl. lia.
  - apply step_InKid_cases in H
      as (path & ign & ferr & cur & kids & rest & -> &
          [(e & Ek & -> & ->) | (t0 & t1 & Ek & E & ->)]).
    + pose proof (list_sum_delete fuel kids i _ Ek) as Hd. simpl in *. lia.
    + specialize (IH _ _ _ _ E).
      pose proof (list_sum_insert fuel kids i t0 t1 Ek). simpl. lia.
Qed.

Lemma run_fuel cs :
  forall t st t' st',
    run cfg w v cs t st = Some (t', st') -> length cs + fuel t' <= fuel t.
Proof.
  induction cs as [|c cs IH]; intros t st t' st' H; simpl in H.
  - inversion H. simpl. lia.
  - destruct (step cfg w v c t st) as [[t1 st1]|] eqn:E; [| discriminate H].
    pose proof (step_fuel _ _ _ _ _ E). specialize (IH _ _ _ _ H). simpl. lia.
Qed.

Lemma progress t :
  forall st, (forall e, t <> Ret e) -> exists c, is_Some (step cfg w v c t st).
Proof.
  induction t as [path nd ign|path|path tmp|path|path ign ferr cur kids rest IHc IHk|e]
    using thread_ind'; intros st Hn.
  - exists Here. simpl. eauto.
  - exists Here. simpl. eauto.
  - exists Here. simpl. eauto.
  - exists Here. simpl. destruct (checkSend cfg path st). eauto.
  - destruct cur as [t0|].
    + destruct (ret_dec t0) as [[e ->]|Hne].
      * exists Here. simpl. eauto.
      * destruct (IHc st Hne) as [c [[t1 st1] Hc]].
        exists (InCur c). simpl. rewrite Hc. eauto.
    + destruct rest as [|f rest].
      * destruct kids as [|k ks].
        -- exists Here. simpl. eauto.
        -- destruct (ret_dec k) as [[e ->]|Hne].
           ++ exists (InKid 0 Here). simpl. eauto.
           ++ inversion IHk as [|? ? Hk _]. subst.
              destruct (Hk st Hne) as [c [[t1 st1] Hc]].
              exists (InKid 0 c). simpl. destruct k; try (rewrite Hc; eauto).
              exfalso. eapply Hne. reflexivity.
      * exists Here. simpl. destruct (acquire v st); eauto.
  - exfalso. eapply Hn. reflexivity.
Qed.

End Liveness.

Section Completion.

Variable cfg : config.
Variable w : world.
Variable v : variant.

Lemma finish k :
  forall t st, fuel t <= k ->
    exists cs e st', run cfg w v cs t st = Some (Ret e, st').
Proof.
  induction k as [|k IH]; intros t st Hk.
  - destruct t; simpl in Hk; try lia. destruct nd. simpl in Hk. lia.
  - destruct (ret_dec t) as [[e ->]|Hne].
    + exists [], e, st. reflexivity.
    + destruct (progress cfg w v t st Hne) as [c [[t1 st1] Hc]].
      pose proof (step_fuel cfg w v c _ _ _ _ Hc) as Hf.
      assert (H1 : fuel t1 <= k) by lia.
      destruct (IH t1 st1 H1) as (cs & e & st' & Hr).
      exists (c :: cs), e, st'. simpl. rewrite Hc. exact Hr.
Qed.

Lemma started_le_sem_step c :
  forall t st t' st',
    started t <= sem st ->
    step cfg w Bounded c t st = Some (t', st') ->
    sem st' + started t = sem st + started t' /\ started t' <= sem st'.
Proof.
  induction c as [|c IH|i c IH]; intros t st t' st' Hs H.
  - apply step_Here_cases in H. destruct H; simpl in *;
      rewrite ?length_app, ?map_app, ?list_sum_app; simpl; try lia.
    + destruct nd as [info rderr files].
      destruct (extend cfg w Bounded path info ign (mem st)) as [C' h] eqn:E.
      rewrite (enter_cases _ _ _ _ _ _ _ _ _ _ _ E).
      destruct (excluded cfg path info C' h); [simpl; lia |].
      destruct (negb (IsDir info)); [simpl; lia |].
      destruct (isSymlink info); [simpl; lia |].
      destruct rderr; simpl; lia.
    + unfold checkSend. destruct (maxcount cfg <? n st)%Z; simpl; lia.
    + destruct (sem st <? 16); inversion H. subst. simpl. lia.
  - apply step_InCur_cases in H
      as (path & ign & ferr & t0 & kids & rest & t1 & -> & E & ->).
    simpl in *. assert (H0 : started t0 <= sem st) by lia.
    destruct (IH _ _ _ _ H0 E). lia.
  - apply step_InKid_cases in H
      as (path & ign & ferr & cur & kids & rest & -> &
          [(e & Ek & -> & ->) | (t0 & t1 & Ek & E & ->)]).
    + pose proof (list_sum_delete started kids i _ Ek) as Hd.
      pose proof (length_delete kids i ltac:(eauto)) as Hl.
      assert (0 < length kids) by (apply lookup_lt_Some in Ek; lia).
      simpl in *. destruct cur; destruct (sem st); simpl in *; lia.
    + pose proof (list_sum_insert started kids i t0 t1 Ek) as Hi.
      pose proof (list_sum_delete started kids i t0 Ek) as Hd.
      assert (H : started t0 <= sem st) by (simpl in Hs; destruct cur; lia).
      destruct (IH _ _ _ _ H E).
      simpl in *. rewrite length_insert. destruct cur; lia.
Qed.

Lemma sem_le_16_step c :
  forall t st t' st',
    sem st <= 16 ->
    step cfg w Bounded c t st = Some (t', st') -> sem st' <= 16.
Proof.
  induction c as [|c IH|i c IH]; intros t st t' st' Hs H.
  - apply step_Here_cases in H. destruct H; simpl in *; try lia.
    + destruct nd as [info rderr files].
      destruct (extend cfg w Bounded path info ign (mem st)) as [C' h] eqn:E.
      rewrite (enter_cases _ _ _ _ _ _ _ _ _ _ _ E).
      destruct (excluded cfg path info C' h); [simpl; lia |].
      destruct (negb (IsDir info)); [simpl; lia |].
      destruct (isSymlink info); [simpl; lia |].
      destruct rderr; simpl; lia.
    + unfold checkSend. destruct (maxcount cfg <? n st)%Z; simpl; lia.
    + destruct (Nat.ltb_spec (sem st) 16); inversion H. subst. simpl. lia.
  - apply step_InCur_cases in H
      as (path & ign & ferr & t0 & kids & rest & t1 & -> & E & ->).
    exact (IH _ _ _ _ Hs E).
  - apply step_InKid_cases in H
      as (path & ign & ferr & cur & kids & rest & -> &
          [(e & Ek & -> & ->) | (t0 & t1 & Ek & E & ->)]).
    + simpl. destruct (sem st); simpl; lia.
    + exact (IH _ _ _ _ Hs E).
Qed.

End Completion.

Lemma flat_map_delete {A B} (f : A -> list B) l i k :
  l !! i = Some k -> flat_map f l ≡ₚ f k ++ flat_map f (delete i l).
Proof.
  revert i. induction l as [|x xs IH]; intros [|i] H; simpl in *; try discriminate.
  - inversion H. reflexivity.
  - rewrite (IH i H). solve_Permutation.
Qed.

Lemma flat_map_insert {A B} (f : A -> list B) l i k k' :
  l !! i = Some k -> flat_map f (<[i:=k']> l) ≡ₚ f k' ++ flat_map f (delete i l).
Proof.
  revert i. induction l as [|x xs IH]; intros [|i] H; simpl in *; try discriminate.
  - reflexivity.
  - rewrite (IH i H). solve_Permutation.
Qed.

Section Owed.

Variable cfg : config.
Variable w : world.
Variable v : variant.

Lemma enter_owed path nd C st :
  let '(t', st') := enter cfg w v path nd C st in
  q st' = q st /\ n st' = n st /\
  exists dropped,
    expected (ignorere cfg) path nd = owed (ignorere cfg) t' ++ dropped /\
    (careGitignore cfg = false -> dropped = []).
Proof.
  destruct nd as [info rderr files].
  destruct (extend cfg w v path info C (mem st)) as [C' h] eqn:E.
  rewrite (enter_cases _ _ _ _ _ _ _ _ _ _ _ E).
  unfold excluded. simpl expected.
  destruct ((ignorere cfg) (Name info)) eqn:Es; simpl.
  { repeat split. exists []. auto. }
  destruct (careGitignore cfg && Match (elems h C') path (IsDir info)) eqn:Eg.
  { simpl. repeat split. eexists. split; [reflexivity |].
    intros Hg. rewrite Hg in Eg. discriminate Eg. }
  destruct (negb (IsDir info)).
  { simpl. repeat split. exists []. auto. }
  destruct (isSymlink info).
  { simpl. repeat split. exists []. auto. }
  destruct rderr; simpl; repeat split; exists []; rewrite ?app_nil_r; auto.
Qed.

Lemma step_owed c :
  forall t st t' st',
    step cfg w v c t st = Some (t', st') ->
    exists dropped,
      q st ++ owed (ignorere cfg) t ≡ₚ q st' ++ owed (ignorere cfg) t' ++ dropped /\
      (careGitignore cfg = false -> (n st <= maxcount cfg)%Z -> dropped = []).
Proof.
  induction c as [|c IH|i c IH]; intros t st t' st' H.
  - apply step_Here_cases in H.
    destruct H as [path nd C st|path st|path tmp st|path st
                  |path C ferr e kids rest st|path C ferr kids f rest st st1 H
                  |path C ferr kids f rest st H|path C ferr st].
    + pose proof (enter_owed path nd C st) as He.
      destruct (enter cfg w v path nd C st) as [t1 st1].
      destruct He as (Hq & Hn & d & Hd & Hg). simpl.
      exists d. split; [| auto]. rewrite Hq, Hd. reflexivity.
    + exists []. split; [| auto]. simpl. reflexivity.
    + exists []. split; [| auto]. simpl. reflexivity.
    + unfold checkSend. destruct (Z.ltb_spec (maxcount cfg) (n st)); simpl.
      * exists [path]. split; [reflexivity |]. intros _ Hn. lia.
      * exists []. split; [| auto]. rewrite !app_nil_r. reflexivity.
    + exists []. split; [| auto]. simpl. rewrite app_nil_r. reflexivity.
    + assert (Eq : q st1 = q st).
      { unfold acquire in H. destruct v; [destruct (sem st <? 16) |];
          inversion H; auto. }
      exists []. split; [| auto]. simpl. rewrite Eq, flat_map_app. simpl.
      rewrite !app_nil_r. rewrite <- !app_assoc. reflexivity.
    + exists []. split; [| auto]. simpl. rewrite app_nil_r. solve_Permutation.
    + exists []. split; [| auto]. simpl. reflexivity.
  - apply step_InCur_cases in H
      as (path & C & ferr & t0 & kids & rest & t1 & -> & E & ->).
    destruct (IH _ _ _ _ E) as (d & Hp & Hd).
    exists d. split; [| exact Hd]. simpl.
    rewrite !app_assoc, Hp. solve_Permutation.
  - apply step_InKid_cases in H
      as (path & C & ferr & cur & kids & rest & -> &
          [(e & Ek & -> & ->) | (t0 & t1 & Ek & E & ->)]).
    + exists []. split; [| auto]. simpl.
      rewrite (flat_map_delete (owed (ignorere cfg)) kids i _ Ek). simpl.
      rewrite app_nil_r. destruct v; reflexivity.
    + destruct (IH _ _ _ _ E) as (d & Hp & Hd).
      exists d. split; [| exact Hd]. simpl.
      rewrite (flat_map_delete (owed (ignorere cfg)) kids i _ Ek).
      rewrite (flat_map_insert (owed (ignorere cfg)) kids i _ t1 Ek).
      transitivity ((q st ++ owed (ignorere cfg) t0)
                    ++ match cur with
                       | Some t2 => owed (ignorere cfg) t2
                       | None => []
                       end
                    ++ flat_map (owed (ignorere cfg)) (delete i kids)
                    ++ flat_map
                         (fun f => expected (ignorere cfg)
                                     (Join path (Name (infoOf f))) f)
                         rest);
        [solve_Permutation |].
      rewrite Hp. solve_Permutation.
Qed.

(** Whatever the flags, what is sent and what is still owed only
    shrinks. *)
Lemma run_owed cs :
  forall t st t' st',
    run cfg w v cs t st = Some (t', st') ->
    exists dropped,
      q st ++ owed (ignorere cfg) t
      ≡ₚ q st' ++ owed (ignorere cfg) t' ++ dropped.
Proof.
  induction cs as [|c cs IH]; intros t st t' st' H; simpl in H.
  - inversion H. subst. exists []. rewrite app_nil_r. reflexivity.
  - destruct (step cfg w v c t st) as [[t1 st1]|] eqn:E; [| discriminate H].
    destruct (step_owed c _ _ _ _ E) as (d1 & Hp1 & _).
    destruct (IH _ _ _ _ H) as (d2 & Hp2).
    exists (d2 ++ d1).
    transitivity ((q st1 ++ owed (ignorere cfg) t1) ++ d1);
      [rewrite Hp1; solve_Permutation | rewrite Hp2; solve_Permutation].
Qed.

(** Without [-g], and along a run on which the counter never passes
    [maxcount], nothing is lost. *)
Lemma run_owed_kept (Inv : thread -> state -> Prop) :
  careGitignore cfg = false ->
  (forall c t st t' st',
      Inv t st -> step cfg w v c t st = Some (t', st') -> Inv t' st') ->
  (forall t st, Inv t st -> (n st <= maxcount cfg)%Z) ->
  forall cs t st t' st',
    Inv t st ->
    run cfg w v cs t st = Some (t', st') ->
    q st ++ owed (ignorere cfg) t ≡ₚ q st' ++ owed (ignorere cfg) t'.
Proof.
  intros Hg Hstep Hle.
  induction cs as [|c cs IH]; intros t st t' st' Hi H; simpl in H.
  - inversion H. subst. reflexivity.
  - destruct (step cfg w v c t st) as [[t1 st1]|] eqn:E; [| discriminate H].
    destruct (step_owed c _ _ _ _ E) as (d1 & Hp1 & Hd1).
    rewrite (Hd1 Hg (Hle _ _ Hi)), app_nil_r in Hp1.
    rewrite Hp1. exact (IH _ _ _ _ (Hstep _ _ _ _ _ Hi E) H).
Qed.

End Owed.

Section Plain.

Variable cfg : config.
Variable w : world.
Variable v : variant.
Hypothesis Hg : careGitignore cfg = false.

Lemma plain_extend path fi C h :
  extend cfg w v path fi C h
  = (match v with Bounded => C | Unbounded => nilSlice end, h).
Proof. unfold extend. rewrite Hg. destruct v; reflexivity. Qed.

Lemma plain_excluded path fi C h :
  excluded cfg path fi C h = ignorere cfg (Name fi).
Proof. unfold excluded. rewrite Hg. simpl. apply orb_false_r. Qed.

Lemma plain_walk_cases path info rderr files C st :
  walk (walkFn cfg w v) path (Node info rderr files) C st =
  if ignorere cfg (Name info) then (None, st)
  else if negb (IsDir info) then checkSend cfg path (increment st)
  else if isSymlink info then (None, st)
  else match rderr with
       | Some e => (Some e, logRead path st)
       | None =>
         rangeFiles (walk (walkFn cfg w v)) path
           (match v with Bounded => C | Unbounded => nilSlice end) files None
           (logRead path st)
       end.
Proof.
  rewrite (walk_cases _ _ _ _ _ _ _ _ _ _ _ (plain_extend path info C (mem st))).
  rewrite plain_excluded, setMem_same. reflexivity.
Qed.

Lemma plain_walk_q nd :
  maxcount cfg = maxInt64 ->
  forall path C st,
    q (snd (walk (walkFn cfg w v) path nd C st))
    = q st ++ expected (ignorere cfg) path nd.
Proof.
  intros Hm. induction nd as [info rderr files IH] using node_ind'.
  intros path C st. rewrite plain_walk_cases. simpl expected.
  destruct (ignorere cfg (Name info)); [simpl; rewrite app_nil_r; reflexivity |].
  destruct (negb (IsDir info)).
  { unfold checkSend, increment. simpl. rewrite Hm.
    destruct (Z.ltb_spec maxInt64 (wrap64 (n st + 1))) as [Hlt|_];
      [| reflexivity].
    pose proof (wrap64_le_max (n st + 1)). lia. }
  destruct (isSymlink info); [simpl; rewrite app_nil_r; reflexivity |].
  destruct rderr as [e|]; [simpl; rewrite app_nil_r; reflexivity |].
  change (q st) with (q (logRead path st)).
  generalize (logRead path st). generalize (@None error).
  generalize (match v with Bounded => C | Unbounded => nilSlice end).
  clear -IH. intros C'.
  induction IH as [|f fs Hf _ IHfs]; intros ferr st.
  - simpl. rewrite app_nil_r. reflexivity.
  - rewrite rangeFiles_cons.
    specialize (Hf (Join path (Name (infoOf f))) C' st).
    destruct (walk (walkFn cfg w v) _ f C' st) as [err st1]. simpl in Hf.
    rewrite IHfs, Hf. simpl. rewrite app_assoc. reflexivity.
Qed.

End Plain.

Lemma plain_variants_agree cfg w w' nd :
  careGitignore cfg = false ->
  forall path C C' st,
    walk (walkFn cfg w Bounded) path nd C st
    = walk (walkFn cfg w' Unbounded) path nd C' st.
Proof.
  intros Hg. induction nd as [info rderr files IH] using node_ind'.
  intros path C C' st. rewrite !plain_walk_cases by exact Hg.
  destruct (ignorere cfg (Name info)); [reflexivity |].
  destruct (negb (IsDir info)); [reflexivity |].
  destruct (isSymlink info); [reflexivity |].
  destruct rderr as [e|]; [reflexivity |].
  generalize (logRead path st). generalize (@None error).
  clear -IH. induction IH as [|f fs Hf _ IHfs]; intros ferr st.
  - reflexivity.
  - rewrite !rangeFiles_cons, (Hf _ C nilSlice st).
    destruct (walk (walkFn cfg w' Unbounded) _ f nilSlice st) as [err st1].
    apply IHfs.
Qed.

Lemma plain_walk_mem cfg w v nd path C st :
  careGitignore cfg = false ->
  mem (snd (walk (walkFn cfg w v) path nd C st)) = mem st.
Proof.
  intros Hg.
  apply (walk_invariant (fun s => mem s = mem st) (walkFn cfg w v)).
  - intros p fi C0 s Hs.
    pose proof (walkFn_context cfg w v p fi C0 s) as Hc.
    destruct (walkFn cfg w v p fi C0 s) as [[C1 e] s1].
    rewrite (plain_extend cfg w v Hg) in Hc. inversion Hc. simpl. congruence.
  - intros p s Hs. exact Hs.
  - reflexivity.
Qed.

Lemma weight_size nd : S (weight nd) = 7 * size nd.
Proof.
  induction nd as [info rderr files IH] using node_ind'. simpl.
  assert (E : list_sum (map (fun f => S (weight f)) files)
              = 7 * list_sum (map size files)).
  { induction IH as [|f fs Hf _ IHfs]; simpl; [reflexivity |]. lia. }
  lia.
Qed.

Section Counter.

Variable cfg : config.
Variable w : world.
Variable v : variant.

Lemma fresh_mono st st' z :
  incs st <= incs st' -> fresh st z -> fresh st' z.
Proof. unfold fresh. lia. Qed.

Lemma enter_counter path nd C st :
  let '(t', st') := enter cfg w v path nd C st in
  n st' = n st /\ incs st' = incs st /\ tmps t' = [] /\
  toCount (ignorere cfg) t' <= length (expected (ignorere cfg) path nd).
Proof.
  destruct nd as [info rderr files].
  destruct (extend cfg w v path info C (mem st)) as [C' h] eqn:E.
  rewrite (enter_cases _ _ _ _ _ _ _ _ _ _ _ E).
  unfold excluded. simpl expected.
  destruct (ignorere cfg (Name info)) eqn:Es; simpl.
  { repeat split. lia. }
  destruct (careGitignore cfg && Match (elems h C') path (IsDir info)).
  { simpl. repeat split. lia. }
  destruct (negb (IsDir info)).
  { simpl. repeat split. lia. }
  destruct (isSymlink info).
  { simpl. repeat split. lia. }
  destruct rderr; simpl; repeat split; lia.
Qed.

Ltac counter_goals :=
  split; [| split; [| split]];
  try (unfold fresh in *; simpl in *; lia).

Lemma step_counter c :
  forall t st t' st',
    step cfg w v c t st = Some (t', st') ->
    fresh st (n st) -> Forall (fresh st) (tmps t) ->
    (Z.of_nat (incs st + toCount (ignorere cfg) t) < 2 ^ 63)%Z ->
    incs st <= incs st' /\
    incs st' + toCount (ignorere cfg) t' <= incs st + toCount (ignorere cfg) t /\
    fresh st' (n st') /\ Forall (fresh st') (tmps t').
Proof.
  induction c as [|c IH|i c IH]; intros t st t' st' H Hn Ht Hb.
  - apply step_Here_cases in H.
    destruct H as [path nd C st|path st|path tmp st|path st
                  |path C ferr e kids rest st|path C ferr kids f rest st st1 H
                  |path C ferr kids f rest st H|path C ferr st].
    + pose proof (enter_counter path nd C st) as He.
      destruct (enter cfg w v path nd C st) as [t1 st1].
      destruct He as (E1 & E2 & E3 & E4). simpl fst; simpl snd.
      rewrite E3. counter_goals. constructor.
    + counter_goals. simpl. constructor; [exact Hn | constructor].
    + inversion Ht as [|? ? Htmp _]. subst. counter_goals.
      * unfold fresh in *. simpl in *. rewrite wrap64_small by lia. lia.
      * constructor.
    + unfold checkSend. destruct (maxcount cfg <? n st)%Z; simpl;
        counter_goals; constructor.
    + counter_goals. exact Ht.
    + assert (E : n st1 = n st /\ incs st1 = incs st).
      { unfold acquire in H. destruct v; [destruct (sem st <? 16) |];
          inversion H; auto. }
      destruct E as [E1 E2]. split; [| split; [| split]].
      * lia.
      * simpl. rewrite E2, map_app, list_sum_app, length_app. simpl. lia.
      * unfold fresh in *. rewrite E1, E2. exact Hn.
      * simpl in *. rewrite flat_map_app. simpl. rewrite !app_nil_r.
        eapply Forall_impl; [exact Ht |]. intros z. unfold fresh. rewrite E2.
        auto.
    + split; [| split; [| split]].
      * lia.
      * simpl. rewrite length_app. lia.
      * exact Hn.
      * simpl in *. exact Ht.
    + counter_goals. constructor.
  - apply step_InCur_cases in H
      as (path & C & ferr & t0 & kids & rest & t1 & -> & E & ->).
    simpl in Ht, Hb. apply Forall_app in Ht as [Ht0 Htk].
    destruct (IH _ _ _ _ E Hn Ht0) as (H1 & H2 & H3 & H4); [lia |].
    split; [exact H1 |]. split; [simpl; lia |]. split; [exact H3 |].
    simpl. apply Forall_app. split; [exact H4 |].
    eapply Forall_impl; [exact Htk |]. intros z. apply fresh_mono, H1.
  - apply step_InKid_cases in H
      as (path & C & ferr & cur & kids & rest & -> &
          [(e & Ek & -> & ->) | (t0 & t1 & Ek & E & ->)]).
    + pose proof (list_sum_delete (toCount (ignorere cfg)) kids i _ Ek) as Hd.
      assert (Er : n (release v st) = n st /\ incs (release v st) = incs st)
        by (destruct v; auto).
      destruct Er as [E1 E2]. split; [| split; [| split]].
      * lia.
      * simpl in *. lia.
      * unfold fresh in *. rewrite E1, E2. exact Hn.
      * simpl in *. apply Forall_app in Ht as [Htc Htk].
        assert (Hf : forall z, fresh st z -> fresh (release v st) z)
          by (intros z; unfold fresh; rewrite E2; auto).
        apply Forall_app. split; [eapply Forall_impl; [exact Htc | exact Hf] |].
        rewrite List.Forall_flat_map in Htk |- *. apply Forall_delete.
        eapply Forall_impl; [exact Htk |]. intros k Hk.
        eapply Forall_impl; [exact Hk | exact Hf].
    + pose proof (list_sum_insert (toCount (ignorere cfg)) kids i t0 t1 Ek) as Hi.
      pose proof (list_sum_delete (toCount (ignorere cfg)) kids i t0 Ek) as Hd.
      simpl in Ht, Hb. apply Forall_app in Ht as [Htc Htk].
      rewrite List.Forall_flat_map in Htk.
      assert (Ht0 : Forall (fresh st) (tmps t0)).
      { rewrite Forall_forall in Htk. apply Htk, list_elem_of_lookup. eauto. }
      destruct (IH _ _ _ _ E Hn Ht0) as (H1 & H2 & H3 & H4); [lia |].
      split; [exact H1 |]. split; [simpl; lia |]. split; [exact H3 |].
      simpl. apply Forall_app. split.
      * eapply Forall_impl; [exact Htc |]. intros z. apply fresh_mono, H1.
      * rewrite List.Forall_flat_map. apply Forall_insert; [| exact H4].
        eapply Forall_impl; [exact Htk |]. intros k Hk.
        eapply Forall_impl; [exact Hk |]. intros z. apply fresh_mono, H1.
Qed.

Lemma within_step N c t st t' st' :
  (Z.of_nat N < 2 ^ 63)%Z ->
  within (ignorere cfg) N t st ->
  step cfg w v c t st = Some (t', st') ->
  within (ignorere cfg) N t' st'.
Proof.
  intros HN (Hn & Ht & Hb) H.
  destruct (step_counter c _ _ _ _ H Hn Ht) as (H1 & H2 & H3 & H4); [lia |].
  split; [exact H3 |]. split; [exact H4 | lia].
Qed.

End Counter.

(** X1: on every schedule, in both variants and under any flags, the
    traversal of a tree takes fewer than seven steps per entry of the
    tree: no schedule keeps [walk] running for ever. *)
Theorem every_schedule_halts cfg w v cs base root C st t' st' :
  run cfg w v cs (Call base root C) st = Some (t', st') ->
  length cs < 7 * size root.
Proof.
  intros H. pose proof (run_fuel cfg w v cs _ _ _ _ H) as Hf.
  pose proof (weight_size root). simpl in Hf.
  assert (0 < fuel t') by (destruct t' as [? [] ?| | | | |]; simpl; lia).
  lia.
Qed.

(** The schedule [bothReadFirst] on a directory of two files. *)
Lemma every_schedule_halts_witness : length bothReadFirst < 7 * size twoFiles.
Proof.
  exact (every_schedule_halts (flags false 1) (ruleFiles []) Bounded
           bothReadFirst "." twoFiles nilSlice initial _ _ lost_update_run).
Defined.

(** X2: the goroutines of [walk] cannot get stuck.  Whatever the
    schedule has done so far, it can be continued to the return of the
    outermost [walk]: a goroutine that finds no token in [sem] goes on
    in its caller, and [wg.Wait] only waits for goroutines that can
    themselves go on. *)
Theorem every_run_can_finish cfg w v cs base root C st t1 st1 :
  run cfg w v cs (Call base root C) st = Some (t1, st1) ->
  exists cs' e st',
    run cfg w v (cs ++ cs') (Call base root C) st = Some (Ret e, st').
Proof.
  intros H. destruct (finish cfg w v (fuel t1) t1 st1 (le_n _))
    as (cs' & e & st' & Hr).
  exists cs', e, st'. rewrite run_app, H. exact Hr.
Qed.

(** The schedule [aThenB] on two directories that cannot be listed. *)
Lemma every_run_can_finish_witness :
  exists cs' e st',
    run (flags false (-1)) (ruleFiles []) Bounded (aThenB ++ cs')
      (Call "." twoUnreadable nilSlice) initial = Some (Ret e, st').
Proof.
  eapply (every_run_can_finish (flags false (-1)) (ruleFiles []) Bounded aThenB
            "." twoUnreadable nilSlice initial).
  vm_compute. reflexivity.
Defined.

(** X3: in the bounded variant, started with no token taken, the tokens
    taken from [sem] are at every moment the goroutines that have been
    started and have not finished; they are never more than 16, and all
    are back when the outermost [walk] returns. *)
Theorem semaphore_counts_goroutines cfg w cs base root C st t' st' :
  sem st = 0 ->
  run cfg w Bounded cs (Call base root C) st = Some (t', st') ->
  sem st' = started t' /\ sem st' <= 16 /\
  (forall e, t' = Ret e -> sem st' = 0).
Proof.
  intros H0 H.
  assert (G : forall cs t st t' st',
             started t <= sem st -> sem st <= 16 ->
             run cfg w Bounded cs t st = Some (t', st') ->
             sem st' + started t = sem st + started t' /\
             started t' <= sem st' /\ sem st' <= 16).
  { clear. induction cs as [|c cs IH]; intros t st t' st' Hs Hb H; simpl in H.
    - inversion H. subst. lia.
    - destruct (step cfg w Bounded c t st) as [[t1 st1]|] eqn:E;
        [| discriminate H].
      destruct (started_le_sem_step cfg w c _ _ _ _ Hs E) as [H1 H2].
      pose proof (sem_le_16_step cfg w c _ _ _ _ Hb E) as H3.
      destruct (IH _ _ _ _ H2 H3 H) as (H4 & H5 & H6). lia. }
  assert (Ha : started (Call base root C) <= sem st) by (simpl; lia).
  assert (Hb : sem st <= 16) by lia.
  destruct (G cs _ _ _ _ Ha Hb H) as (H1 & H2 & H3).
  simpl in H1. split; [lia |]. split; [exact H3 |].
  intros e ->. simpl in H1. lia.
Qed.

(** After [aThenB] one goroutine is still running, and one token is
    taken. *)
Lemma semaphore_counts_goroutines_witness :
  exists t' st',
    run (flags false (-1)) (ruleFiles []) Bounded aThenB
      (Call "." twoUnreadable nilSlice) initial = Some (t', st') /\
    sem st' = started t' /\ sem st' = 1.
Proof.
  eexists _, _. split; [vm_compute; reflexivity |].
  split; [| reflexivity].
  refine (proj1 (semaphore_counts_goroutines (flags false (-1)) (ruleFiles [])
                   aThenB "." twoUnreadable nilSlice initial _ _ eq_refl _)).
  vm_compute. reflexivity.
Defined.

(** X4: without [-g] and without a maximum, [walk] on one goroutine
    sends exactly the paths of [expected], in the order of the
    listings: every entry that is not a directory, outside the
    directories whose name matches the pattern, that are symbolic links
    or that cannot be listed. *)
Theorem plain_walk_sends_expected cfg w v root base C st :
  careGitignore cfg = false -> maxcount cfg = maxInt64 ->
  q (snd (walk (walkFn cfg w v) base root C st))
  = q st ++ expected (ignorere cfg) base root.
Proof. intros Hg Hm. apply plain_walk_q; assumption. Qed.

(** X5: without [-g] the two variants are the same program on one
    goroutine: same error, same paths, same counter, whatever rule
    files there are and whatever context they start from; and no
    backing array is allocated or written. *)
Theorem variants_agree_without_rule_files cfg w w' root base C C' st :
  careGitignore cfg = false ->
  walk (walkFn cfg w Bounded) base root C st
  = walk (walkFn cfg w' Unbounded) base root C' st /\
  mem (snd (walk (walkFn cfg w Bounded) base root C st)) = mem st.
Proof.
  intros Hg. split; [apply plain_variants_agree, Hg | apply plain_walk_mem, Hg].
Qed.

(** X6: on every schedule, in both variants and under any flags, the
    paths sent so far are among the paths of [expected], each at most
    as often as it is there: rule files and the maximum only take
    paths away. *)
Theorem flags_only_remove_paths cfg w v cs base root C st t' st' :
  run cfg w v cs (Call base root C) st = Some (t', st') ->
  q st' ⊆+ q st ++ expected (ignorere cfg) base root.
Proof.
  intros H. destruct (run_owed cfg w v cs _ _ _ _ H) as (d & Hp).
  simpl in Hp. rewrite Hp. apply submseteq_inserts_r. reflexivity.
Qed.

(** X7: without [-g], when the paths of [expected] are no more than
    the maximum, every schedule that runs [walk] to its return has sent
    exactly those paths, each once, in some order.  The unsynchronized
    [n++] can lose increments but never adds one, so [n] stays within
    the maximum and no path is dropped. *)
Theorem within_maximum_all_paths_sent cfg w v cs base root C st e st' :
  careGitignore cfg = false ->
  n st = 0%Z -> incs st = 0 ->
  (Z.of_nat (length (expected (ignorere cfg) base root)) <= maxcount cfg)%Z ->
  (Z.of_nat (length (expected (ignorere cfg) base root)) < 2 ^ 63)%Z ->
  run cfg w v cs (Call base root C) st = Some (Ret e, st') ->
  q st' ≡ₚ q st ++ expected (ignorere cfg) base root.
Proof.
  intros Hg Hn Hi Hk Hb H.
  set (N := length (expected (ignorere cfg) base root)) in *.
  pose proof (run_owed_kept cfg w v (within (ignorere cfg) N) Hg) as Hr.
  assert (Hi0 : within (ignorere cfg) N (Call base root C) st).
  { unfold within, fresh. rewrite Hn, Hi. simpl. fold N.
    split; [lia |]. split; [constructor | lia]. }
  assert (Hle : forall t s, within (ignorere cfg) N t s ->
                       (n s <= maxcount cfg)%Z).
  { intros t s ((_ & Hle) & _ & Hc). lia. }
  pose proof (Hr (fun c t s t1 s1 Hw Hs =>
                    within_step cfg w v N c t s t1 s1 Hb Hw Hs)
                Hle cs _ _ _ _ Hi0 H) as Hp.
  simpl in Hp. rewrite app_nil_r in Hp. symmetry. exact Hp.
Qed.

(** X8: the error and the state that [walk] reaches when every
    directory is traversed on one goroutine are reached by a schedule of
    the goroutines, in both variants. *)
Theorem serial_outcome_is_reachable cfg w v root base C st :
  exists cs,
    run cfg w v cs (Call base root C) st
    = Some (Ret (fst (walk (walkFn cfg w v) base root C st)),
            snd (walk (walkFn cfg w v) base root C st)).
Proof. apply serial_run. Qed.

(** X9: under [-g], at a directory that is not a symbolic link, the
    context handed to the entries below denotes the inherited matchers
    followed by the matcher of the directory's own [.gitignore] when
    that file can be read, and the inherited matchers alone when it
    cannot; this holds for [append] and for [make]/[copy] alike, and the
    new context is sound again. *)
Theorem extension_appends_rule_file cfg w v path fi C h :
  sound h C ->
  careGitignore cfg = true -> IsDir fi = true -> isSymlink fi = false ->
  let '(C', h') := extend cfg w v path fi C h in
  sound h' C' /\
  elems h' C'
  = elems h C ++ match NewGitIgnore w (Join path gitignoreFile) with
                 | Some m => [Some m]
                 | None => []
                 end.
Proof.
  intros Hs Hg Hd Hl. pose proof (extend_sound cfg w v path fi C h Hs) as H.
  destruct (extend cfg w v path fi C h) as [C' h'].
  destruct H as [H1 H2]. split; [exact H1 |]. apply H2.
  rewrite Hg, Hd, Hl. reflexivity.
Qed.

(** X10: in the unbounded variant no step of any goroutine changes
    what a slice that exists denotes: [make]/[copy] writes into an
    array of its own only. *)
Theorem unbounded_slices_never_change cfg w cs t st t' st' s :
  run cfg w Unbounded cs t st = Some (t', st') ->
  arr s < length (mem st) ->
  elems (mem st') s = elems (mem st) s.
Proof. apply unbounded_run_keeps_slices. Qed.

(** The tree [nestedTree], its rule files not read. *)
Lemma plain_walk_sends_expected_witness :
  q (snd (walk (walkFn (flags false (-1)) nestedWorld Bounded) "." nestedTree
            nilSlice initial))
  = q initial ++ expected (ignorere (flags false (-1))) "." nestedTree.
Proof.
  exact (plain_walk_sends_expected (flags false (-1)) nestedWorld Bounded
           nestedTree "." nilSlice initial eq_refl eq_refl).
Defined.

(** [nestedTree] with a maximum of three, under two sets of rule
    files. *)
Lemma variants_agree_without_rule_files_witness :
  walk (walkFn (flags false 3) nestedWorld Bounded) "." nestedTree nilSlice
    initial
  = walk (walkFn (flags false 3) logWorld Unbounded) "." nestedTree nilSlice
      initial /\
  mem (snd (walk (walkFn (flags false 3) nestedWorld Bounded) "." nestedTree
              nilSlice initial)) = mem initial.
Proof.
  exact (variants_agree_without_rule_files (flags false 3) nestedWorld logWorld
           nestedTree "." nilSlice nilSlice initial eq_refl).
Defined.

(** Five files under a maximum of one, the first of them sent. *)
Lemma flags_only_remove_paths_witness :
  exists t' st',
    run (flags true 1) logWorld Bounded (Here :: Here :: emitNext)
      (Call "." fiveFiles nilSlice) initial = Some (t', st') /\
    q st' ⊆+ q initial ++ expected (ignorere (flags true 1)) "." fiveFiles.
Proof.
  eexists _, _. split; [vm_compute; reflexivity |].
  refine (flags_only_remove_paths (flags true 1) logWorld Bounded
            (Here :: Here :: emitNext) "." fiveFiles nilSlice initial _ _ _).
  vm_compute. reflexivity.
Defined.

(** Two files under a maximum of two, with the schedule on which an
    increment of [n] is lost. *)
Lemma within_maximum_all_paths_sent_witness :
  exists e st',
    run (flags false 2) (ruleFiles []) Bounded bothReadFirst
      (Call "." twoFiles nilSlice) initial = Some (Ret e, st') /\
    q st' ≡ₚ q initial ++ expected (ignorere (flags false 2)) "." twoFiles.
Proof.
  eexists _, _. split; [vm_compute; reflexivity |].
  refine (within_maximum_all_paths_sent (flags false 2) (ruleFiles []) Bounded
            bothReadFirst "." twoFiles nilSlice initial _ _
            eq_refl eq_refl eq_refl _ _ _).
  - vm_compute. discriminate.
  - vm_compute. reflexivity.
  - vm_compute. reflexivity.
Defined.

(** The directory [sub] of [logWorld] below a context of one matcher. *)
Lemma extension_appends_rule_file_witness :
  let '(C', h') :=
    extend (flags true (-1)) logWorld Bounded "sub"
      {| Name := "sub"; Mode := ModeDir + 493 |}
      {| arr := 0; len := 1; cap := 1 |} [[Some (glob ".tmp")]] in
  sound h' C' /\
  elems h' C'
  = elems [[Some (glob ".tmp")]] {| arr := 0; len := 1; cap := 1 |}
    ++ match NewGitIgnore logWorld (Join "sub" gitignoreFile) with
       | Some m => [Some m]
       | None => []
       end.
Proof.
  apply (extension_appends_rule_file (flags true (-1)) logWorld Bounded "sub"
           {| Name := "sub"; Mode := ModeDir + 493 |}
           {| arr := 0; len := 1; cap := 1 |} [[Some (glob ".tmp")]]).
  - split; [simpl; lia |]. split; [simpl; lia |].
    vm_compute. repeat constructor; discriminate.
  - reflexivity.
  - reflexivity.
  - reflexivity.
Defined.

(** The context of the root after the goroutine of [sub] has extended
    it. *)
Lemma unbounded_slices_never_change_witness :
  exists t' st',
    run (flags true (-1)) logWorld Unbounded ([Here; Here] ++ inKid 0 [Here; Here])
      (Call "." logTree {| arr := 0; len := 1; cap := 1 |})
      (setMem [[Some (glob ".tmp")]] initial) = Some (t', st') /\
    elems (mem st') {| arr := 0; len := 1; cap := 1 |}
    = elems (mem (setMem [[Some (glob ".tmp")]] initial))
        {| arr := 0; len := 1; cap := 1 |}.
Proof.
  eexists _, _. split; [vm_compute; reflexivity |].
  refine (unbounded_slices_never_change (flags true (-1)) logWorld
            ([Here; Here] ++ inKid 0 [Here; Here])
            (Call "." logTree {| arr := 0; len := 1; cap := 1 |})
            (setMem [[Some (glob ".tmp")]] initial) _ _
            {| arr := 0; len := 1; cap := 1 |} _ _).
  - vm_compute. reflexivity.
  - simpl. lia.
Defined.

(** Inclusions between lists built with [++] and [::], from inclusions
    among the hypotheses. *)
Ltac among :=
  let x := fresh "x" in
  intros x;
  repeat match goal with
         | H : _ ⊆ _ |- _ =>
           specialize (H x);
           repeat first [rewrite elem_of_app in H | rewrite elem_of_cons in H
                        | rewrite elem_of_nil in H]
         end;
  repeat first [rewrite elem_of_app | rewrite elem_of_cons
               | rewrite elem_of_nil];
  tauto.

Lemma held_retain e ferr : held (retain e ferr) ⊆ held e ++ held ferr.
Proof. destruct e, ferr; simpl; among. Qed.

Section Errors.

Variable cfg : config.
Variable w : world.
Variable v : variant.

Lemma enter_pending path nd C st :
  pending (fst (enter cfg w v path nd C st)) ⊆ rderrs nd.
Proof.
  destruct nd as [info rderr files].
  destruct (extend cfg w v path info C (mem st)) as [C' h] eqn:E.
  rewrite (enter_cases _ _ _ _ _ _ _ _ _ _ _ E).
  destruct (excluded cfg path info C' h); [simpl; among |].
  destruct (negb (IsDir info)); [simpl; among |].
  destruct (isSymlink info); [simpl; among |].
  destruct rderr; simpl; among.
Qed.

Lemma step_pending c :
  forall t st t' st',
    step cfg w v c t st = Some (t', st') ->
    pending t' ⊆ maxError :: pending t.
Proof.
  induction c as [|c IH|i c IH]; intros t st t' st' H.
  - apply step_Here_cases in H.
    destruct H as [path nd C st|path st|path tmp st|path st
                  |path C ferr e kids rest st|path C ferr kids f rest st st1 H
                  |path C ferr kids f rest st H|path C ferr st].
    + pose proof (enter_pending path nd C st).
      change (pending (Call path nd C)) with (rderrs nd).
 among.
    + simpl. among.
    + simpl. among.
    + unfold checkSend. destruct (maxcount cfg <? n st)%Z; simpl; among.
    + pose proof (held_retain e ferr). cbn [pending]. among.
    + simpl. rewrite flat_map_app. simpl. among.
    + simpl. among.
    + simpl. among.
  - apply step_InCur_cases in H
      as (path & C & ferr & t0 & kids & rest & t1 & -> & E & ->).
    pose proof (IH _ _ _ _ E). cbn [pending]. among.
  - apply step_InKid_cases in H
      as (path & C & ferr & cur & kids & rest & -> &
          [(e & Ek & -> & ->) | (t0 & t1 & Ek & E & ->)]).
    + pose proof (held_retain e ferr). cbn [pending].
      rewrite (flat_map_delete pending kids i _ Ek). cbn [pending]. among.
    + pose proof (IH _ _ _ _ E). cbn [pending].
      rewrite (flat_map_delete pending kids i _ Ek).
      rewrite (flat_map_insert pending kids i _ t1 Ek). among.
Qed.

Lemma run_pending cs :
  forall t st t' st',
    run cfg w v cs t st = Some (t', st') ->
    pending t' ⊆ maxError :: pending t.
Proof.
  induction cs as [|c cs IH]; intros t st t' st' H; simpl in H.
  - inversion H. subst. among.
  - destruct (step cfg w v c t st) as [[t1 st1]|] eqn:E; [| discriminate H].
    pose proof (step_pending c _ _ _ _ E). pose proof (IH _ _ _ _ H).
    among.
Qed.

End Errors.

(** X11: an error that [walk] returns, on one goroutine or on any
    schedule of its goroutines, is [maxError] or an error that
    [ReadDir] returned for a directory of the tree.  The [SkipDir] of
    the closure is never handed on: the closure returns it for
    directories only, and there [walk] turns it into [nil]. *)
Theorem returned_error_origin cfg w v base root C st x :
  fst (walk (walkFn cfg w v) base root C st) = Some x \/
  (exists cs st',
      run cfg w v cs (Call base root C) st = Some (Ret (Some x), st')) ->
  x = maxError \/ In x (rderrs root).
Proof.
  intros H.
  assert (exists cs st',
             run cfg w v cs (Call base root C) st = Some (Ret (Some x), st'))
    as (cs & st' & Hr).
  { destruct H as [H | H]; [| exact H].
    destruct (serial_run cfg w v root base C st) as (cs & Hr).
    rewrite H in Hr. eauto. }
  pose proof (run_pending cfg w v cs _ _ _ _ Hr) as Hp. simpl in Hp.
  assert (Hx : x ∈ maxError :: rderrs root) by (apply Hp; simpl; apply elem_of_cons; left; reflexivity).
  apply elem_of_cons in Hx as [Hx | Hx]; [left; exact Hx |].
  right. apply list_elem_of_In. exact Hx.
Qed.

(** Two files and a directory that cannot be listed: [walk] returns the
    error of the listing. *)
Lemma returned_error_origin_witness :
  errZ = maxError \/ In errZ (rderrs filesThenUnreadable).
Proof.
  apply (returned_error_origin (flags false (-1)) (ruleFiles []) Bounded "."
           filesThenUnreadable nilSlice initial errZ).
  left. vm_compute. reflexivity.
Defined.

(* ===================================================================== *)
(** * Part 8: the maximum and the rule files on every schedule *)
(* ===================================================================== *)

(** ** The maximum when emits do not overlap *)

Lemma moved_frame cfg st st' a c f a' c' f' X y g b K F b' K' F' :
  moved cfg st st' a c f a' c' f' ->
  b ≡ₚ a ++ X -> b' ≡ₚ a' ++ X ->
  K = c + y -> K' = c' + y -> F = f + g -> F' = f' + g ->
  moved cfg st st' b K F b' K' F'.
Proof.
  intros H Hb Hb' -> -> -> ->.
  destruct H as [a a' c f f' H1 H2 H3 Ha Hf|a a' c f f' H1 H2 H3 Ha Hf
                |tmp a a' c f f' Ha H1 H2 H3 Hf|a a' c f f' H1 H2 H3 Ha Ho Hf
                |p a a' c f f' H1 H2 H3 Ha Hle Hf].
  - apply MQuiet; auto; [rewrite Hb, Hb', Ha; reflexivity | lia].
  - apply MLoad; auto; [rewrite Hb, Hb', Ha; reflexivity | lia].
  - apply (MStore _ _ _ tmp); auto; [rewrite Hb, Hb', Ha; reflexivity | lia].
  - apply MOver; auto; [rewrite Hb, Hb', Ha; reflexivity | lia].
  - apply (MSend _ _ _ p); auto; [rewrite Hb, Hb', Ha; reflexivity | lia].
Qed.

Section Emits.

Variable cfg : config.
Variable w : world.
Variable v : variant.

Lemma enter_quiet path nd C st :
  let '(t', st') := enter cfg w v path nd C st in
  n st' = n st /\ q st' = q st /\ incs st' = incs st /\
  tmps t' = [] /\ checks t' = 0.
Proof.
  destruct nd as [info rderr files].
  destruct (extend cfg w v path info C (mem st)) as [C' h] eqn:E.
  rewrite (enter_cases _ _ _ _ _ _ _ _ _ _ _ E).
  destruct (excluded cfg path info C' h); [simpl; auto |].
  destruct (negb (IsDir info)); [simpl; auto |].
  destruct (isSymlink info); [simpl; auto |].
  destruct rderr; simpl; auto.
Qed.

Lemma step_moved c :
  forall t st t' st',
    step cfg w v c t st = Some (t', st') ->
    moved cfg st st' (tmps t) (checks t) (faults t)
      (tmps t') (checks t') (faults t').
Proof.
  induction c as [|c IH|i c IH]; intros t st t' st' H.
  - apply step_Here_cases in H.
    destruct H as [path nd C st|path st|path tmp st|path st
                  |path C ferr e kids rest st|path C ferr kids f rest st st1 H
                  |path C ferr kids f rest st H|path C ferr st].
    + pose proof (enter_quiet path nd C st) as He.
      destruct (enter cfg w v path nd C st) as [t1 st1].
      destruct He as (E1 & E2 & E3 & E4 & E5). simpl fst; simpl snd.
      rewrite E4, E5. simpl. apply MQuiet; auto. lia.
    + simpl. apply MLoad; auto.
    + simpl. apply (MStore _ _ _ tmp); auto.
    + unfold checkSend. destruct (Z.ltb_spec (maxcount cfg) (n st)); simpl.
      * apply MOver; auto.
      * apply (MSend _ _ _ path); auto.
    + simpl. apply MQuiet; auto. destruct e, ferr; simpl; lia.
    + assert (E : n st1 = n st /\ q st1 = q st /\ incs st1 = incs st).
      { unfold acquire in H. destruct v; [destruct (sem st <? 16) |];
          inversion H; auto. }
      destruct E as (E1 & E2 & E3). simpl.
      rewrite flat_map_app, !map_app, !list_sum_app. simpl.
      rewrite !app_nil_r, !Nat.add_0_r. apply MQuiet; auto.
    + simpl. apply MQuiet; auto.
    + simpl. apply MQuiet; auto. lia.
  - apply step_InCur_cases in H
      as (path & C & ferr & t0 & kids & rest & t1 & -> & E & ->).
    eapply moved_frame; [exact (IH _ _ _ _ E) | simpl; reflexivity
                        | simpl; reflexivity | simpl; reflexivity
                        | simpl; reflexivity | |].
    + simpl. instantiate (1 := isErr ferr + list_sum (map faults kids)). lia.
    + simpl. lia.
  - apply step_InKid_cases in H
      as (path & C & ferr & cur & kids & rest & -> &
          [(e & Ek & -> & ->) | (t0 & t1 & Ek & E & ->)]).
    + pose proof (list_sum_delete checks kids i _ Ek) as Hc.
      pose proof (list_sum_delete faults kids i _ Ek) as Hf.
      pose proof (flat_map_delete tmps kids i _ Ek) as Ht.
      simpl in Hc, Hf, Ht. simpl.
      replace (list_sum (map checks kids))
        with (list_sum (map checks (delete i kids))) by lia.
      apply MQuiet; try (destruct v; reflexivity).
      * rewrite Ht. reflexivity.
      * destruct e, ferr; simpl in *; lia.
    + pose proof (list_sum_delete checks kids i _ Ek) as Hc.
      pose proof (list_sum_insert checks kids i _ t1 Ek) as Hc'.
      pose proof (list_sum_delete faults kids i _ Ek) as Hf.
      pose proof (list_sum_insert faults kids i _ t1 Ek) as Hf'.
      eapply (moved_frame _ _ _ _ _ _ _ _ _
                (match cur with Some t2 => tmps t2 | None => [] end
                 ++ flat_map tmps (delete i kids))
                (match cur with Some t2 => checks t2 | None => 0 end
                 + list_sum (map checks (delete i kids)))
                (isErr ferr + match cur with Some t2 => faults t2 | None => 0 end
                 + list_sum (map faults (delete i kids))));
        [exact (IH _ _ _ _ E) | | | | | |]; simpl.
      * rewrite (flat_map_delete tmps kids i _ Ek). solve_Permutation.
      * rewrite (flat_map_insert tmps kids i _ t1 Ek). solve_Permutation.
      * lia.
      * lia.
      * lia.
      * lia.
Qed.

Lemma moved_capInv k st st' a c f a' c' f' :
  maxcount cfg = k ->
  (Z.of_nat (incs st') < 2 ^ 63)%Z ->
  length a + c <= 1 -> length a' + c' <= 1 ->
  moved cfg st st' a c f a' c' f' ->
  capInv k a c f st -> capInv k a' c' f' st'.
Proof.
  intros Hk Hb Hx Hx' H (Hn & Ha & Hc & Hq & Hf).
  destruct H as [a a' c f f' H1 H2 H3 Hp Hm|a a' c f f' H1 H2 H3 Hp Hm
                |tmp a a' c f f' Hp H1 H2 H3 Hm|a a' c f f' H1 H2 H3 Hp Ho Hm
                |p a a' c f f' H1 H2 H3 Hp Hle Hm].
  - unfold capInv. rewrite H1, H2, H3, Hp. tauto.
  - unfold capInv. rewrite H1, H2, H3, Hp.
    split; [exact Hn |]. split; [constructor; [reflexivity | exact Ha] |].
    tauto.
  - assert (Hl : length a = S (length a')) by (rewrite Hp; reflexivity).
    assert (Ea : a' = []) by (destruct a'; [reflexivity | simpl in *; lia]).
    assert (Ec : c = 0) by lia. subst a' c.
    assert (Et : tmp = n st).
    { rewrite Hp in Ha. inversion Ha. assumption. }
    subst tmp. unfold capInv. rewrite H1, H2, H3, Hn.
    rewrite wrap64_small by lia.
    split; [lia |]. split; [constructor |]. split; [lia |].
    replace (S (incs st) - 1) with (incs st - 0) by lia.
    split; [exact Hq | auto].
  - assert (Ea : a = []) by (destruct a; [reflexivity | simpl in *; lia]).
    assert (Ec : c = 0) by lia. subst a c.
    apply Permutation_nil_r in Hp. subst a'.
    unfold capInv. rewrite H1, H2, H3.
    split; [exact Hn |]. split; [constructor |]. split; [lia |].
    split; [lia | auto].
  - assert (Ea : a = []) by (destruct a; [reflexivity | simpl in *; lia]).
    assert (Ec : c = 0) by lia. subst a c.
    apply Permutation_nil_r in Hp. subst a'.
    unfold capInv. rewrite H1, H2, H3, length_app. simpl.
    split; [exact Hn |]. split; [constructor |]. split; [lia |].
    split; [lia |]. intros Hlt. lia.
Qed.

Lemma exclusive_head cs t st :
  exclusive cfg w v cs t st = true -> inEmit t <= 1.
Proof.
  destruct cs; simpl; intros H; apply andb_prop in H as [H _];
    apply Nat.leb_le; exact H.
Qed.

Lemma run_capped N k cs :
  maxcount cfg = k -> (Z.of_nat N < 2 ^ 63)%Z ->
  forall t st t' st',
    within (ignorere cfg) N t st ->
    capInv k (tmps t) (checks t) (faults t) st ->
    exclusive cfg w v cs t st = true ->
    run cfg w v cs t st = Some (t', st') ->
    capInv k (tmps t') (checks t') (faults t') st'.
Proof.
  intros Hk HN.
  induction cs as [|c cs IH]; intros t st t' st' Hw Hi Hx H; simpl in H.
  - inversion H. subst. exact Hi.
  - destruct (step cfg w v c t st) as [[t1 st1]|] eqn:E; [| discriminate H].
    simpl in Hx. rewrite E in Hx. apply andb_prop in Hx as [Hx Hx1].
    apply Nat.leb_le in Hx.
    pose proof (within_step cfg w v N c _ _ _ _ HN Hw E) as Hw1.
    apply (IH _ _ _ _ Hw1); [| exact Hx1 | exact H].
    eapply (moved_capInv k st st1);
      [exact Hk | | exact Hx | | exact (step_moved c _ _ _ _ E) | exact Hi].
    + destruct Hw1 as (_ & _ & Hb). lia.
    + apply exclusive_head in Hx1. exact Hx1.
Qed.

(** Without [-g] the entries still to be counted and those counted are
    the entries of the listing, at every step. *)
Lemma enter_counted path nd C st :
  careGitignore cfg = false ->
  let '(t', st') := enter cfg w v path nd C st in
  incs st' = incs st /\
  toCount (ignorere cfg) t' = length (expected (ignorere cfg) path nd).
Proof.
  intros Hg. destruct nd as [info rderr files].
  destruct (extend cfg w v path info C (mem st)) as [C' h] eqn:E.
  rewrite (enter_cases _ _ _ _ _ _ _ _ _ _ _ E).
  unfold excluded. rewrite Hg. simpl expected. rewrite orb_false_r.
  destruct (ignorere cfg (Name info)); simpl; [auto |].
  destruct (negb (IsDir info)); [simpl; auto |].
  destruct (isSymlink info); [simpl; auto |].
  destruct rderr; simpl; auto.
Qed.

Lemma step_counted c :
  careGitignore cfg = false ->
  forall t st t' st',
    step cfg w v c t st = Some (t', st') ->
    incs st' + toCount (ignorere cfg) t' = incs st + toCount (ignorere cfg) t.
Proof.
  intros Hg.
  induction c as [|c IH|i c IH]; intros t st t' st' H.
  - apply step_Here_cases in H.
    destruct H as [path nd C st|path st|path tmp st|path st
                  |path C ferr e kids rest st|path C ferr kids f rest st st1 H
                  |path C ferr kids f rest st H|path C ferr st].
    + pose proof (enter_counted path nd C st Hg) as He.
      destruct (enter cfg w v path nd C st) as [t1 st1].
      destruct He as [E1 E2]. simpl. lia.
    + reflexivity.
    + simpl. lia.
    + unfold checkSend. destruct (maxcount cfg <? n st)%Z; reflexivity.
    + reflexivity.
    + assert (E : incs st1 = incs st).
      { unfold acquire in H. destruct v; [destruct (sem st <? 16) |];
          inversion H; auto. }
      simpl. rewrite E, map_app, list_sum_app, length_app. simpl. lia.
    + simpl. rewrite length_app. lia.
    + reflexivity.
  - apply step_InCur_cases in H
      as (path & C & ferr & t0 & kids & rest & t1 & -> & E & ->).
    specialize (IH _ _ _ _ E). simpl. lia.
  - apply step_InKid_cases in H
      as (path & C & ferr & cur & kids & rest & -> &
          [(e & Ek & -> & ->) | (t0 & t1 & Ek & E & ->)]).
    + pose proof (list_sum_delete (toCount (ignorere cfg)) kids i _ Ek) as Hd.
      assert (Er : incs (release v st) = incs st) by (destruct v; auto).
      simpl in *. lia.
    + pose proof (list_sum_insert (toCount (ignorere cfg)) kids i t0 t1 Ek).
      specialize (IH _ _ _ _ E). simpl. lia.
Qed.

Lemma run_counted cs :
  careGitignore cfg = false ->
  forall t st t' st',
    run cfg w v cs t st = Some (t', st') ->
    incs st' + toCount (ignorere cfg) t' = incs st + toCount (ignorere cfg) t.
Proof.
  intros Hg.
  induction cs as [|c cs IH]; intros t st t' st' H; simpl in H.
  - inversion H. reflexivity.
  - destruct (step cfg w v c t st) as [[t1 st1]|] eqn:E; [| discriminate H].
    rewrite (IH _ _ _ _ H). apply (step_counted c Hg _ _ _ _ E).
Qed.

(** While [n] is within the maximum no step adds an error. *)
Lemma step_pending_within c :
  forall t st t' st',
    (n st <= maxcount cfg)%Z ->
    step cfg w v c t st = Some (t', st') ->
    pending t' ⊆ pending t.
Proof.
  induction c as [|c IH|i c IH]; intros t st t' st' Hn H.
  - apply step_Here_cases in H.
    destruct H as [path nd C st|path st|path tmp st|path st
                  |path C ferr e kids rest st|path C ferr kids f rest st st1 H
                  |path C ferr kids f rest st H|path C ferr st].
    + apply enter_pending.
    + simpl. among.
    + simpl. among.
    + unfold checkSend. destruct (Z.ltb_spec (maxcount cfg) (n st)); [lia |].
      simpl. among.
    + pose proof (held_retain e ferr). cbn [pending]. among.
    + simpl. rewrite flat_map_app. simpl. among.
    + simpl. among.
    + simpl. among.
  - apply step_InCur_cases in H
      as (path & C & ferr & t0 & kids & rest & t1 & -> & E & ->).
    pose proof (IH _ _ _ _ Hn E). cbn [pending]. among.
  - apply step_InKid_cases in H
      as (path & C & ferr & cur & kids & rest & -> &
          [(e & Ek & -> & ->) | (t0 & t1 & Ek & E & ->)]).
    + pose proof (held_retain e ferr). cbn [pending].
      rewrite (flat_map_delete pending kids i _ Ek). simpl. among.
    + pose proof (IH _ _ _ _ Hn E). cbn [pending].
      rewrite (flat_map_delete pending kids i _ Ek).
      rewrite (flat_map_insert pending kids i _ t1 Ek). among.
Qed.

(** Without a maximum: [n] stays an [int64], every comparison is
    followed by the send, and no error appears. *)
Lemma run_sentinel cs :
  maxcount cfg = maxInt64 ->
  forall t st t' st',
    (n st <= maxInt64)%Z ->
    run cfg w v cs t st = Some (t', st') ->
    (n st' <= maxInt64)%Z /\
    length (q st') + checks t' + incs st = length (q st) + checks t + incs st' /\
    pending t' ⊆ pending t.
Proof.
  intros Hm.
  induction cs as [|c cs IH]; intros t st t' st' Hn H; simpl in H.
  - inversion H. subst. split; [exact Hn |]. split; [lia | among].
  - destruct (step cfg w v c t st) as [[t1 st1]|] eqn:E; [| discriminate H].
    pose proof (step_moved c _ _ _ _ E) as Hmv.
    assert (Hp : pending t1 ⊆ pending t).
    { apply (step_pending_within c _ _ _ _ ltac:(rewrite Hm; exact Hn) E). }
    assert (H1 : (n st1 <= maxInt64)%Z /\
                 length (q st1) + checks t1 + incs st
                 = length (q st) + checks t + incs st1).
    { inversion Hmv; subst;
        repeat match goal with
               | H : n st1 = _ |- _ => rewrite H
               | H : q st1 = _ |- _ => rewrite H
               | H : incs st1 = _ |- _ => rewrite H
               end; rewrite ?length_app; simpl;
        (split; [first [exact Hn | apply wrap64_le_max] | lia]). }
    destruct H1 as [Hn1 Hq1].
    destruct (IH _ _ _ _ Hn1 H) as (Hn' & Hq' & Hp').
    split; [exact Hn' |]. split; [lia | among].
Qed.

End Emits.

Lemma step_int64 cfg w v c t st t' st' :
  (n st <= maxInt64)%Z ->
  step cfg w v c t st = Some (t', st') -> (n st' <= maxInt64)%Z.
Proof.
  intros Hn E. pose proof (step_moved cfg w v c _ _ _ _ E) as Hmv.
  inversion Hmv; subst;
    match goal with H : n st' = _ |- _ => rewrite H end;
    first [exact Hn | apply wrap64_le_max].
Qed.

Lemma rderrs_healthy nd : healthy nd = true -> rderrs nd = [].
Proof.
  induction nd as [info rderr files IH] using node_ind'.
  simpl. destruct rderr; [discriminate |]. intros H. simpl.
  induction files as [|f fs IHfs]; [reflexivity |].
  simpl in H. apply andb_prop in H as [Hf Hfs].
  inversion IH as [|? ? If Ifs]; subst.
  simpl. rewrite (If Hf), (IHfs Ifs Hfs). reflexivity.
Qed.

(** The traversal on one goroutine is a schedule whose emits do not
    overlap. *)
Section SerialExclusive.

Variable cfg : config.
Variable w : world.
Variable v : variant.

Lemma exclusive_cons c cs t st :
  exclusive cfg w v (c :: cs) t st
  = (inEmit t <=? 1)
    && match step cfg w v c t st with
       | Some (t', st') => exclusive cfg w v cs t' st'
       | None => true
       end.
Proof. reflexivity. Qed.

Lemma exclusive_app cs1 cs2 t st t' st' :
  exclusive cfg w v cs1 t st = true ->
  run cfg w v cs1 t st = Some (t', st') ->
  exclusive cfg w v cs2 t' st' = true ->
  exclusive cfg w v (cs1 ++ cs2) t st = true.
Proof.
  revert t st. induction cs1 as [|c cs IH]; intros t st H1 Hr H2; simpl in *.
  - inversion Hr. subst. exact H2.
  - destruct (step cfg w v c t st) as [[t1 st1]|]; [| discriminate Hr].
    apply andb_prop in H1 as [Ha Hb]. rewrite Ha. simpl. apply IH; auto.
Qed.

Lemma exclusive_inCur cs t st path ign ferr rest :
  exclusive cfg w v cs t st = true ->
  exclusive cfg w v (map InCur cs) (Loop path ign ferr (Some t) [] rest) st
  = true.
Proof.
  assert (Hi : forall t0, inEmit (Loop path ign ferr (Some t0) [] rest)
                          = inEmit t0).
  { intros t0. unfold inEmit. simpl. rewrite app_nil_r. lia. }
  revert t st. induction cs as [|c cs IH]; intros t st H; simpl in *.
  - rewrite Hi. exact H.
  - rewrite Hi. apply andb_prop in H as [Ha Hb]. rewrite Ha. simpl.
    destruct (step cfg w v c t st) as [[t1 st1]|]; [apply IH, Hb | reflexivity].
Qed.

Lemma exclusive_inKid cs t st path ign ferr rest :
  exclusive cfg w v cs t st = true ->
  exclusive cfg w v (inKid 0 cs) (Loop path ign ferr None [t] rest) st = true.
Proof.
  assert (Hi : forall t0, inEmit (Loop path ign ferr None [t0] rest)
                          = inEmit t0).
  { intros t0. unfold inEmit. simpl. rewrite app_nil_r. lia. }
  revert t st. induction cs as [|c cs IH]; intros t st H.
  - simpl in *. rewrite Hi. exact H.
  - change (inKid 0 (c :: cs)) with (InKid 0 c :: inKid 0 cs).
    rewrite exclusive_cons in *. rewrite Hi.
    apply andb_prop in H as [Ha Hb]. rewrite Ha. simpl.
    destruct t; simpl;
      try (destruct (step cfg w v c _ st) as [[t1 st1]|];
           [apply IH, Hb | reflexivity]).
    destruct cs; reflexivity.
Qed.

Lemma loop_serial_exclusive path C files :
  Forall (serialExclusiveOn cfg w v) files ->
  forall ferr st, exists cs,
    exclusive cfg w v cs (Loop path C ferr None [] files) st = true /\
    run cfg w v cs (Loop path C ferr None [] files) st
    = Some (Ret (fst (rangeFiles (walk (walkFn cfg w v)) path C files ferr st)),
            snd (rangeFiles (walk (walkFn cfg w v)) path C files ferr st)).
Proof.
  induction 1 as [|f fs Hf _ IHfs]; intros ferr st.
  - exists [Here]. split; reflexivity.
  - rewrite rangeFiles_cons.
    destruct (acquire v st) as [st1|] eqn:Ea.
    + destruct (walk_acquired cfg w v f (Join path (Name (infoOf f))) C st st1 Ea)
        as (s1 & Hw & Hr).
      destruct (Hf (Join path (Name (infoOf f))) C st1) as (csf & Hxf & Hcsf).
      rewrite Hw in Hcsf. simpl in Hcsf.
      destruct (walk (walkFn cfg w v) (Join path (Name (infoOf f))) f C st)
        as [e s]. simpl in Hcsf, Hr.
      destruct (IHfs (retain e ferr) s) as (csr & Hxr & Hcsr).
      exists (Here :: inKid 0 csf ++ InKid 0 Here :: csr). split.
      * rewrite exclusive_cons, (step_spawn _ _ _ _ _ _ _ _ _ _ Ea).
        apply andb_true_intro. split; [reflexivity |].
        eapply exclusive_app;
          [apply exclusive_inKid, Hxf
          | apply (run_inKid _ _ _ _ _ _ _ _ _ _ _ _ _ Hcsf) |].
        rewrite exclusive_cons. simpl step. rewrite Hr.
        apply andb_true_intro. split; [reflexivity | exact Hxr].
      * rewrite run_cons, (step_spawn _ _ _ _ _ _ _ _ _ _ Ea), run_app.
        rewrite (run_inKid _ _ _ _ _ _ _ _ _ _ _ _ _ Hcsf).
        rewrite run_cons. simpl step. rewrite Hr. exact Hcsr.
    + destruct (Hf (Join path (Name (infoOf f))) C st) as (csf & Hxf & Hcsf).
      destruct (walk (walkFn cfg w v) (Join path (Name (infoOf f))) f C st)
        as [e s]. simpl in Hcsf.
      destruct (IHfs (retain e ferr) s) as (csr & Hxr & Hcsr).
      exists (Here :: map InCur csf ++ Here :: csr). split.
      * rewrite exclusive_cons, (step_inline _ _ _ _ _ _ _ _ _ Ea).
        apply andb_true_intro. split; [reflexivity |].
        eapply exclusive_app;
          [apply exclusive_inCur, Hxf
          | apply (run_inCur _ _ _ _ _ _ _ _ _ _ _ _ _ Hcsf) |].
        rewrite exclusive_cons. simpl step.
        apply andb_true_intro. split; [reflexivity | exact Hxr].
      * rewrite run_cons, (step_inline _ _ _ _ _ _ _ _ _ Ea), run_app.
        rewrite (run_inCur _ _ _ _ _ _ _ _ _ _ _ _ _ Hcsf).
        rewrite run_cons. simpl step. exact Hcsr.
Qed.

Lemma serial_run_exclusive nd : serialExclusiveOn cfg w v nd.
Proof.
  induction nd as [info rderr files IH] using node_ind'.
  intros path C st.
  destruct (extend cfg w v path info C (mem st)) as [C' h] eqn:E.
  rewrite (walk_cases _ _ _ _ _ _ _ _ _ _ _ E).
  pose proof (enter_cases cfg w v path info rderr files C st C' h E) as He.
  destruct (excluded cfg path info C' h).
  { exists [Here]. rewrite exclusive_cons, run_cons, step_Call, He.
    split; reflexivity. }
  destruct (negb (IsDir info)).
  { exists (Here :: [Here; Here; Here]).
    rewrite exclusive_cons, run_cons, step_Call, He, emit_in_one_piece.
    split; [| destruct (checkSend cfg path _); reflexivity].
    simpl. unfold checkSend. destruct (maxcount cfg <? _)%Z; reflexivity. }
  destruct (isSymlink info).
  { exists [Here]. rewrite exclusive_cons, run_cons, step_Call, He.
    split; reflexivity. }
  destruct rderr as [e|].
  { exists [Here]. rewrite exclusive_cons, run_cons, step_Call, He.
    split; reflexivity. }
  destruct (loop_serial_exclusive path C' files IH None
              (logRead path (setMem h st))) as (cs & Hx & Hcs).
  exists (Here :: cs). rewrite exclusive_cons, run_cons, step_Call, He.
  split; [exact Hx | exact Hcs].
Qed.

End SerialExclusive.

(** C2 (amended).  The emits of a run do not overlap when at every
    moment at most one activation is between its read of [n] and the
    comparison that follows its write.  For every such schedule, in
    both variants and under any flags, on a tree all of whose
    directories can be listed and from [n = 0]: under the maximum
    [k >= 1] the walk that returns has sent as many paths as entries
    reached the counter, but [k] at most; it returns [maxError] when
    more than [k] entries reached the counter; the paths sent are paths
    of the listing, each at most as often as it is there; and without
    [-g] the entries that reach the counter are the entries of the
    listing.  With [-M] at zero or below, on every schedule, overlapping
    or not, the walk returns [nil], every entry that reached the counter
    was sent, and without [-g] the paths sent are those of the
    listing.  The traversal on one goroutine is a schedule whose emits
    do not overlap, so all of this holds of the result of [walk]. *)
Theorem maximum_holds_without_overlap cfg w v base root C st :
  healthy root = true ->
  n st = 0%Z -> incs st = 0 -> q st = [] ->
  (forall (k : Z) cs e st',
      (1 <= k)%Z ->
      (Z.of_nat (length (expected (ignorere cfg) base root)) < 2 ^ 63)%Z ->
      exclusive (withMax cfg (maxcountOf k)) w v cs (Call base root C) st
      = true ->
      run (withMax cfg (maxcountOf k)) w v cs (Call base root C) st
      = Some (Ret e, st') ->
      Z.of_nat (length (q st')) = Z.min k (Z.of_nat (incs st')) /\
      ((k < Z.of_nat (incs st'))%Z -> e = Some maxError) /\
      q st' ⊆+ expected (ignorere cfg) base root /\
      (careGitignore cfg = false ->
       incs st' = length (expected (ignorere cfg) base root))) /\
  (forall (maxfiles : Z) cs e st',
      (maxfiles <= 0)%Z ->
      run (withMax cfg (maxcountOf maxfiles)) w v cs (Call base root C) st
      = Some (Ret e, st') ->
      e = None /\ length (q st') = incs st' /\
      q st' ⊆+ expected (ignorere cfg) base root /\
      (careGitignore cfg = false ->
       q st' ≡ₚ expected (ignorere cfg) base root)) /\
  (forall k : Z, exists cs,
      exclusive (withMax cfg (maxcountOf k)) w v cs (Call base root C) st
      = true /\
      run (withMax cfg (maxcountOf k)) w v cs (Call base root C) st
      = Some (Ret (fst (walk (walkFn (withMax cfg (maxcountOf k)) w v)
                          base root C st)),
              snd (walk (walkFn (withMax cfg (maxcountOf k)) w v)
                     base root C st))).
Proof.
  intros Hh Hn Hi Hq.
  assert (Hsub : forall cfg' cs t' st',
             ignorere cfg' = ignorere cfg ->
             run cfg' w v cs (Call base root C) st = Some (t', st') ->
             q st' ⊆+ expected (ignorere cfg) base root).
  { intros cfg' cs t' st' Ei H.
    destruct (run_owed cfg' w v cs _ _ _ _ H) as (d & Hp).
    rewrite Ei, Hq in Hp. simpl in Hp. rewrite Hp.
    apply submseteq_inserts_r. reflexivity. }
  split; [| split; [| intros k; apply serial_run_exclusive]].
  - intros k cs e st' Hk HN Hx H.
    assert (EK : maxcountOf k = k).
    { unfold maxcountOf. destruct (Z.ltb_spec 0 k); [reflexivity | lia]. }
    rewrite EK in *.
    set (N := length (expected (ignorere cfg) base root)) in *.
    assert (Hw : within (ignorere cfg) N (Call base root C) st).
    { unfold within, fresh. rewrite Hn, Hi. simpl. fold N.
      split; [lia |]. split; [constructor | lia]. }
    assert (Hc : capInv k (tmps (Call base root C)) (checks (Call base root C))
                   (faults (Call base root C)) st).
    { unfold capInv. rewrite Hn, Hi, Hq. simpl.
      split; [reflexivity |]. split; [constructor |]. split; [lia |].
      split; lia. }
    pose proof (run_capped (withMax cfg k) w v N k cs eq_refl HN _ _ _ _
                  Hw Hc Hx H) as (_ & _ & _ & Hlen & Hf).
    simpl in Hlen, Hf. rewrite Nat.sub_0_r in Hlen, Hf.
    split; [exact Hlen |]. split; [| split].
    + intros Hlt. specialize (Hf Hlt).
      destruct e as [x|]; [| simpl in Hf; lia].
      pose proof (run_pending (withMax cfg k) w v cs _ _ _ _ H) as Hp.
      simpl in Hp. rewrite (rderrs_healthy root Hh) in Hp.
      assert (Hx' : x ∈ [maxError]) by (apply Hp, elem_of_cons; left; reflexivity).
      apply elem_of_cons in Hx' as [-> | Hx']; [reflexivity |].
      apply elem_of_nil in Hx'. contradiction.
    + apply (Hsub (withMax cfg k) cs _ _ eq_refl H).
    + intros Hg.
      pose proof (run_counted (withMax cfg k) w v cs Hg _ _ _ _ H) as Hc'.
      simpl in Hc'. fold N in Hc'. lia.
  - intros maxfiles cs e st' Hm H.
    rewrite (withMax_sentinel cfg maxfiles Hm) in H.
    assert (Hn0 : (n st <= maxInt64)%Z) by (rewrite Hn, maxInt64_eq; lia).
    destruct (run_sentinel (withMax cfg maxInt64) w v cs eq_refl _ _ _ _ Hn0 H)
      as (_ & Hlen & Hp).
    simpl in Hlen, Hp. rewrite (rderrs_healthy root Hh) in Hp.
    rewrite Hq, Hi in Hlen. simpl in Hlen.
    split; [| split; [lia | split]].
    + destruct e as [x|]; [| reflexivity].
      assert (Hx' : x ∈ @nil error) by (apply Hp, elem_of_cons; left; reflexivity).
      apply elem_of_nil in Hx'. contradiction.
    + apply (Hsub (withMax cfg maxInt64) cs _ _ eq_refl H).
    + intros Hg.
      pose proof (run_owed_kept (withMax cfg maxInt64) w v
                    (fun _ s => (n s <= maxInt64)%Z) Hg
                    (fun c t s t1 s1 Hs E =>
                       step_int64 (withMax cfg maxInt64) w v c t s t1 s1 Hs E)
                    (fun _ s Hs => Hs) cs _ _ _ _ Hn0 H) as Hp'.
      simpl in Hp'. rewrite Hq, app_nil_r in Hp'. simpl in Hp'.
      symmetry. exact Hp'.
Qed.

(** Five files under [-M 2], the goroutine of the last file first: the
    overflow is reported and two paths are sent, [e] and [a]. *)
Lemma maximum_holds_without_overlap_witness :
  exists st',
    run (flags false 2) (ruleFiles []) Bounded lastFirst
      (Call "." fiveFiles nilSlice) initial = Some (Ret (Some maxError), st') /\
    q st' = ["e"; "a"] /\ incs st' = 5 /\
    Z.of_nat (length (q st')) = Z.min 2 (Z.of_nat (incs st')).
Proof.
  eexists. split; [vm_compute; reflexivity |].
  split; [reflexivity |]. split; [reflexivity |].
  refine (proj1 (proj1 (maximum_holds_without_overlap (flags false (-1))
                          (ruleFiles []) Bounded "." fiveFiles nilSlice initial
                          eq_refl eq_refl eq_refl eq_refl)
                   2%Z lastFirst (Some maxError) _ _ _ _ _)).
  - lia.
  - vm_compute. reflexivity.
  - vm_compute. reflexivity.
  - vm_compute. reflexivity.
Defined.

(** ** The rule files when none lies below another *)

Section Listing.

Variable cfg : config.
Variable w : world.

Lemma extend_unruled path fi C h :
  own cfg w path fi = [] -> extend cfg w Bounded path fi C h = (C, h).
Proof.
  unfold own, extend.
  destruct (careGitignore cfg && IsDir fi && negb (isSymlink fi));
    [| reflexivity].
  destruct (NewGitIgnore w (Join path gitignoreFile));
    [discriminate | reflexivity].
Qed.

Lemma extend_tame path fi C h :
  sound h C ->
  len C = cap C \/ own cfg w path fi = [] ->
  let '(C', h') := extend cfg w Bounded path fi C h in
  (forall s, sound h s -> elems h' s = elems h s) /\
  elems h' C' = elems h C ++ own cfg w path fi.
Proof.
  intros Hs Hf. unfold extend, own in *.
  destruct (careGitignore cfg && IsDir fi && negb (isSymlink fi));
    [| rewrite app_nil_r; auto].
  destruct (NewGitIgnore w (Join path gitignoreFile)) as [m|];
    [| rewrite app_nil_r; auto].
  destruct Hf as [Hf | Hf]; [| discriminate Hf].
  pose proof (append_sound h C m Hs) as Ha. unfold append in *.
  assert (E : (len C <? cap C) = false) by (apply Nat.ltb_ge; lia).
  rewrite E in *. destruct Ha as [Ha _].
  split; [| exact Ha]. intros s Hss. apply elems_app_fresh, Hss.
Qed.

Lemma due_stable h h' t :
  Forall (fun s => elems h' s = elems h s) (slicesOf t) ->
  due cfg w h' t = due cfg w h t.
Proof.
  induction t as [path nd C|p|p tmp|p|path C ferr cur kids rest IHc IHk|e]
    using thread_ind'; intros H; simpl in *; try reflexivity.
  - inversion H. subst. congruence.
  - inversion H as [|? ? HC Hr]. subst. apply Forall_app in Hr as [Hcur Hkids].
    rewrite HC. f_equal.
    + destruct cur as [t0|]; [apply IHc, Hcur | reflexivity].
    + f_equal. rewrite List.Forall_flat_map in Hkids.
      clear - IHk Hkids. induction kids as [|k ks IH]; [reflexivity |].
      inversion IHk. inversion Hkids. subst. simpl. f_equal; auto.
Qed.

Lemma roomless_cons path C f rest :
  roomless cfg w path C (f :: rest) = true ->
  tame cfg w (Call (Join path (Name (infoOf f))) f C) = true /\
  roomless cfg w path C rest = true.
Proof.
  unfold roomless. simpl. intros H.
  apply orb_prop in H as [H | H].
  - apply andb_prop in H as [H1 H2]. apply andb_prop in H2 as [H2 H3].
    rewrite H1, H2, H3. auto.
  - apply andb_prop in H as [H1 H2]. rewrite H1, H2, !orb_true_r. auto.
Qed.

Lemma enter_due path nd C st :
  sound (mem st) C ->
  tame cfg w (Call path nd C) = true ->
  let '(t', st') := enter cfg w Bounded path nd C st in
  tame cfg w t' = true /\
  (forall s, sound (mem st) s -> elems (mem st') s = elems (mem st) s) /\
  q st' = q st /\ n st' = n st /\
  due cfg w (mem st') t' = listing cfg w (elems (mem st) C) path nd.
Proof.
  intros Hs Ht. destruct nd as [info rderr files].
  assert (Hf : len C = cap C \/ own cfg w path info = []).
  { simpl in Ht. apply orb_prop in Ht as [Ht | Ht].
    - apply andb_prop in Ht as [Ht _]. left. apply Nat.eqb_eq, Ht.
    - right. destruct (own cfg w path info); [reflexivity | discriminate]. }
  pose proof (extend_tame path info C (mem st) Hs Hf) as He.
  destruct (extend cfg w Bounded path info C (mem st)) as [C' h] eqn:E.
  destruct He as [Hst HC].
  rewrite (enter_cases _ _ _ _ _ _ _ _ _ _ _ E).
  unfold excluded. simpl listing. rewrite HC.
  destruct (ignorere cfg (Name info)
            || careGitignore cfg
               && Match (elems (mem st) C ++ own cfg w path info) path
                    (IsDir info)); [simpl; auto |].
  destruct (negb (IsDir info)); [simpl; auto |].
  destruct (isSymlink info); [simpl; auto |].
  destruct rderr; [simpl; auto |].
  simpl. rewrite HC. split; [| auto].
  unfold roomless. simpl in Ht.
  destruct (own cfg w path info) eqn:Eo.
  - rewrite (extend_unruled path info C (mem st) Eo) in E.
    inversion E. subst. exact Ht.
  - apply orb_prop in Ht as [Ht | Ht]; [| discriminate Ht].
    apply andb_prop in Ht as [_ Ht]. rewrite Ht. apply orb_true_r.
Qed.

Lemma forallb_insert {A} (f : A -> bool) l i x :
  forallb f l = true -> f x = true -> forallb f (<[i:=x]> l) = true.
Proof.
  revert i. induction l as [|y ys IH]; intros [|i] H Hx; simpl in *; auto.
  - apply andb_prop in H as [_ H]. rewrite Hx, H. reflexivity.
  - apply andb_prop in H as [Hy H]. rewrite Hy, (IH i H Hx). reflexivity.
Qed.

Lemma forallb_delete {A} (f : A -> bool) l i :
  forallb f l = true -> forallb f (delete i l) = true.
Proof.
  revert i. induction l as [|y ys IH]; intros [|i] H; simpl in *; auto.
  - apply andb_prop in H as [_ H]. exact H.
  - apply andb_prop in H as [Hy H]. rewrite Hy, (IH i H). reflexivity.
Qed.

Lemma forallb_lookup {A} (f : A -> bool) l i x :
  forallb f l = true -> l !! i = Some x -> f x = true.
Proof.
  revert i. induction l as [|y ys IH]; intros [|i] H E; simpl in *;
    try discriminate; apply andb_prop in H as [Hy H].
  - inversion E. subst. exact Hy.
  - exact (IH i H E).
Qed.

Lemma step_due c :
  forall t st t' st',
    tame cfg w t = true ->
    Forall (sound (mem st)) (slicesOf t) ->
    step cfg w Bounded c t st = Some (t', st') ->
    tame cfg w t' = true /\
    (forall s, sound (mem st) s -> elems (mem st') s = elems (mem st) s) /\
    exists dropped,
      q st ++ due cfg w (mem st) t ≡ₚ q st' ++ due cfg w (mem st') t' ++ dropped /\
      ((n st <= maxcount cfg)%Z -> dropped = []).
Proof.
  induction c as [|c IH|i c IH]; intros t st t' st' Ht Hs H.
  - apply step_Here_cases in H.
    destruct H as [path nd C st|path st|path tmp st|path st
                  |path C ferr e kids rest st|path C ferr kids f rest st st1 H
                  |path C ferr kids f rest st H|path C ferr st].
    + inversion Hs as [|? ? HC _]. subst.
      pose proof (enter_due path nd C st HC Ht) as He.
      destruct (enter cfg w Bounded path nd C st) as [t1 st1].
      destruct He as (H1 & H2 & H3 & H4 & H5). simpl fst; simpl snd.
      split; [exact H1 |]. split; [exact H2 |].
      exists []. split; [| auto]. rewrite H3, H5, app_nil_r. reflexivity.
    + split; [reflexivity |]. split; [auto |].
      exists []. split; [| auto]. simpl. reflexivity.
    + split; [reflexivity |]. split; [auto |].
      exists []. split; [| auto]. simpl. reflexivity.
    + split; [reflexivity |].
      unfold checkSend. destruct (Z.ltb_spec (maxcount cfg) (n st)); simpl.
      * split; [auto |]. exists [path]. split; [reflexivity |]. lia.
      * split; [auto |]. exists []. split; [| auto].
        rewrite !app_nil_r. reflexivity.
    + split; [exact Ht |]. split; [auto |].
      exists []. split; [| auto]. simpl. rewrite app_nil_r. reflexivity.
    + assert (Eq : q st1 = q st /\ mem st1 = mem st).
      { unfold acquire in H. destruct (sem st <? 16); inversion H; auto. }
      destruct Eq as [Eq Em]. simpl in Ht.
      apply andb_prop in Ht as [Hk Hr].
      apply roomless_cons in Hr as [Hf Hr].
      split.
      { simpl. rewrite forallb_app. simpl in *. rewrite Hk, Hf, Hr. reflexivity. }
      split; [intros s _; rewrite Em; reflexivity |].
      exists []. split; [| auto]. simpl. rewrite Eq, Em, flat_map_app. simpl.
      rewrite !app_nil_r. rewrite <- !app_assoc. reflexivity.
    + simpl in Ht. apply andb_prop in Ht as [Hk Hr].
      apply roomless_cons in Hr as [Hf Hr].
      split.
      { simpl in *. rewrite Hk, Hf, Hr. reflexivity. }
      split; [auto |].
      exists []. split; [| auto]. simpl. rewrite app_nil_r. solve_Permutation.
    + split; [reflexivity |]. split; [auto |].
      exists []. split; [| auto]. simpl. reflexivity.
  - apply step_InCur_cases in H
      as (path & C & ferr & t0 & kids & rest & t1 & -> & E & ->).
    simpl in Ht. apply andb_prop in Ht as [Ht Hr].
    apply andb_prop in Ht as [Ht0 Hk].
    simpl in Hs. inversion Hs as [|? ? HC Hs']. subst.
    apply Forall_app in Hs' as [Hs0 Hsk].
    destruct (IH _ _ _ _ Ht0 Hs0 E) as (H1 & H2 & d & Hp & Hd).
    split; [simpl; rewrite H1, Hk, Hr; reflexivity |].
    split; [exact H2 |].
    exists d. split; [| exact Hd]. simpl.
    rewrite (H2 C HC).
    assert (Ek : flat_map (due cfg w (mem st')) kids
                 = flat_map (due cfg w (mem st)) kids).
    { clear - Hsk H2. rewrite List.Forall_flat_map in Hsk.
      induction kids as [|k ks IHk]; [reflexivity |].
      inversion Hsk. subst. simpl. f_equal; [| auto].
      apply due_stable. eapply Forall_impl; [eassumption |]. auto. }
    rewrite Ek, !app_assoc, Hp. solve_Permutation.
  - apply step_InKid_cases in H
      as (path & C & ferr & cur & kids & rest & -> &
          [(e & Ek & -> & ->) | (t0 & t1 & Ek & E & ->)]).
    + simpl in Ht. apply andb_prop in Ht as [Ht Hr].
      apply andb_prop in Ht as [Ht0 Hk].
      split.
      { simpl. rewrite Ht0, (forallb_delete _ _ i Hk), Hr. reflexivity. }
      split; [intros s _; reflexivity |].
      exists []. split; [| auto]. simpl.
      rewrite (flat_map_delete (due cfg w (mem st)) kids i _ Ek). simpl.
      rewrite app_nil_r. reflexivity.
    + simpl in Ht. apply andb_prop in Ht as [Ht Hr].
      apply andb_prop in Ht as [Htc Hk].
      simpl in Hs. inversion Hs as [|? ? HC Hs']. subst.
      apply Forall_app in Hs' as [Hsc Hsk].
      rewrite List.Forall_flat_map in Hsk.
      assert (Hs0 : Forall (sound (mem st)) (slicesOf t0)).
      { rewrite Forall_forall in Hsk. apply Hsk, list_elem_of_lookup. eauto. }
      destruct (IH _ _ _ _ (forallb_lookup _ _ _ _ Hk Ek) Hs0 E)
        as (H1 & H2 & d & Hp & Hd).
      split.
      { simpl. rewrite Htc, (forallb_insert _ _ i _ Hk H1), Hr. reflexivity. }
      split; [exact H2 |].
      exists d. split; [| exact Hd]. simpl.
      rewrite (H2 C HC).
      assert (Ec : match cur with
                   | Some t2 => due cfg w (mem st') t2
                   | None => []
                   end
                   = match cur with
                     | Some t2 => due cfg w (mem st) t2
                     | None => []
                     end).
      { destruct cur as [t2|]; [| reflexivity].
        apply due_stable. eapply Forall_impl; [exact Hsc |]. auto. }
      assert (Ed : flat_map (due cfg w (mem st')) (delete i kids)
                   = flat_map (due cfg w (mem st)) (delete i kids)).
      { assert (Hsd : Forall (fun k => Forall (sound (mem st)) (slicesOf k))
                        (delete i kids)) by (apply Forall_delete, Hsk).
        clear - Hsd H2.
        induction (delete i kids) as [|k ks IHk]; [reflexivity |].
        inversion Hsd. subst. simpl. f_equal; [| auto].
        apply due_stable. eapply Forall_impl; [eassumption |]. auto. }
      rewrite (flat_map_delete (due cfg w (mem st)) kids i _ Ek).
      rewrite (flat_map_insert (due cfg w (mem st')) kids i _ t1 Ek).
      rewrite Ec, Ed.
      transitivity ((q st ++ due cfg w (mem st) t0)
                    ++ match cur with
                       | Some t2 => due cfg w (mem st) t2
                       | None => []
                       end
                    ++ flat_map (due cfg w (mem st)) (delete i kids)
                    ++ flat_map
                         (fun f => listing cfg w (elems (mem st) C)
                                     (Join path (Name (infoOf f))) f)
                         rest);
        [solve_Permutation |].
      rewrite Hp. solve_Permutation.
Qed.

Lemma run_due cs :
  forall t st t' st',
    tame cfg w t = true ->
    Forall (sound (mem st)) (slicesOf t) ->
    run cfg w Bounded cs t st = Some (t', st') ->
    exists dropped,
      q st ++ due cfg w (mem st) t ≡ₚ q st' ++ due cfg w (mem st') t' ++ dropped /\
      (maxcount cfg = maxInt64 -> (n st <= maxInt64)%Z -> dropped = []).
Proof.
  induction cs as [|c cs IH]; intros t st t' st' Ht Hs H; simpl in H.
  - inversion H. subst. exists []. rewrite app_nil_r. auto.
  - destruct (step cfg w Bounded c t st) as [[t1 st1]|] eqn:E; [| discriminate H].
    destruct (step_due c _ _ _ _ Ht Hs E) as (H1 & _ & d1 & Hp1 & Hd1).
    destruct (step_sound cfg w Bounded c _ _ _ _ Hs E) as [Hs1 _].
    destruct (IH _ _ _ _ H1 Hs1 H) as (d2 & Hp2 & Hd2).
    exists (d2 ++ d1). split.
    + transitivity ((q st1 ++ due cfg w (mem st1) t1) ++ d1);
        [rewrite Hp1; solve_Permutation | rewrite Hp2; solve_Permutation].
    + intros Hm Hn.
      rewrite (Hd1 ltac:(rewrite Hm; exact Hn)).
      rewrite (Hd2 Hm (step_int64 cfg w Bounded c _ _ _ _ Hn E)). reflexivity.
Qed.

End Listing.

Lemma excluded_some_matcher cfg path fi C h :
  sound h C ->
  (excluded cfg path fi C h = true <->
   ignorere cfg (Name fi) = true \/
   careGitignore cfg = true /\
   exists ig, In (Some ig) (elems h C) /\ ig path (IsDir fi) = true).
Proof.
  intros (_ & _ & Hnf). unfold excluded.
  rewrite (Match_nilFree _ _ _ Hnf), orb_true_iff, andb_true_iff, existsb_exists.
  split; (intros [H | [Hg H]]; [left; exact H | right; split; [exact Hg |]]).
  - destruct H as ([ig|] & Hin & Hr); simpl in Hr; [eauto | discriminate].
  - destruct H as (ig & Hin & Hr). exists (Some ig). auto.
Qed.

Lemma extend_own cfg w path fi C h :
  sound h C ->
  let '(C', h') := extend cfg w Bounded path fi C h in
  sound h' C' /\ elems h' C' = elems h C ++ own cfg w path fi.
Proof.
  intros Hs. pose proof (extend_sound cfg w Bounded path fi C h Hs) as He.
  unfold own. unfold extend in *.
  destruct (careGitignore cfg && IsDir fi && negb (isSymlink fi)).
  - destruct (match NewGitIgnore w (Join path gitignoreFile) with
              | Some matcher => append C (Some matcher) h
              | None => (C, h)
              end) as [C' h'].
    destruct He as [H1 H2]. split; [exact H1 | exact (H2 eq_refl)].
  - rewrite app_nil_r. tauto.
Qed.

(** C1 (amended), for the bounded variant.  The closure sets an entry
    aside exactly when the static pattern matches its name, or [-g] is
    given and a matcher of the context it tests reports a match on the
    path; that context denotes what the inherited slice denotes when the
    closure runs, followed for a directory by the matcher of its own
    rule file.  The contexts are sound on every schedule, so this is
    true of every entry visited.  What the inherited slice denotes is
    decided by the appends made so far.  When no rule file lies below a
    directory that has one, every [append] takes a new array, and on
    every schedule the paths sent are paths of [listing], where every
    entry is tested against the rule files of the directories above it
    and its own; without a maximum they are all of them.  In the
    scenario every schedule that runs the walk to its end sends
    [sub/.gitignore] and [sub/y.txt] and nothing else, on one goroutine
    in this order: the rule file is an entry like any other. *)
Theorem bounded_exclusion_test :
  (forall cfg w path fi C st,
      sound (mem st) C ->
      let '(C', err, st') := walkFn cfg w Bounded path fi C st in
      elems (mem st') C' = elems (mem st) C ++ own cfg w path fi /\
      (setAside fi err st st' <->
       ignorere cfg (Name fi) = true \/
       careGitignore cfg = true /\
       exists ig, In (Some ig) (elems (mem st') C') /\
                  ig path (IsDir fi) = true)) /\
  (forall cfg w base root cs t' st',
      let '(m, h) := ignMatchers cfg w base [] in
      run cfg w Bounded cs (Call base root m) (setMem h initial)
      = Some (t', st') ->
      Forall (sound (mem st')) (slicesOf t')) /\
  (forall cfg w base root C st cs e st',
      sound (mem st) C -> len C = cap C ->
      unnested cfg w base root = true ->
      run cfg w Bounded cs (Call base root C) st = Some (Ret e, st') ->
      q st' ⊆+ q st ++ listing cfg w (elems (mem st) C) base root /\
      (maxcount cfg = maxInt64 -> (n st <= maxInt64)%Z ->
       q st' ≡ₚ q st ++ listing cfg w (elems (mem st) C) base root)) /\
  (ignMatchers (flags true (-1)) logWorld "." [] = (nilSlice, []) /\
   forall cs e st',
     run (flags true (-1)) logWorld Bounded cs (Call "." logTree nilSlice)
       initial = Some (Ret e, st') ->
     q st' ≡ₚ ["sub/.gitignore"; "sub/y.txt"]) /\
  (exists st,
      filesAsync (flags true (-1)) logWorld Bounded "." logTree
      = Some (None, st) /\
      q st = ["sub/.gitignore"; "sub/y.txt"]).
Proof.
  assert (G : forall cfg w base root C st cs e st',
             sound (mem st) C -> len C = cap C ->
             unnested cfg w base root = true ->
             run cfg w Bounded cs (Call base root C) st = Some (Ret e, st') ->
             q st' ⊆+ q st ++ listing cfg w (elems (mem st) C) base root /\
             (maxcount cfg = maxInt64 -> (n st <= maxInt64)%Z ->
              q st' ≡ₚ q st ++ listing cfg w (elems (mem st) C) base root)).
  { intros cfg w base root C st cs e st' Hs Hf Hu H.
    assert (Ht : tame cfg w (Call base root C) = true).
    { simpl. rewrite Hu. apply Nat.eqb_eq in Hf. rewrite Hf. reflexivity. }
    destruct (run_due cfg w cs _ _ _ _ Ht (Forall_cons_2 _ _ _ Hs (Forall_nil_2 _)) H)
      as (d & Hp & Hd).
    simpl in Hp. split.
    - rewrite Hp. apply submseteq_inserts_r. reflexivity.
    - intros Hm Hn. rewrite (Hd Hm Hn), app_nil_r in Hp. symmetry. exact Hp. }
  split; [| split; [| split; [exact G | split]]].
  - intros cfg w path fi C st Hs.
    pose proof (walkFn_context cfg w Bounded path fi C st) as Hc.
    pose proof (walkFn_setAside_iff cfg w Bounded path fi C st) as Hi.
    pose proof (extend_own cfg w path fi C (mem st) Hs) as He.
    destruct (walkFn cfg w Bounded path fi C st) as [[C' err] st'].
    rewrite <- Hc in He. destruct He as [Hs' He].
    split; [exact He |]. rewrite Hi. apply excluded_some_matcher, Hs'.
  - intros cfg w base root cs t' st'.
    pose proof (ignMatchers_sound cfg w base) as Hs.
    destruct (ignMatchers cfg w base []) as [m h]. intros H.
    apply (run_sound cfg w Bounded cs (Call base root m) (setMem h initial));
      [| exact H].
    constructor; [exact Hs | constructor].
  - split; [reflexivity |]. intros cs e st' H.
    destruct (G (flags true (-1)) logWorld "." logTree nilSlice initial cs e st'
                (sound_nilSlice _) eq_refl eq_refl H) as [_ Hq].
    apply Hq; [reflexivity | vm_compute; discriminate].
  - eexists. split; vm_compute; reflexivity.
Qed.
